(** * Hybrid retrieval engine: graph traversal, vector search and fusion

    A shallow embedding of
      - graph/graph_search.py   (adjacency build, [bfs], [graph_closeness]),
      - search/vector_search.py ([cosine_vec_matrix], [search_vector]),
      - search/hybrid_search.py ([hybrid_search]),
      - main.py                 (the node and edge endpoints and
                                 GET /search/graph),
      - graph/nlp/relation_extractor.py (the NLTK extractor),
    together with the properties the specification states about them and
    further properties of the code.

    Conventions.  Node ids, hops, depths and [top_k] are Python ints: [Z].
    Scores and weights are Python floats.  Where only the number, the
    order or the membership of results is at stake they are modelled as
    real numbers [R] (exact arithmetic, no rounding); the values
    themselves are studied in the module [Binary64], which states
    [cosine_vec_matrix] and [graph_closeness] over IEEE-754 binary64
    values with their rounding, overflow and underflow.  Python's [None]
    is [None] of an option type; a function that can raise returns
    [option], [None] standing for the exception. *)

From Stdlib Require Import ZArith Reals Lra Lia.
From Stdlib Require Floats.
From stdpp Require Import gmap strings list.

#[local] Set Warnings "-clear-no-such-hyp".

Open Scope Z_scope.

(** ** Graph index (graph/graph_search.py) *)

Module Graph.

(** A record of edges.json.  The keys "type" and "weight" may be missing
    (utils/build_dataset.py writes evolution edges without a weight); the
    build loop reads them with [e.get(key, default)]. *)
Record edge := Edge {
  e_source : Z;
  e_target : Z;
  e_type : option string;
  e_weight : option R
}.

(** An entry of an adjacency list: {"target": .., "type": .., "weight": ..}. *)
Record adj_entry := AdjEntry {
  a_target : Z;
  a_type : string;
  a_weight : R
}.

(** [d.setdefault(k, []).append(x)] *)
Definition setdefault_append (k : Z) (x : adj_entry)
    (d : gmap Z (list adj_entry)) : gmap Z (list adj_entry) :=
  <[k := default [] (d !! k) ++ [x]]> d.

Definition rel_of (e : edge) : string := default "related_to"%string (e_type e).
Definition wt_of (e : edge) : R := default 1%R (e_weight e).

(** One iteration of [for e in EDGES]: the forward entry, then the backward
    one. *)
Definition add_edge (d : gmap Z (list adj_entry)) (e : edge)
    : gmap Z (list adj_entry) :=
  let rel := rel_of e in
  let wt := wt_of e in
  setdefault_append (e_target e) (AdjEntry (e_source e) rel wt)
    (setdefault_append (e_source e) (AdjEntry (e_target e) rel wt) d).

(** The module-level loop that fills [ADJ]. *)
Definition build_ADJ (EDGES : list edge) : gmap Z (list adj_entry) :=
  fold_left add_edge EDGES ∅.

(** An element of the BFS queue: [(node, depth, edge_type, weight)]; the
    root carries [None, None]. *)
Definition qitem : Type := Z * Z * option string * option R.

Definition q_node (q : qitem) : Z := q.1.1.1.
Definition q_depth (q : qitem) : Z := q.1.1.2.
Definition q_edge (q : qitem) : option string := q.1.2.
Definition q_weight (q : qitem) : option R := q.2.

(** An element of the list [bfs] returns:
    {"id": .., "hop": .., "edge": .., "weight": ..}. *)
Record hit := Hit {
  hit_id : Z;
  hit_hop : Z;
  hit_edge : option string;
  hit_weight : option R
}.

Definition hit_of (q : qitem) : hit :=
  Hit (q_node q) (q_depth q) (q_edge q) (q_weight q).

(** Truth value of [allowed_types]: [None] and the empty collection are
    false. *)
Definition truthy (allowed_types : option (list string)) : bool :=
  match allowed_types with
  | Some (_ :: _) => true
  | _ => false
  end.

(** [allowed_types and e["type"] not in allowed_types] *)
Definition type_skipped (allowed_types : option (list string)) (t : string)
    : bool :=
  truthy allowed_types && negb (bool_decide (t ∈ default [] allowed_types)).

Section Traversal.
Variable ADJ : gmap Z (list adj_entry).
Variable max_depth : Z.
Variable allowed_types : option (list string).

(** [ADJ.get(node, [])] *)
Definition adj_get (node : Z) : list adj_entry := default [] (ADJ !! node).

(** The inner loop [for e in ADJ.get(node, [])]. *)
Fixpoint expand (depth : Z) (es : list adj_entry)
    (queue : list qitem) (visited : gset Z) : list qitem * gset Z :=
  match es with
  | [] => (queue, visited)
  | e :: es' =>
      if type_skipped allowed_types (a_type e) then
        expand depth es' queue visited
      else
        let nxt := a_target e in
        if decide (nxt ∈ visited) then expand depth es' queue visited
        else
          expand depth es'
            (queue ++ [(nxt, depth + 1, Some (a_type e), Some (a_weight e))])
            ({[nxt]} ∪ visited)
  end.

(** The loop [while queue], one iteration per unit of fuel; [None] when
    the fuel runs out before the queue is empty. *)
Fixpoint bfs_loop (fuel : nat) (queue : list qitem) (visited : gset Z)
    (results : list hit) : option (list hit) :=
  match queue with
  | [] => Some results
  | q :: rest =>
      match fuel with
      | O => None
      | S fuel' =>
          let results' :=
            if 0 <? q_depth q then results ++ [hit_of q] else results in
          if q_depth q =? max_depth then
            bfs_loop fuel' rest visited results'
          else
            let '(queue', visited') :=
              expand (q_depth q) (adj_get (q_node q)) rest visited in
            bfs_loop fuel' queue' visited' results'
      end
  end.

(** Every id that occurs as a target of some adjacency entry. *)
Definition adj_targets : gset Z :=
  list_to_set (flat_map (λ kv, map a_target kv.2) (map_to_list ADJ)).

(** Each iteration dequeues one node and each node is enqueued at most
    once, so one iteration for the root and one per target suffice. *)
Definition bfs_fuel : nat := S (size adj_targets).

End Traversal.

(** [bfs(start_id, max_depth, allowed_types)] on the adjacency [ADJ]. *)
Definition bfs (ADJ : gmap Z (list adj_entry)) (start_id : Z)
    (max_depth : Z) (allowed_types : option (list string))
    : option (list hit) :=
  match ADJ !! start_id with
  | None => Some []
  | Some _ =>
      bfs_loop ADJ max_depth allowed_types (bfs_fuel ADJ)
        [(start_id, 0, None, None)] {[start_id]} []
  end.

(** [graph_closeness(node_id, bfs_results)].  [None] stands for the
    exceptions Python raises: ZeroDivisionError when [1 + hop] is zero,
    TypeError when the weight is [None]. *)
Fixpoint graph_closeness (node_id : Z) (bfs_results : list hit) : option R :=
  match bfs_results with
  | [] => Some 0%R
  | r :: rs =>
      if decide (hit_id r = node_id) then
        let hop := hit_hop r in
        if decide (1 + hop = 0) then None
        else
          let base := (1 / IZR (1 + hop))%R in
          match hit_weight r with
          | Some wt => Some (base * wt)%R
          | None => None
          end
      else graph_closeness node_id rs
  end.

End Graph.

(** ** Vector index (search/vector_search.py) *)

Module Vector.

(** A JSON value stored under a metadata key. *)
Inductive jvalue :=
  | JNull
  | JStr (s : string)
  | JInt (z : Z).

#[global] Instance jvalue_eq_dec : EqDecision jvalue.
Proof. solve_decision. Defined.

(** A record of nodes.json, as utils/build_dataset.py and the node CRUD
    of main.py write it: all five keys are present. *)
Record node := Node {
  n_id : Z;
  n_name : string;
  n_text : string;
  n_metadata : gmap string jvalue;
  n_embedding : list R
}.

(** [n.get("metadata", {}).get(key)]: a missing key reads as [None]. *)
Definition metadata_get (n : node) (key : string) : jvalue :=
  default JNull (n_metadata n !! key).

(** [np.array(rows)] for a list of lists of floats: a two-dimensional
    array when all rows have one length, otherwise a ValueError
    (NumPy 1.24 and later; inhomogeneous shape). *)
Definition np_array (rows : list (list R)) : option (list (list R)) :=
  match rows with
  | [] => Some []
  | r :: _ =>
      if forallb (λ r', Nat.eqb (length r') (length r)) rows
      then Some rows else None
  end.

(** The module-level state: [NODES], [EMB_ARRAY], [NODE_IDS]. *)
Record index := Index {
  NODES : list node;
  EMB_ARRAY : list (list R);
  NODE_IDS : list Z
}.

(** The [try] block that loads the nodes; any exception is caught, printed
    and replaced by the empty index. *)
Definition load_nodes (nodes : list node) : index :=
  match np_array (n_embedding <$> nodes) with
  | Some m => Index nodes m (n_id <$> nodes)
  | None => Index [] [] []
  end.

Fixpoint dot (a b : list R) : R :=
  match a, b with
  | x :: a', y :: b' => (x * y + dot a' b')%R
  | _, _ => 0%R
  end.

(** [np.linalg.norm] of a vector (and of each row, for [axis=1]). *)
Definition norm (a : list R) : R := sqrt (dot a a).

(** [np.where(denom == 0, 1e-9, denom)], one entry. *)
Definition floor_denom (denom : R) : R :=
  if Req_dec_T denom 0 then 1e-9%R else denom.

(** [cosine_vec_matrix(matrix, vector)]; [None] is an exception: the
    AxisError of [np.linalg.norm(matrix, axis=1)] for a matrix without
    rows (an array of one dimension), the ValueError of [matrix @ vector]
    when a row and the vector differ in length. *)
Definition cosine_vec_matrix (matrix : list (list R)) (vector : list R)
    : option (list R) :=
  match matrix with
  | [] => None
  | _ :: _ =>
      if forallb (λ row, Nat.eqb (length row) (length vector)) matrix then
        let matrix_norms := norm <$> matrix in
        let vector_norm := norm vector in
        let denom :=
          (λ mn, floor_denom (mn * vector_norm)%R) <$> matrix_norms in
        Some (zip_with Rdiv ((λ row, dot row vector) <$> matrix) denom)
      else None
  end.

(** [l[:k]] for a Python int [k]. *)
Definition slice_to {A} (k : Z) (l : list A) : list A :=
  if k <? 0 then take (Z.to_nat (Z.of_nat (length l) + k)) l
  else take (Z.to_nat k) l.

(** What [np.argsort] promises: the indices of the array, ordered so that
    the values ascend.  The order among equal values is left open (the
    default sort kind is not stable). *)
Definition is_argsort (sims : list R) (idx : list nat) : Prop :=
  idx ≡ₚ seq 0 (length sims) ∧
  ∀ i j a b x y, (i ≤ j)%nat →
    idx !! i = Some a → idx !! j = Some b →
    sims !! a = Some x → sims !! b = Some y → (x <= y)%R.

Class ArgSort := {
  argsort : list R → list nat;
  argsort_spec : ∀ sims, is_argsort sims (argsort sims)
}.

(** An entry of the list [search_vector] returns. *)
Record vhit := VHit {
  v_id : Z;
  v_name : string;
  vector_score : R
}.

Section Search.
Context `{ArgSort}.
(** The embedding oracle [models.embeddings.embed_text]. *)
Variable embed_text : string → list R.
Variable ix : index.

Definition search_vector (query_text : string) (top_k : Z)
    (metadata_filter : option (string * jvalue)) : option (list vhit) :=
  if bool_decide (length (NODES ix) = 0%nat) then Some [] else
  let q_embed := embed_text query_text in
  (* steps 3 and 4, shared by both branches of the filter *)
  let rank (filtered_nodes : list node) (filtered_embs : list (list R)) :=
    sims ← cosine_vec_matrix filtered_embs q_embed;
    let top_k := Z.min top_k (Z.of_nat (length filtered_nodes)) in
    let top_indices := slice_to top_k (reverse (argsort sims)) in
    mapM (λ idx,
            node ← filtered_nodes !! idx;
            s ← sims !! idx;
            Some (VHit (n_id node) (n_name node) s))
         top_indices in
  match metadata_filter with
  | Some (key, value) =>
      let filtered_nodes :=
        filter (λ n, metadata_get n key = value) (NODES ix) in
      match filtered_nodes with
      | [] => Some []
      | _ =>
          filtered_embs ← np_array (n_embedding <$> filtered_nodes);
          rank filtered_nodes filtered_embs
      end
  | None => rank (NODES ix) (EMB_ARRAY ix)
  end.
End Search.

End Vector.

(** ** Fusion (search/hybrid_search.py) *)

Module Hybrid.
Import Graph Vector.

(** A Python dict with int keys, as an association list in insertion
    order: assigning to a key that is present keeps its position. *)
Fixpoint dict_set {V} (k : Z) (v : V) (d : list (Z * V)) : list (Z * V) :=
  match d with
  | [] => [(k, v)]
  | (k', v') :: d' =>
      if decide (k' = k) then (k, v) :: d' else (k', v') :: dict_set k v d'
  end.

Definition dict_of {V} (kvs : list (Z * V)) : list (Z * V) :=
  fold_left (λ d kv, dict_set kv.1 kv.2 d) kvs [].

Fixpoint dict_get {V} (d : list (Z * V)) (k : Z) : option V :=
  match d with
  | [] => None
  | (k', v) :: d' => if decide (k' = k) then Some v else dict_get d' k
  end.

(** [list.sort(key=.., reverse=True)]: descending by key, entries with
    equal keys stay in their original order. *)
Section Sort.
Context {A : Type} (key : A → R).

Fixpoint insert_desc (x : A) (l : list A) : list A :=
  match l with
  | [] => [x]
  | y :: l' =>
      if Rlt_dec (key x) (key y) then y :: insert_desc x l'
      else x :: y :: l'
  end.

Definition sort_desc (l : list A) : list A := foldr insert_desc [] l.
End Sort.

(** An entry of the list [hybrid_search] returns. *)
Record result := Result {
  r_id : Z;
  r_name : option string;
  r_text : option string;
  r_vector_score : R;
  r_graph_score : R;
  final_score : R;
  r_hop : option Z
}.

Section Fusion.
Context `{ArgSort}.
Variable embed_text : string → list R.
Variable ADJ : gmap Z (list adj_entry).
Variable ix : index.
(** The copy of nodes.json that hybrid_search.py loads for itself. *)
Variable HNODES : list node.

(** [next((f(x) for x in l if p(x)), None)] *)
Definition next_or_none {X Y} (p : X → bool) (f : X → Y) (l : list X)
    : option Y :=
  f <$> head (filter (λ x, p x = true) l).

Definition hybrid_search (query_text : string) (top_k : Z)
    (focus_id : option Z) (bfs_depth : Z) (alpha : R)
    : option (list result) :=
  let vector_weight := alpha in
  let graph_weight := (1 - alpha)%R in
  vector_results ← search_vector embed_text ix query_text top_k None;
  match vector_results with
  | [] => Some []
  | best :: _ =>
      let vec_scores :=
        dict_of ((λ r, (v_id r, vector_score r)) <$> vector_results) in
      let focus_id := default (v_id best) focus_id in
      visited ← bfs ADJ focus_id bfs_depth None;
      graph_scores ←
        mapM (λ kv : Z * R,
                g ← graph_closeness kv.1 visited; Some (kv.1, g))
             vec_scores;
      let merged_results :=
        (λ kv : Z * R,
               let node_id := kv.1 in
               let v := kv.2 in
               let g := default 0%R (dict_get graph_scores node_id) in
               let final_score := (vector_weight * v + graph_weight * g)%R in
               let node_name :=
                 next_or_none (λ n, bool_decide (n_id n = node_id))
                              n_name HNODES in
               let node_text :=
                 next_or_none (λ n, bool_decide (n_id n = node_id))
                              n_text HNODES in
               let hop :=
                 next_or_none (λ item, bool_decide (hit_id item = node_id))
                              hit_hop visited in
               Result node_id node_name node_text v g final_score hop)
          <$> vec_scores in
      Some (slice_to top_k (sort_desc final_score merged_results))
  end.
End Fusion.

End Hybrid.

(** ** Scores over IEEE-754 binary64

    [cosine_vec_matrix] and [graph_closeness] with the float64 arithmetic
    of NumPy and of Python floats: every operation is rounded, products
    and sums overflow to infinity and underflow to zero, [inf / inf] and
    [inf * 0] are NaN.  Sums run in index order. *)

Module Binary64.
Import Floats.

Definition dot (a b : list float) : float :=
  fold_left (λ acc xy, acc + xy.1 * xy.2)%float (zip a b) 0%float.

Definition norm (a : list float) : float := PrimFloat.sqrt (dot a a).

Definition floor_denom (denom : float) : float :=
  if (denom =? 0)%float then 0x1.12e0be826d695p-30%float else denom.

Definition cosine_vec_matrix (matrix : list (list float))
    (vector : list float) : option (list float) :=
  match matrix with
  | [] => None
  | _ :: _ =>
      if forallb (λ row, Nat.eqb (length row) (length vector)) matrix then
        let matrix_norms := norm <$> matrix in
        let vector_norm := norm vector in
        let denom :=
          (λ mn, floor_denom (mn * vector_norm)%float) <$> matrix_norms in
        Some (zip_with PrimFloat.div ((λ row, dot row vector) <$> matrix)
                denom)
      else None
  end.

(** 2^700, a finite binary64 value whose square is not. *)
Definition two_pow_700 : float := 0x1p+700%float.

(** An entry of a traversal result with its weight as a float. *)
Record hit := Hit {
  hit_id : Z;
  hit_hop : Z;
  hit_edge : option string;
  hit_weight : option float
}.

(** The conversion of a Python int to a float, as the division
    [1.0 / (1 + hop)] makes it: the nearest binary64 value, ties to even;
    [None] is the OverflowError for an int too large. *)
Definition of_int (z : Z) : option float :=
  let f := SF2Prim (binary_normalize prec emax z 0 false) in
  if is_infinity f then None else Some f.

(** [graph_closeness(node_id, bfs_results)]; [None] stands for the
    exceptions: ZeroDivisionError, OverflowError, and the TypeError of a
    weight that is [None]. *)
Fixpoint graph_closeness (node_id : Z) (bfs_results : list hit)
    : option float :=
  match bfs_results with
  | [] => Some 0%float
  | r :: rs =>
      if decide (hit_id r = node_id) then
        let hop := hit_hop r in
        if decide (1 + hop = 0) then None
        else
          match of_int (1 + hop) with
          | None => None
          | Some d =>
              let base := (1 / d)%float in
              match hit_weight r with
              | Some wt => Some (base * wt)%float
              | None => None
              end
          end
      else graph_closeness node_id rs
  end.

(** The quotient [weight / (1 + hop)] of the specification, one rounded
    division. *)
Definition quotient (weight : float) (hop : Z) : option float :=
  match of_int (1 + hop) with
  | Some d => Some (weight / d)%float
  | None => None
  end.

Definition half : float := 0.5%float.
Definition five : float := 5%float.
Definition ten : float := 10%float.

(** The traversal result of the specification's example, and the same
    with weight 5.0 on the second edge. *)
Definition ex_hits : list hit :=
  [Hit 2 1 (Some "related_to"%string) (Some 1%float);
   Hit 3 2 (Some "related_to"%string) (Some half)].

Definition ex_heavy_hits : list hit :=
  [Hit 2 1 (Some "related_to"%string) (Some 1%float);
   Hit 3 2 (Some "related_to"%string) (Some five)].

(** 0.1, 0.7, 1e-162 and 1e154 as Python reads them. *)
Definition tenth : float := 0x1.999999999999ap-4%float.
Definition seven_tenths : float := 0x1.6666666666666p-1%float.
Definition ten_pow_m162 : float := 0x1.ccb0536608d61p-539%float.
Definition ten_pow_154 : float := 0x1.7dddf6b095ff1p+511%float.

End Binary64.

(** ** Node and edge endpoints (main.py) *)

Module Api.
Import Graph Vector.

(** A record of edges.json as the endpoints read it.  The endpoints write
    edges with all five keys; utils/build_dataset.py writes them without
    an "id", and evolution edges without a "weight". *)
Record edge_rec := EdgeRec {
  er_id : option Z;
  er_source : Z;
  er_target : Z;
  er_type : option string;
  er_weight : option R
}.

#[local] Instance real_eq_dec : EqDecision R := Req_dec_T.

#[global] Instance edge_rec_eq_dec : EqDecision edge_rec.
Proof. solve_decision. Defined.

(** The same record as graph/graph_search.py reads it. *)
Definition edge_of (e : edge_rec) : edge :=
  Edge (er_source e) (er_target e) (er_type e) (er_weight e).

(** The two files under data/. *)
Record files := Files {
  NODES_FILE : list node;
  EDGES_FILE : list edge_rec
}.

(** How a handler ends: with its response, with HTTPException(404), or
    with the KeyError of [e["id"]] on an edge that has no id. *)
Inductive outcome (A : Type) :=
  | Ok (a : A)
  | HTTP404
  | KeyError.
Arguments Ok {A} a.
Arguments HTTP404 {A}.
Arguments KeyError {A}.

Definition bind {A B} (m : outcome A) (f : A → outcome B) : outcome B :=
  match m with
  | Ok a => f a
  | HTTP404 => HTTP404
  | KeyError => KeyError
  end.

(** A triple of graph/nlp/relation_extractor.py:
    {"subject": .., "relation": .., "object": ..}. *)
Record triple := Triple {
  t_subject : string;
  t_relation : string;
  t_object : string
}.

(** [max(l, default=0)] *)
Definition py_max (l : list Z) : Z :=
  match l with
  | [] => 0
  | x :: l' => fold_left Z.max l' x
  end.

(** [[e["id"] for e in edges]], a KeyError when an edge has no id. *)
Definition edge_ids (edges : list edge_rec) : outcome (list Z) :=
  match mapM er_id edges with
  | Some ids => Ok ids
  | None => KeyError
  end.

(** [e["source"] == id or e["target"] == id] *)
Definition incident (id : Z) (e : edge_rec) : Prop :=
  er_source e = id ∨ er_target e = id.

Section Handlers.
Variable embed_text : string → list R.
Variable extract_relations : string → list triple.
(** [str.lower] *)
Variable lower : string → string.

(** [next((n for n in nodes if n["name"].lower() == s), None)] *)
Definition find_by_name (nodes : list node) (s : string) : option node :=
  head (filter (λ n, lower (n_name n) = s) nodes).

(** One iteration of [for t in triples] in [create_node], on the pair
    [(edges, created_edges)]. *)
Definition auto_edge (nodes : list node)
    (st : list edge_rec * list edge_rec) (t : triple)
    : outcome (list edge_rec * list edge_rec) :=
  let subj := lower (t_subject t) in
  let obj := lower (t_object t) in
  match find_by_name nodes subj, find_by_name nodes obj with
  | Some subj_node, Some obj_node =>
      bind (edge_ids st.1) (λ ids,
        let eid := py_max ids + 1 in
        let edge := EdgeRec (Some eid) (n_id subj_node) (n_id obj_node)
                      (Some (t_relation t)) (Some 1%R) in
        Ok (st.1 ++ [edge], st.2 ++ [edge]))
  | _, _ => Ok st
  end.

Fixpoint auto_edges (nodes : list node) (triples : list triple)
    (st : list edge_rec * list edge_rec)
    : outcome (list edge_rec * list edge_rec) :=
  match triples with
  | [] => Ok st
  | t :: triples' =>
      bind (auto_edge nodes st t) (auto_edges nodes triples')
  end.

(** POST /nodes.  The response carries the new node and the edges
    created from its text. *)
Definition create_node (fs : files) (name text : string)
    (metadata : gmap string jvalue)
    : outcome (files * (node * list edge_rec)) :=
  let nodes := NODES_FILE fs in
  let edges := EDGES_FILE fs in
  let new_id := py_max (n_id <$> nodes) + 1 in
  let new_node := Node new_id name text metadata (embed_text text) in
  let nodes := nodes ++ [new_node] in
  let triples := extract_relations text in
  bind (auto_edges nodes triples (edges, [])) (λ st,
    Ok (Files nodes st.1, (new_node, st.2))).

(** GET /nodes/{id} *)
Definition read_node (fs : files) (id : Z)
    : outcome (node * list edge_rec) :=
  match head (filter (λ n, n_id n = id) (NODES_FILE fs)) with
  | None => HTTP404
  | Some node => Ok (node, filter (incident id) (EDGES_FILE fs))
  end.

(** The assignments of [update_node] on the node found. *)
Definition node_updated (n : node) (name text : option string)
    (metadata : option (gmap string jvalue)) : node :=
  let n :=
    match name with
    | Some s => Node (n_id n) s (n_text n) (n_metadata n) (n_embedding n)
    | None => n
    end in
  let n :=
    match text with
    | Some s => Node (n_id n) (n_name n) s (n_metadata n) (embed_text s)
    | None => n
    end in
  match metadata with
  | Some m => Node (n_id n) (n_name n) (n_text n) m (n_embedding n)
  | None => n
  end.

(** The loop [for n in nodes] of [update_node]: the list with the first
    node of that id updated in place, and that node; [None] when the loop
    ends without a match. *)
Fixpoint update_node_loop (nodes : list node) (id : Z)
    (name text : option string) (metadata : option (gmap string jvalue))
    : option (list node * node) :=
  match nodes with
  | [] => None
  | n :: rest =>
      if decide (n_id n = id) then
        let n' := node_updated n name text metadata in
        Some (n' :: rest, n')
      else
        '(rest', n') ← update_node_loop rest id name text metadata;
        Some (n :: rest', n')
  end.

(** PUT /nodes/{id} *)
Definition update_node (fs : files) (id : Z) (name text : option string)
    (metadata : option (gmap string jvalue)) : outcome (files * node) :=
  match update_node_loop (NODES_FILE fs) id name text metadata with
  | Some (nodes, n) => Ok (Files nodes (EDGES_FILE fs), n)
  | None => HTTP404
  end.

(** DELETE /nodes/{id} *)
Definition delete_node (fs : files) (id : Z) : outcome files :=
  let nodes := NODES_FILE fs in
  let edges := EDGES_FILE fs in
  let new_nodes := filter (λ n, n_id n ≠ id) nodes in
  let removed_edges := filter (incident id) edges in
  let new_edges := filter (λ e, e ∉ removed_edges) edges in
  if decide (length new_nodes = length nodes) then HTTP404
  else Ok (Files new_nodes new_edges).

(** POST /edges *)
Definition create_edge (fs : files) (source target : Z) (type : string)
    (weight : R) : outcome (files * edge_rec) :=
  let edges := EDGES_FILE fs in
  bind (edge_ids edges) (λ ids,
    let new_id := py_max ids + 1 in
    let new_edge :=
      EdgeRec (Some new_id) source target (Some type) (Some weight) in
    Ok (Files (NODES_FILE fs) (edges ++ [new_edge]), new_edge)).

(** [next((e for e in edges if e["id"] == id), None)], then the 404 test:
    the generator stops at the first match, and raises at an edge without
    an id that comes before it. *)
Fixpoint find_edge (edges : list edge_rec) (id : Z) : outcome edge_rec :=
  match edges with
  | [] => HTTP404
  | e :: rest =>
      match er_id e with
      | None => KeyError
      | Some i => if decide (i = id) then Ok e else find_edge rest id
      end
  end.

(** GET /edges/{id} *)
Definition read_edge (fs : files) (id : Z) : outcome edge_rec :=
  find_edge (EDGES_FILE fs) id.

(** The assignments of [update_edge] on the edge found. *)
Definition edge_updated (e : edge_rec) (type : option string)
    (weight : option R) : edge_rec :=
  let e :=
    match type with
    | Some t =>
        EdgeRec (er_id e) (er_source e) (er_target e) (Some t) (er_weight e)
    | None => e
    end in
  match weight with
  | Some w =>
      EdgeRec (er_id e) (er_source e) (er_target e) (er_type e) (Some w)
  | None => e
  end.

(** The loop [for e in edges] of [update_edge]. *)
Fixpoint update_edge_loop (edges : list edge_rec) (id : Z)
    (type : option string) (weight : option R)
    : outcome (list edge_rec * edge_rec) :=
  match edges with
  | [] => HTTP404
  | e :: rest =>
      match er_id e with
      | None => KeyError
      | Some i =>
          if decide (i = id) then
            let e' := edge_updated e type weight in
            Ok (e' :: rest, e')
          else
            bind (update_edge_loop rest id type weight) (λ r,
              Ok (e :: r.1, r.2))
      end
  end.

(** PUT /edges/{id} *)
Definition update_edge (fs : files) (id : Z) (type : option string)
    (weight : option R) : outcome (files * edge_rec) :=
  bind (update_edge_loop (EDGES_FILE fs) id type weight) (λ r,
    Ok (Files (NODES_FILE fs) r.1, r.2)).

(** DELETE /edges/{id} *)
Definition delete_edge (fs : files) (id : Z) : outcome files :=
  let edges := EDGES_FILE fs in
  bind (edge_ids edges) (λ _,
    let new_edges := filter (λ e, er_id e ≠ Some id) edges in
    if decide (length new_edges = length edges) then HTTP404
    else Ok (Files (NODES_FILE fs) new_edges)).
End Handlers.

(** The body of a response of GET /search/graph: the traversal result
    with the request echoed, or the 500 response of the [except]
    branch. *)
Inductive graph_response :=
  | Visited (start_id depth : Z) (rel_type : option string)
      (visited : list hit)
  | Error500.

(** GET /search/graph.  An empty [rel_type] is false, like [None]. *)
Definition graph_search (ADJ : gmap Z (list adj_entry)) (start_id : Z)
    (depth : Z) (rel_type : option string) : graph_response :=
  let allowed :=
    match rel_type with
    | Some s => if decide (s = EmptyString) then None else Some [s]
    | None => None
    end in
  match bfs ADJ start_id depth allowed with
  | Some visited => Visited start_id depth rel_type visited
  | None => Error500
  end.

End Api.

(** ** Relation extraction (graph/nlp/relation_extractor.py) *)

Module RelationExtractor.
Import Api.

Definition RELATION_VERBS : list string :=
  ["is"; "are"; "was"; "were";
   "has"; "have";
   "belongs"; "belong";
   "created"; "creates";
   "discovered"; "discovers";
   "contains"; "contain";
   "includes"; "include";
   "uses"; "used";
   "makes"; "made";
   "forms"; "formed";
   "evolves"; "evolve";
   "wins"; "won";
   "leads"; "led";
   "developed"; "develops";
   "produced"; "produces";
   "invented"; "invents";
   "studied"; "studies"]%string.

(** [s.startswith(p)] *)
Definition startswith (s p : string) : bool := String.prefix p s.

Section Extractor.
(** NLTK's tokenizers and tagger; [None] stands for an exception. *)
Variable sent_tokenize : string → option (list string).
Variable word_tokenize : string → option (list string).
Variable pos_tag : list string → option (list (string * string)).
(** [str.lower] *)
Variable lower : string → string.

(** The three patterns on the tagged words at [i], [i+1], [i+2], in the
    order of the three [if] statements. *)
Definition patterns (x1 x2 x3 : string * string) : list triple :=
  let '(w1, t1) := x1 in
  let '(w2, t2) := x2 in
  let '(w3, t3) := x3 in
  let t := Triple w1 (lower w2) w3 in
  (if startswith t1 "NN" && startswith t2 "VB" && startswith t3 "NN"
   then [t] else []) ++
  (if startswith t1 "NN"
      && bool_decide (lower w2 ∈ ["is"; "are"; "was"; "were"]%string)
      && (startswith t3 "JJ" || startswith t3 "NN")
   then [t] else []) ++
  (if startswith t1 "NN" && bool_decide (lower w2 ∈ RELATION_VERBS)
      && (startswith t3 "NN" || startswith t3 "JJ")
   then [t] else []).

(** [for i in range(len(tagged) - 2)] *)
Fixpoint scan (tagged : list (string * string)) : list triple :=
  match tagged with
  | [] => []
  | x1 :: rest =>
      match rest with
      | x2 :: x3 :: _ => patterns x1 x2 x3 ++ scan rest
      | _ => []
      end
  end.

(** [for sent in sentences]: a sentence whose tagging fails is skipped, a
    failure of the word tokenizer is not caught here. *)
Fixpoint sentences_loop (sentences : list string) (triples : list triple)
    : option (list triple) :=
  match sentences with
  | [] => Some triples
  | sent :: rest =>
      tokens ← word_tokenize sent;
      match pos_tag tokens with
      | None => sentences_loop rest triples
      | Some tagged => sentences_loop rest (triples ++ scan tagged)
      end
  end.

Definition _extract_with_nltk (text : string) : option (list triple) :=
  sentences ← sent_tokenize text;
  sentences_loop sentences [].

(** The regular-expression extractor used without NLTK's resources. *)
Variable _extract_fallback : string → option (list triple).

(** [extract_relations]: any exception gives the empty list. *)
Definition extract_relations (USE_NLTK : bool) (text : string)
    : list triple :=
  default []
    (if USE_NLTK then _extract_with_nltk text else _extract_fallback text).
End Extractor.

End RelationExtractor.

Import Graph Vector Hybrid.

(** ** Example data

    The graph of the specification's example, three nodes with
    one-dimensional embeddings, an edge to an id that no node has, and two
    nodes whose embeddings differ in dimension. *)

Definition ex_edges : list edge :=
  [Edge 1 2 (Some "related_to"%string) (Some 1%R);
   Edge 2 3 (Some "related_to"%string) (Some 0.5%R)].

(** Node 4 is two hops from node 1 through node 2 (edge "b") and through
    node 3 (edge "a", first in the input). *)
Definition ex_diamond_edges : list edge :=
  [Edge 3 4 (Some "a"%string) None;
   Edge 1 2 None None;
   Edge 1 3 None None;
   Edge 2 4 (Some "b"%string) None].

Definition ex_nodes : list node :=
  [Node 1 "a" "text a" ∅ [1%R];
   Node 2 "b" "text b" ∅ [2%R];
   Node 3 "c" "text c" ∅ [0%R]].

Definition ex_embed (_ : string) : list R := [1%R].

Definition ex_dangling_edges : list edge :=
  [Edge 1 99 (Some "related_to"%string) (Some 1%R)].

Definition ex_ragged_nodes : list node :=
  [Node 1 "a" "text a" ∅ [1%R];
   Node 2 "b" "text b" ∅ [1%R; 0%R]].

(** * Properties *)

(** ** Adjacency build *)

Section Adjacency.

(** The entries an edge contributes to the neighbour list of [n]: the
    forward entry when [n] is its source, then the backward entry when
    [n] is its target. *)
Definition entries_at (n : Z) (e : edge) : list adj_entry :=
  (if decide (e_source e = n)
   then [AdjEntry (e_target e) (rel_of e) (wt_of e)] else []) ++
  (if decide (e_target e = n)
   then [AdjEntry (e_source e) (rel_of e) (wt_of e)] else []).

Lemma setdefault_append_lookup k x (d : gmap Z (list adj_entry)) n :
  setdefault_append k x d !! n =
  if decide (k = n) then Some (default [] (d !! n) ++ [x]) else d !! n.
Proof.
  unfold setdefault_append. destruct (decide (k = n)) as [->|Hne].
  - by rewrite lookup_insert_eq.
  - by rewrite lookup_insert_ne.
Qed.

Lemma add_edge_lookup (d : gmap Z (list adj_entry)) e n :
  add_edge d e !! n =
  match entries_at n e with
  | [] => d !! n
  | es => Some (default [] (d !! n) ++ es)
  end.
Proof.
  unfold add_edge, entries_at.
  rewrite !setdefault_append_lookup.
  destruct (decide (e_target e = n)), (decide (e_source e = n));
    simpl; try done.
  by rewrite <- app_assoc.
Qed.

Lemma fold_add_edge_lookup es : ∀ (d : gmap Z (list adj_entry)) n,
  fold_left add_edge es d !! n =
  match flat_map (entries_at n) es with
  | [] => d !! n
  | l => Some (default [] (d !! n) ++ l)
  end.
Proof.
  induction es as [|e es IH]; intros d n; simpl; [done|].
  rewrite IH, add_edge_lookup.
  destruct (entries_at n e) as [|x xs] eqn:He; simpl; [done|].
  destruct (flat_map (entries_at n) es) as [|y ys]; simpl.
  - by rewrite app_nil_r.
  - by rewrite <- app_assoc.
Qed.

(** A neighbour list of the built adjacency is the concatenation, in
    input order, of what each edge contributes to it. *)
Lemma build_ADJ_lookup EDGES n :
  build_ADJ EDGES !! n =
  match flat_map (entries_at n) EDGES with
  | [] => None
  | l => Some l
  end.
Proof.
  unfold build_ADJ. rewrite fold_add_edge_lookup, lookup_empty.
  by destruct (flat_map _ _).
Qed.

Lemma adj_get_build_ADJ EDGES n :
  adj_get (build_ADJ EDGES) n = flat_map (entries_at n) EDGES.
Proof.
  unfold adj_get. rewrite build_ADJ_lookup. by destruct (flat_map _ _).
Qed.

Lemma forward_entry_at e :
  AdjEntry (e_target e) (rel_of e) (wt_of e) ∈ entries_at (e_source e) e.
Proof.
  unfold entries_at. rewrite decide_True by done.
  apply elem_of_app. left. apply list_elem_of_singleton. done.
Qed.

Lemma backward_entry_at e :
  AdjEntry (e_source e) (rel_of e) (wt_of e) ∈ entries_at (e_target e) e.
Proof.
  unfold entries_at. rewrite (decide_True (P := e_target e = _)) by done.
  apply elem_of_app. right. apply list_elem_of_singleton. done.
Qed.

Lemma elem_of_entries_at x n e :
  x ∈ entries_at n e →
  AdjEntry n (a_type x) (a_weight x) ∈ entries_at (a_target x) e.
Proof.
  unfold entries_at at 1. intros Hx.
  apply elem_of_app in Hx as [Hx|Hx]; case_decide; subst;
    try (by apply elem_of_nil in Hx);
    apply list_elem_of_singleton in Hx; subst x; simpl.
  - apply backward_entry_at.
  - apply forward_entry_at.
Qed.

Lemma elem_of_flat_map_entries x n EDGES :
  x ∈ flat_map (entries_at n) EDGES ↔ ∃ e, e ∈ EDGES ∧ x ∈ entries_at n e.
Proof.
  induction EDGES as [|e' es IH]; simpl.
  - split; [by intros ?%elem_of_nil | by intros (e & ?%elem_of_nil & _)].
  - rewrite elem_of_app, IH. split.
    + intros [?|(e & ? & ?)]; [exists e' | exists e];
        split; auto; apply elem_of_cons; auto.
    + intros (e & [->|?]%elem_of_cons & ?); eauto.
Qed.

End Adjacency.

(** C4.  The built adjacency is symmetric and keeps the input order.
    For every edge of the input with type [t] and weight [w], the
    neighbour list of its source holds the entry (target, [t], [w]) and
    the neighbour list of its target the entry (source, [t], [w]); a
    missing type reads as "related_to" and a missing weight as 1.0;
    every entry of every neighbour list has its reverse entry with the
    same type and weight; the neighbour list of a node is exactly what
    the edges contribute to it, forward entry before backward entry, in
    input edge order; and a node has no neighbour list exactly when no
    edge touches it. *)
Theorem build_ADJ_symmetric (EDGES : list edge) :
  (∀ e t w, e ∈ EDGES → e_type e = Some t → e_weight e = Some w →
     AdjEntry (e_target e) t w ∈ adj_get (build_ADJ EDGES) (e_source e) ∧
     AdjEntry (e_source e) t w ∈ adj_get (build_ADJ EDGES) (e_target e)) ∧
  (∀ e, e ∈ EDGES →
     let t := default "related_to"%string (e_type e) in
     let w := default 1%R (e_weight e) in
     AdjEntry (e_target e) t w ∈ adj_get (build_ADJ EDGES) (e_source e) ∧
     AdjEntry (e_source e) t w ∈ adj_get (build_ADJ EDGES) (e_target e)) ∧
  (∀ n x, x ∈ adj_get (build_ADJ EDGES) n →
     AdjEntry n (a_type x) (a_weight x)
       ∈ adj_get (build_ADJ EDGES) (a_target x)) ∧
  (∀ n, adj_get (build_ADJ EDGES) n =
     flat_map
       (λ e,
          let t := default "related_to"%string (e_type e) in
          let w := default 1%R (e_weight e) in
          (if decide (e_source e = n)
           then [AdjEntry (e_target e) t w] else []) ++
          (if decide (e_target e = n)
           then [AdjEntry (e_source e) t w] else []))
       EDGES) ∧
  (∀ n, build_ADJ EDGES !! n = None ↔
     ∀ e, e ∈ EDGES → e_source e ≠ n ∧ e_target e ≠ n).
Proof.
  assert (Hdef : ∀ e, e ∈ EDGES →
    AdjEntry (e_target e) (rel_of e) (wt_of e)
      ∈ adj_get (build_ADJ EDGES) (e_source e) ∧
    AdjEntry (e_source e) (rel_of e) (wt_of e)
      ∈ adj_get (build_ADJ EDGES) (e_target e)).
  { intros e He. split; rewrite adj_get_build_ADJ;
      apply elem_of_flat_map_entries;
      eauto using forward_entry_at, backward_entry_at. }
  split; [|split; [exact Hdef|split; [|split]]].
  - intros e t w He Ht Hw. specialize (Hdef e He).
    unfold rel_of, wt_of in Hdef. by rewrite Ht, Hw in Hdef.
  - intros n x. rewrite !adj_get_build_ADJ, !elem_of_flat_map_entries.
    intros (e & He & Hx). eauto using elem_of_entries_at.
  - apply adj_get_build_ADJ.
  - intros n. rewrite build_ADJ_lookup. split.
    + intros Hnone e He.
      assert (Hnil : flat_map (entries_at n) EDGES = [])
        by by destruct (flat_map _ _).
      assert (Hen : entries_at n e = []).
      { destruct (entries_at n e) as [|x l] eqn:Hx; [done|].
        assert (Hin : x ∈ flat_map (entries_at n) EDGES).
        { apply elem_of_flat_map_entries. exists e. split; [done|].
          rewrite Hx. left. }
        rewrite Hnil in Hin. by apply elem_of_nil in Hin. }
      unfold entries_at in Hen.
      destruct (decide (e_source e = n)); [done|].
      destruct (decide (e_target e = n)); done.
    + intros Hall.
      destruct (flat_map (entries_at n) EDGES) as [|x l] eqn:Hx; [done|].
      assert (Hin : x ∈ flat_map (entries_at n) EDGES)
        by (rewrite Hx; left).
      apply elem_of_flat_map_entries in Hin as (e & He & Hin).
      destruct (Hall e He) as [Hs Ht]. unfold entries_at in Hin.
      rewrite !decide_False in Hin by done. by apply elem_of_nil in Hin.
Qed.

Lemma build_ADJ_symmetric_witness :
  AdjEntry 3 "related_to" 0.5%R ∈ adj_get (build_ADJ ex_edges) 2 ∧
  AdjEntry 2 "related_to" 0.5%R ∈ adj_get (build_ADJ ex_edges) 3.
Proof.
  destruct (build_ADJ_symmetric ex_edges) as (Hsym & _).
  apply (Hsym (Edge 2 3 (Some "related_to"%string) (Some 0.5%R))).
  - right. left.
  - reflexivity.
  - reflexivity.
Defined.

(** ** Breadth-first traversal *)

Section BFS.
Variable ADJ : gmap Z (list adj_entry).
Variable max_depth : Z.
Variable allowed_types : option (list string).

(** An adjacency entry the type filter lets through. *)
Definition allowed (e : adj_entry) : Prop :=
  type_skipped allowed_types (a_type e) = false.

(** [v] is a neighbour of [u] through an allowed entry. *)
Definition step (u v : Z) : Prop :=
  ∃ e, e ∈ adj_get ADJ u ∧ allowed e ∧ a_target e = v.

(** A walk of [n] allowed edges. *)
Inductive walk : nat → Z → Z → Prop :=
  | walk_here u : walk 0 u u
  | walk_step n u m v : step u m → walk n m v → walk (S n) u v.

(** The first allowed entry of a neighbour list that leads to [v]. *)
Definition first_edge_to (es : list adj_entry) (v : Z) : option adj_entry :=
  List.find
    (λ e, negb (type_skipped allowed_types (a_type e))
          && bool_decide (a_target e = v)) es.

(** The queue items one run of the inner loop appends. *)
Fixpoint discovered (depth : Z) (es : list adj_entry) (visited : gset Z)
    : list qitem :=
  match es with
  | [] => []
  | e :: es' =>
      if type_skipped allowed_types (a_type e) then
        discovered depth es' visited
      else if decide (a_target e ∈ visited) then
        discovered depth es' visited
      else
        (a_target e, depth + 1, Some (a_type e), Some (a_weight e))
          :: discovered depth es' ({[a_target e]} ∪ visited)
  end.

Lemma expand_discovered depth es : ∀ queue visited,
  expand allowed_types depth es queue visited =
  (queue ++ discovered depth es visited,
   list_to_set (q_node <$> discovered depth es visited) ∪ visited).
Proof.
  induction es as [|e es IH]; intros queue visited; simpl.
  - rewrite app_nil_r. f_equal. set_solver.
  - destruct (type_skipped _ _); [apply IH|].
    destruct (decide _); [apply IH|].
    rewrite IH, <- app_assoc. simpl. f_equal.
    unfold q_node at 2. simpl. set_solver.
Qed.

Lemma discovered_fresh depth es : ∀ visited x,
  x ∈ discovered depth es visited → q_node x ∉ visited.
Proof.
  induction es as [|e es IH]; intros visited x; simpl.
  - by intros ?%elem_of_nil.
  - destruct (type_skipped _ _); [apply IH|].
    destruct (decide _) as [|Hn]; [apply IH|].
    intros [->|Hx]%elem_of_cons; [done|].
    apply IH in Hx. set_solver.
Qed.

Lemma discovered_NoDup depth es : ∀ visited,
  NoDup (q_node <$> discovered depth es visited).
Proof.
  induction es as [|e es IH]; intros visited; simpl.
  - constructor.
  - destruct (type_skipped _ _); [apply IH|].
    destruct (decide _) as [|Hn]; [apply IH|].
    rewrite fmap_cons. constructor; [|apply IH].
    intros (y & Hy & Hin)%list_elem_of_fmap.
    apply discovered_fresh in Hin. unfold q_node in Hy at 1. simpl in Hy.
    set_solver.
Qed.

Lemma discovered_item depth es : ∀ visited x,
  x ∈ discovered depth es visited →
  q_depth x = depth + 1 ∧
  ∃ e, first_edge_to es (q_node x) = Some e ∧ e ∈ es ∧
       q_edge x = Some (a_type e) ∧ q_weight x = Some (a_weight e).
Proof.
  induction es as [|e es IH]; intros visited x; simpl.
  - by intros ?%elem_of_nil.
  - unfold first_edge_to. simpl.
    destruct (type_skipped _ _) eqn:Hs; simpl.
    + intros Hx. destruct (IH _ _ Hx) as (? & e' & ? & ? & ?).
      split; [done|]. exists e'. split; [done|]. split; [|done].
      by apply list_elem_of_further.
    + destruct (decide (a_target e ∈ visited)) as [Hv|Hn].
      * intros Hx. pose proof (discovered_fresh _ _ _ _ Hx) as Hf.
        destruct (IH _ _ Hx) as (? & e' & ? & ? & ?).
        split; [done|]. exists e'.
        rewrite bool_decide_eq_false_2 by (intros Heq; by rewrite Heq in Hv).
        split; [done|]. split; [|done]. by apply list_elem_of_further.
      * intros [->|Hx]%elem_of_cons.
        -- split; [done|]. exists e. unfold q_node. simpl.
           rewrite bool_decide_eq_true_2 by done.
           split; [done|]. split; [|done]. apply list_elem_of_here.
        -- pose proof (discovered_fresh _ _ _ _ Hx) as Hf.
           destruct (IH _ _ Hx) as (? & e' & ? & ? & ?).
           split; [done|]. exists e'.
           rewrite bool_decide_eq_false_2 by set_solver.
           split; [done|]. split; [|done]. by apply list_elem_of_further.
Qed.

Lemma discovered_closed depth es : ∀ visited e,
  e ∈ es → allowed e →
  a_target e ∈
    (list_to_set (q_node <$> discovered depth es visited) ∪ visited
       : gset Z).
Proof.
  induction es as [|e' es IH]; intros visited e; simpl.
  - by intros ?%elem_of_nil.
  - intros [->|He]%elem_of_cons Ha.
    + unfold allowed in Ha. rewrite Ha.
      destruct (decide _) as [|Hn]; [set_solver|].
      rewrite fmap_cons. unfold q_node at 1. simpl. set_solver.
    + destruct (type_skipped _ (a_type e')); [by apply IH|].
      destruct (decide _) as [|Hn]; [by apply IH|].
      rewrite fmap_cons. unfold q_node at 1. simpl.
      specialize (IH ({[a_target e']} ∪ visited) e He Ha). set_solver.
Qed.

Lemma first_edge_to_Some es v e :
  first_edge_to es v = Some e → e ∈ es ∧ allowed e ∧ a_target e = v.
Proof.
  unfold first_edge_to. intros Hf. apply find_some in Hf as [Hin Hb].
  apply andb_true_iff in Hb as [Ha Ht].
  apply negb_true_iff in Ha. apply bool_decide_eq_true in Ht.
  by rewrite list_elem_of_In.
Qed.

Lemma first_edge_to_None es v e :
  first_edge_to es v = None → e ∈ es → allowed e → a_target e ≠ v.
Proof.
  unfold first_edge_to. intros Hf Hin Ha Ht.
  apply list_elem_of_In in Hin.
  pose proof (find_none _ _ Hf _ Hin) as Hb. simpl in Hb.
  unfold allowed in Ha. rewrite Ha in Hb. simpl in Hb.
  by apply bool_decide_eq_false in Hb.
Qed.

Lemma adj_get_targets u e :
  e ∈ adj_get ADJ u → a_target e ∈ adj_targets ADJ.
Proof.
  unfold adj_get, adj_targets. intros He.
  destruct (ADJ !! u) as [l|] eqn:Hu; simpl in He;
    [|by apply elem_of_nil in He].
  apply elem_of_list_to_set, list_elem_of_In, in_flat_map.
  exists (u, l). split.
  - by apply list_elem_of_In, elem_of_map_to_list.
  - simpl. apply in_map. by apply list_elem_of_In.
Qed.

(** *** The traversal as a growing trace

    The nodes ever enqueued, in the order they were enqueued, form a
    trace; the first [nd] of them have been dequeued, the others are the
    queue.  An iteration moves the boundary by one and appends what it
    discovers. *)

Variable start_id : Z.

Definition root : qitem := (start_id, 0, None, None).

Definition results_of (done : list qitem) : list hit :=
  hit_of <$> filter (λ q, 0 < q_depth q) done.

Record trace_inv (trace : list qitem) (nd : nat) : Prop := {
  ti_root : trace !! 0%nat = Some root;
  ti_pos : ∀ i x, trace !! S i = Some x → 0 < q_depth x;
  ti_nodup : NoDup (q_node <$> trace);
  ti_sorted : ∀ i j x y, (i ≤ j)%nat →
    trace !! i = Some x → trace !! j = Some y → q_depth x ≤ q_depth y;
  ti_front : ∀ h y,
    trace !! nd = Some h → y ∈ trace → q_depth y ≤ q_depth h + 1;
  ti_bound : 0 ≤ max_depth → ∀ y, y ∈ trace → q_depth y ≤ max_depth;
  ti_closed : ∀ j p e, (j < nd)%nat → trace !! j = Some p →
    q_depth p ≠ max_depth → e ∈ adj_get ADJ (q_node p) → allowed e →
    ∃ y, y ∈ trace ∧ q_node y = a_target e ∧ q_depth y ≤ q_depth p + 1;
  ti_parent : ∀ i x, trace !! S i = Some x →
    ∃ j p e, (j ≤ i)%nat ∧ (j < nd)%nat ∧ trace !! j = Some p ∧
      q_depth x = q_depth p + 1 ∧
      first_edge_to (adj_get ADJ (q_node p)) (q_node x) = Some e ∧
      q_edge x = Some (a_type e) ∧ q_weight x = Some (a_weight e) ∧
      ∀ k q, (k < j)%nat → trace !! k = Some q →
             ¬ step (q_node q) (q_node x);
  ti_targets : ∀ i x, trace !! S i = Some x → q_node x ∈ adj_targets ADJ
}.

Lemma trace_depth_nonneg trace nd y :
  trace_inv trace nd → y ∈ trace → 0 ≤ q_depth y.
Proof.
  intros Hinv [i Hi]%list_elem_of_lookup_1. destruct i as [|i].
  - rewrite (ti_root _ _ Hinv) in Hi. by injection Hi as <-.
  - pose proof (ti_pos _ _ Hinv _ _ Hi). lia.
Qed.

Lemma trace_inv_init : trace_inv [root] 0.
Proof.
  split.
  - done.
  - intros i x Hi. by destruct i.
  - repeat constructor. by intros ?%elem_of_nil.
  - intros [|i] [|j] x y _ Hx Hy; try done.
    injection Hx as <-. injection Hy as <-. done.
  - intros h y [= <-] ->%list_elem_of_singleton. unfold q_depth. simpl. lia.
  - intros ? y ->%list_elem_of_singleton. done.
  - intros j p e Hj. lia.
  - intros i x Hi. by destruct i.
  - intros i x Hi. by destruct i.
Qed.

(** A dequeued node at depth [max_depth] is not expanded. *)
Lemma trace_inv_cut trace nd h :
  trace_inv trace nd → trace !! nd = Some h → q_depth h = max_depth →
  trace_inv trace (S nd).
Proof.
  intros Hinv Hh Hd. split.
  - apply Hinv.
  - apply Hinv.
  - apply Hinv.
  - apply Hinv.
  - intros h' y Hh' Hy.
    pose proof (ti_front _ _ Hinv _ _ Hh Hy).
    pose proof (ti_sorted _ _ Hinv nd (S nd) _ _ ltac:(lia) Hh Hh'). lia.
  - apply Hinv.
  - intros j p e Hj Hp Hne. destruct (decide (j = nd)) as [->|].
    + rewrite Hh in Hp. injection Hp as <-. done.
    + apply (ti_closed _ _ Hinv j); [lia|done..].
  - intros i x Hx.
    destruct (ti_parent _ _ Hinv _ _ Hx) as (j & p & e & ? & ? & ?).
    exists j, p, e. split; [done|]. split; [lia|done].
  - apply Hinv.
Qed.

(** A dequeued node at another depth is expanded: the trace grows by
    what the inner loop discovers. *)
Lemma trace_inv_expand trace nd h :
  trace_inv trace nd → trace !! nd = Some h → q_depth h ≠ max_depth →
  trace_inv
    (trace ++ discovered (q_depth h) (adj_get ADJ (q_node h))
                (list_to_set (q_node <$> trace)))
    (S nd).
Proof.
  intros Hinv Hh Hne.
  set (V := list_to_set (q_node <$> trace) : gset Z).
  set (news := discovered (q_depth h) (adj_get ADJ (q_node h)) V).
  assert (Hlt : (nd < length trace)%nat) by by eapply lookup_lt_Some.
  assert (Hfresh : ∀ x y, x ∈ news → y ∈ trace → q_node x ≠ q_node y).
  { intros x y Hx Hy Heq. apply discovered_fresh in Hx. apply Hx.
    subst V. apply elem_of_list_to_set, list_elem_of_fmap. eauto. }
  assert (Hitem : ∀ x, x ∈ news →
    q_depth x = q_depth h + 1 ∧
    ∃ e, first_edge_to (adj_get ADJ (q_node h)) (q_node x) = Some e ∧
         e ∈ adj_get ADJ (q_node h) ∧
         q_edge x = Some (a_type e) ∧ q_weight x = Some (a_weight e)).
  { intros x Hx. by apply discovered_item in Hx. }
  assert (Hh0 : 0 ≤ q_depth h).
  { eapply trace_depth_nonneg; [done|]. by eapply list_elem_of_lookup_2. }
  assert (Hsorted : ∀ i j x y, (i ≤ j)%nat →
    (trace ++ news) !! i = Some x → (trace ++ news) !! j = Some y →
    q_depth x ≤ q_depth y).
  { intros i j x y Hij Hx Hy.
    apply lookup_app_Some in Hx as [Hx|[Hi Hx]];
      apply lookup_app_Some in Hy as [Hy|[Hj Hy]].
    - by eapply (ti_sorted _ _ Hinv i j).
    - apply list_elem_of_lookup_2 in Hx, Hy.
      pose proof (ti_front _ _ Hinv _ _ Hh Hx).
      destruct (Hitem _ Hy) as [-> _]. done.
    - apply lookup_lt_Some in Hy. lia.
    - apply list_elem_of_lookup_2 in Hx, Hy.
      destruct (Hitem _ Hx) as [-> _]. destruct (Hitem _ Hy) as [-> _].
      done. }
  split.
  - apply lookup_app_l_Some, Hinv.
  - intros i x [Hx|[_ Hx]]%lookup_app_Some.
    + by eapply ti_pos.
    + apply list_elem_of_lookup_2 in Hx. destruct (Hitem _ Hx) as [-> _].
      lia.
  - rewrite fmap_app. apply NoDup_app. split; [apply Hinv|]. split.
    + intros v (y & -> & Hy)%list_elem_of_fmap
        (x & Heq & Hx)%list_elem_of_fmap.
      by eapply Hfresh.
    + apply discovered_NoDup.
  - done.
  - intros h' y Hh' Hy.
    assert (q_depth h ≤ q_depth h').
    { eapply (Hsorted nd (S nd)); [lia| |done].
      by apply lookup_app_l_Some. }
    apply elem_of_app in Hy as [Hy|Hy].
    + pose proof (ti_front _ _ Hinv _ _ Hh Hy). lia.
    + destruct (Hitem _ Hy) as [-> _]. lia.
  - intros Hmax y [Hy|Hy]%elem_of_app.
    + by apply (ti_bound _ _ Hinv).
    + destruct (Hitem _ Hy) as [-> _].
      assert (q_depth h ≤ max_depth).
      { apply (ti_bound _ _ Hinv); [done|].
        by eapply list_elem_of_lookup_2. }
      lia.
  - intros j p e Hj Hp Hpne He Ha.
    apply lookup_app_Some in Hp as [Hp|[Hp _]]; [|lia].
    destruct (decide (j = nd)) as [->|].
    + rewrite Hh in Hp. injection Hp as <-.
      pose proof (discovered_closed (q_depth h) _ V e He Ha) as Hin.
      apply elem_of_union in Hin as [Hin|Hin].
      * apply elem_of_list_to_set, list_elem_of_fmap in Hin
          as (y & Hy & Hin).
        exists y. split; [apply elem_of_app; by right|]. split; [done|].
        destruct (Hitem _ Hin) as [-> _]. done.
      * subst V.
        apply elem_of_list_to_set, list_elem_of_fmap in Hin
          as (y & Hy & Hin).
        exists y. split; [apply elem_of_app; by left|]. split; [done|].
        by apply (ti_front _ _ Hinv).
    + destruct (ti_closed _ _ Hinv j p e) as (y & ? & ?); [lia|done..|].
      exists y. split; [apply elem_of_app; by left|done].
  - intros i x [Hx|[Hi Hx]]%lookup_app_Some.
    + destruct (ti_parent _ _ Hinv _ _ Hx)
        as (j & p & e & ? & ? & ? & ? & ? & ? & ? & Hno).
      exists j, p, e. split; [done|]. split; [lia|].
      split; [by apply lookup_app_l_Some|]. do 4 (split; [done|]).
      intros k q Hk [Hq|[Hq _]]%lookup_app_Some; [by eapply Hno|lia].
    + apply list_elem_of_lookup_2 in Hx.
      destruct (Hitem _ Hx) as (? & e & ? & ? & ? & ?).
      exists nd, h, e. split; [lia|]. split; [lia|].
      split; [by apply lookup_app_l_Some|]. do 4 (split; [done|]).
      intros k q Hk [Hq|[Hq _]]%lookup_app_Some; [|lia].
      intros (e' & He' & Ha' & Ht').
      assert (Hqin : q ∈ trace) by by eapply list_elem_of_lookup_2.
      assert (Hq0 : 0 ≤ q_depth q) by by eapply trace_depth_nonneg.
      assert (Hqh : q_depth q ≤ q_depth h).
      { eapply (ti_sorted _ _ Hinv k nd); [lia|done..]. }
      destruct (decide (q_depth q = max_depth)) as [Hqm|Hqm].
      * assert (q_depth h ≤ max_depth); [|lia].
        apply (ti_bound _ _ Hinv); [lia|].
        by eapply list_elem_of_lookup_2.
      * destruct (ti_closed _ _ Hinv k q e') as (y & Hy & Hyn & _);
          [lia|done..|].
        eapply Hfresh; [done..|]. congruence.
  - intros i x [Hx|[_ Hx]]%lookup_app_Some.
    + by eapply ti_targets.
    + apply list_elem_of_lookup_2 in Hx.
      destruct (Hitem _ Hx) as (_ & e & He & ? & _).
      apply first_edge_to_Some in He as (? & _ & <-).
      by eapply adj_get_targets.
Qed.

(** What is left to discover shrinks by what an expansion appends. *)
Lemma discovered_measure (T V : gset Z) (news : list qitem) :
  NoDup (q_node <$> news) →
  (∀ x, x ∈ news → q_node x ∈ T ∧ q_node x ∉ V) →
  (size (T ∖ (list_to_set (q_node <$> news) ∪ V)) + length news
   = size (T ∖ V))%nat.
Proof.
  intros Hnd Hin.
  set (N := list_to_set (q_node <$> news) : gset Z).
  assert (HN : size N = length news).
  { subst N. rewrite size_list_to_set by done. by rewrite length_fmap. }
  assert (Hsub : N ⊆ T ∖ V).
  { intros v (x & -> & Hx)%elem_of_list_to_set%list_elem_of_fmap.
    apply elem_of_difference. by apply Hin. }
  replace (T ∖ (N ∪ V)) with ((T ∖ V) ∖ N) by set_solver.
  rewrite size_difference by done.
  apply subseteq_size in Hsub. lia.
Qed.

Lemma results_of_snoc done h :
  results_of (done ++ [h]) =
  if 0 <? q_depth h then results_of done ++ [hit_of h] else results_of done.
Proof.
  unfold results_of. rewrite filter_app, fmap_app.
  destruct (0 <? q_depth h) eqn:Hd.
  - apply Z.ltb_lt in Hd. rewrite filter_cons_True by done. done.
  - apply Z.ltb_ge in Hd. rewrite filter_cons_False by lia.
    simpl. by rewrite app_nil_r.
Qed.

(** The loop, started in a state described by a trace, ends with the
    queue empty within the fuel that the undiscovered targets allow. *)
Lemma bfs_loop_trace fuel : ∀ trace nd,
  trace_inv trace nd → (nd ≤ length trace)%nat →
  (length trace - nd
     + size (adj_targets ADJ ∖ list_to_set (q_node <$> trace)) ≤ fuel)%nat →
  ∃ trace',
    bfs_loop ADJ max_depth allowed_types fuel (drop nd trace)
      (list_to_set (q_node <$> trace)) (results_of (take nd trace))
    = Some (results_of trace') ∧
    trace_inv trace' (length trace').
Proof.
  induction fuel as [|fuel IH]; intros trace nd Hinv Hle Hfuel.
  - assert (nd = length trace) as -> by lia.
    rewrite drop_ge, take_ge by done. simpl. by exists trace.
  - destruct (trace !! nd) as [h|] eqn:Hh.
    + pose proof (lookup_lt_Some _ _ _ Hh) as Hlt.
      rewrite (drop_S _ _ _ Hh). simpl.
      rewrite <- results_of_snoc, <- (take_S_r _ _ _ Hh).
      destruct (q_depth h =? max_depth) eqn:Hd.
      * apply Z.eqb_eq in Hd.
        apply IH; [by eapply trace_inv_cut|lia|lia].
      * apply Z.eqb_neq in Hd.
        rewrite expand_discovered.
        pose proof (trace_inv_expand _ _ _ Hinv Hh Hd) as Hinv'.
        set (V := list_to_set (q_node <$> trace) : gset Z) in *.
        set (news := discovered (q_depth h) (adj_get ADJ (q_node h)) V)
          in *.
        specialize (IH (trace ++ news) (S nd) Hinv').
        rewrite drop_app_le, take_app_le in IH by lia.
        rewrite fmap_app, list_to_set_app_L in IH.
        replace (list_to_set (q_node <$> news) ∪ V)
          with (V ∪ list_to_set (q_node <$> news)) by set_solver.
        apply IH; [rewrite length_app; lia|].
        pose proof (discovered_measure (adj_targets ADJ) V news) as Hm.
        replace (V ∪ list_to_set (q_node <$> news))
          with (list_to_set (q_node <$> news) ∪ V) by set_solver.
        rewrite length_app.
        enough (size (adj_targets ADJ ∖ (list_to_set (q_node <$> news) ∪ V))
                + length news = size (adj_targets ADJ ∖ V))%nat by lia.
        apply Hm; [apply discovered_NoDup|].
        intros x Hx. split; [|by eapply discovered_fresh].
        apply discovered_item in Hx as (_ & e & He & ? & _).
        apply first_edge_to_Some in He as (? & _ & <-).
        by eapply adj_get_targets.
    + apply lookup_ge_None in Hh.
      assert (nd = length trace) as -> by lia.
      rewrite drop_ge, take_ge by done. simpl. by exists trace.
Qed.

(** *** What a finished trace says about the graph *)

Lemma walk_snoc n u m v : walk n u m → step m v → walk (S n) u v.
Proof.
  induction 1 as [u|n u m' m Hs Hw IH]; intros Hv.
  - eapply walk_step; [done|constructor].
  - eapply walk_step; [done|by apply IH].
Qed.

Lemma trace_node_inj trace nd x y :
  trace_inv trace nd → x ∈ trace → y ∈ trace → q_node x = q_node y →
  x = y.
Proof.
  intros Hinv [i Hi]%list_elem_of_lookup_1 [j Hj]%list_elem_of_lookup_1 Heq.
  assert (i = j) as ->; [|congruence].
  eapply (NoDup_lookup _ i j (q_node x) (ti_nodup _ _ Hinv)).
  - by rewrite list_lookup_fmap, Hi.
  - by rewrite list_lookup_fmap, Hj, Heq.
Qed.

Section Finished.
Variable trace : list qitem.
Hypothesis Hinv : trace_inv trace (length trace).

(** Soundness of the hop: a walk of that length exists. *)
Lemma trace_walk i : ∀ x, trace !! i = Some x →
  walk (Z.to_nat (q_depth x)) start_id (q_node x).
Proof.
  induction i as [i IH] using lt_wf_ind. intros x Hx.
  destruct i as [|i].
  - rewrite (ti_root _ _ Hinv) in Hx. injection Hx as <-. constructor.
  - destruct (ti_parent _ _ Hinv _ _ Hx)
      as (j & p & e & Hj & _ & Hp & Hd & He & _).
    apply first_edge_to_Some in He as (He & Ha & Ht).
    assert (0 ≤ q_depth p).
    { eapply trace_depth_nonneg; [done|].
      by eapply list_elem_of_lookup_2. }
    replace (Z.to_nat (q_depth x)) with (S (Z.to_nat (q_depth p)))
      by lia.
    eapply walk_snoc; [apply (IH j); [lia|done]|].
    by exists e.
Qed.

(** Minimality of the hop: no walk is shorter. *)
Lemma trace_shortest n u v : walk n u v → ∀ xu xv,
  xu ∈ trace → q_node xu = u → xv ∈ trace → q_node xv = v →
  q_depth xv ≤ q_depth xu + Z.of_nat n.
Proof.
  induction 1 as [u|n u m v Hs Hw IH]; intros xu xv Hxu Hu Hxv Hv.
  - assert (xu = xv) as ->; [|lia].
    eapply trace_node_inj; [done..|congruence].
  - pose proof (trace_depth_nonneg _ _ _ Hinv Hxu).
    destruct (decide (q_depth xu = max_depth)) as [Hm|Hm].
    + assert (q_depth xv ≤ max_depth); [|lia].
      apply (ti_bound _ _ Hinv); [lia|done].
    + destruct Hs as (e & He & Ha & Ht).
      apply list_elem_of_lookup_1 in Hxu as [j Hj].
      destruct (ti_closed _ _ Hinv j xu e) as (y & Hy & Hyn & Hyd);
        [by eapply lookup_lt_Some|done|done|by rewrite Hu|done|].
      specialize (IH y xv Hy ltac:(congruence) Hxv Hv). lia.
Qed.

(** Completeness below the cutoff: what a walk reaches within
    [max_depth] edges (or at all, when the cutoff cannot fire) is in
    the trace. *)
Lemma trace_complete n u v : walk n u v → ∀ xu,
  xu ∈ trace → q_node xu = u →
  max_depth < 0 ∨ q_depth xu + Z.of_nat n ≤ max_depth →
  ∃ xv, xv ∈ trace ∧ q_node xv = v ∧
        q_depth xv ≤ q_depth xu + Z.of_nat n.
Proof.
  induction 1 as [u|n u m v Hs Hw IH]; intros xu Hxu Hu Hk.
  - exists xu. split; [done|]. split; [done|lia].
  - pose proof (trace_depth_nonneg _ _ _ Hinv Hxu).
    destruct Hs as (e & He & Ha & Ht).
    apply list_elem_of_lookup_1 in Hxu as [j Hj].
    destruct (ti_closed _ _ Hinv j xu e) as (y & Hy & Hyn & Hyd);
      [by eapply lookup_lt_Some|done|lia|by rewrite Hu|done|].
    destruct (IH y Hy ltac:(congruence) ltac:(lia))
      as (xv & ? & ? & ?).
    exists xv. split; [done|]. split; [done|lia].
Qed.

Lemma results_of_finished :
  hit_of root :: results_of trace = (hit_of <$> trace).
Proof.
  unfold results_of.
  destruct trace as [|r tl] eqn:Htr; [by pose proof (ti_root _ _ Hinv)|].
  pose proof (ti_root _ _ Hinv) as Hr. injection Hr as ->.
  rewrite filter_cons_False by (unfold q_depth; simpl; lia).
  rewrite fmap_cons. f_equal. f_equal.
  assert (Hall : ∀ x, x ∈ tl → 0 < q_depth x).
  { intros x [i Hi]%list_elem_of_lookup_1.
    by apply (ti_pos _ _ Hinv i). }
  clear -Hall. induction tl as [|y tl IH]; [done|].
  rewrite filter_cons_True by (apply Hall; left).
  f_equal. apply IH. intros x Hx. apply Hall. by right.
Qed.
End Finished.

(** The traversal returns, and what it returns is the tail of a finished
    trace. *)
Lemma bfs_trace :
  ∃ res, bfs ADJ start_id max_depth allowed_types = Some res ∧
    (ADJ !! start_id = None → res = []) ∧
    ∃ trace, trace_inv trace (length trace) ∧
             hit_of <$> trace = hit_of root :: res.
Proof.
  unfold bfs. destruct (ADJ !! start_id) as [l|] eqn:Hs.
  - destruct (bfs_loop_trace (bfs_fuel ADJ) [root] 0 trace_inv_init)
      as (trace & Hrun & Hinv).
    + simpl. lia.
    + unfold bfs_fuel.
      pose proof (subseteq_size
        (adj_targets ADJ ∖ list_to_set (q_node <$> [root]))
        (adj_targets ADJ) ltac:(set_solver)).
      change (length [root] - 0)%nat with 1%nat. lia.
    + exists (results_of trace). split.
      * change (list_to_set (q_node <$> [root]))
          with ({[start_id]} ∪ ∅ : gset Z) in Hrun.
        rewrite union_empty_r_L in Hrun. exact Hrun.
      * split; [done|]. exists trace. split; [done|].
        symmetry. by apply results_of_finished.
  - exists []. split; [done|]. split; [done|]. exists [root].
    split; [|done].
    destruct (decide (q_depth root = max_depth)) as [Hd|Hd].
    + by eapply trace_inv_cut; [apply trace_inv_init|..].
    + pose proof (trace_inv_expand [root] 0 root trace_inv_init eq_refl Hd)
        as Hinv.
      unfold adj_get in Hinv. change (q_node root) with start_id in Hinv.
      rewrite Hs in Hinv. simpl in Hinv. exact Hinv.
Qed.
End BFS.

Section BFS_results.
Variable ADJ : gmap Z (list adj_entry).
Variable max_depth : Z.
Variable allowed_types : option (list string).
Variable start_id : Z.

(** The root, written as a result entry, to speak of "the start node or
    an earlier entry" in one list. *)
Definition root_hit : hit := Hit start_id 0 None None.

Lemma result_lookup_trace trace (res : list hit) i r :
  hit_of <$> trace = root_hit :: res →
  (root_hit :: res) !! i = Some r →
  ∃ x, trace !! i = Some x ∧ r = hit_of x.
Proof.
  intros <-. rewrite list_lookup_fmap.
  intros (x & ? & ?)%fmap_Some. eauto.
Qed.

Lemma result_elem_trace trace (res : list hit) r :
  hit_of <$> trace = root_hit :: res → r ∈ res →
  ∃ i x, res !! i = Some r ∧ trace !! S i = Some x ∧ r = hit_of x.
Proof.
  intros Htr [i Hi]%list_elem_of_lookup_1.
  destruct (result_lookup_trace trace res (S i) r Htr Hi) as (x & ? & ?).
  eauto.
Qed.
End BFS_results.

(** C1.  For every adjacency, start node, depth and type filter the
    traversal returns a list in which the start id does not occur and no id
    occurs twice.  The hop of an entry is the length of a shortest walk of
    allowed edges from the start to it.  Its edge type and weight are those
    of the edge through which it was enqueued: the discovering node [p] is
    the start or an earlier entry, one hop closer; the edge is the first
    allowed entry for this id in [p]'s neighbour list (adjacency insertion
    order); and no node dequeued before [p] has an allowed edge to it. *)
Theorem bfs_first_discovery (ADJ : gmap Z (list adj_entry)) (max_depth : Z)
    (allowed_types : option (list string)) (start_id : Z) :
  ∃ res, bfs ADJ start_id max_depth allowed_types = Some res ∧
    (start_id ∉ (hit_id <$> res)) ∧
    NoDup (hit_id <$> res) ∧
    (∀ r, r ∈ res →
       0 < hit_hop r ∧
       walk ADJ allowed_types (Z.to_nat (hit_hop r)) start_id (hit_id r) ∧
       ∀ n, walk ADJ allowed_types n start_id (hit_id r) →
            hit_hop r ≤ Z.of_nat n) ∧
    (∀ i r, res !! i = Some r →
       ∃ j p e, (j ≤ i)%nat ∧
         (root_hit start_id :: res) !! j = Some p ∧
         hit_hop r = hit_hop p + 1 ∧
         first_edge_to allowed_types (adj_get ADJ (hit_id p)) (hit_id r)
           = Some e ∧
         hit_edge r = Some (a_type e) ∧ hit_weight r = Some (a_weight e) ∧
         ∀ k q, (k < j)%nat → (root_hit start_id :: res) !! k = Some q →
                ¬ step ADJ allowed_types (hit_id q) (hit_id r)).
Proof.
  destruct (bfs_trace ADJ max_depth allowed_types start_id)
    as (res & Hb & _ & trace & Hinv & Htr).
  change (hit_of (root start_id)) with (root_hit start_id) in Htr.
  exists res. split; [done|].
  assert (Hnd : NoDup (start_id :: (hit_id <$> res))).
  { pose proof (ti_nodup _ _ _ _ _ _ Hinv) as Hn.
    replace (q_node <$> trace) with (hit_id <$> (hit_of <$> trace)) in Hn
      by (rewrite <- list_fmap_compose; done).
    by rewrite Htr in Hn. }
  apply NoDup_cons in Hnd as [Hs Hnd].
  do 2 (split; [done|]). split.
  - intros r Hr.
    destruct (result_elem_trace _ _ _ _ Htr Hr) as (i & x & _ & Hx & ->).
    split; [by eapply (ti_pos _ _ _ _ _ _ Hinv)|].
    split; [by eapply trace_walk|].
    intros n Hw.
    pose proof (trace_shortest _ _ _ _ _ Hinv n _ _ Hw (root start_id) x)
      as Hsh.
    apply Hsh; [|done| |done].
    + eapply list_elem_of_lookup_2, Hinv.
    + by eapply list_elem_of_lookup_2.
  - intros i r Hr.
    destruct (result_lookup_trace _ trace res (S i) r Htr Hr)
      as (x & Hx & ->).
    destruct (ti_parent _ _ _ _ _ _ Hinv _ _ Hx)
      as (j & p & e & ? & _ & Hp & ? & ? & ? & ? & Hno).
    exists j, (hit_of p), e. split; [done|].
    split; [by rewrite <- Htr, list_lookup_fmap, Hp|].
    do 4 (split; [done|]).
    intros k q Hk Hq.
    destruct (result_lookup_trace _ trace res k q Htr Hq) as (y & Hy & ->).
    by eapply Hno.
Qed.

(** The tie between two discovering nodes at one hop goes to the one
    dequeued first: node 4 is enqueued while node 2 is expanded, through
    the edge "b", although the edge "a" from node 3 comes first in the
    input. *)
Example bfs_tie_break :
  bfs (build_ADJ ex_diamond_edges) 1 2 None =
  Some [Hit 2 1 (Some "related_to"%string) (Some 1%R);
        Hit 3 1 (Some "related_to"%string) (Some 1%R);
        Hit 4 2 (Some "b"%string) (Some 1%R)].
Proof. reflexivity. Qed.

(** "Among equal hops, the earliest edge in adjacency insertion order",
    read off the words: of the edges that join the node to a node one hop
    closer to the start, the first in the order in which the edges were
    inserted. *)
Definition hop_from (res : list hit) (start_id v : Z) : option Z :=
  if decide (v = start_id) then Some 0
  else hit_hop <$> head (filter (λ r, hit_id r = v) res).

Definition earliest_inserted_edge (EDGES : list edge) (res : list hit)
    (start_id : Z) (r : hit) : option edge :=
  head (filter
          (λ e, (e_target e = hit_id r ∧
                 hop_from res start_id (e_source e) = Some (hit_hop r - 1)) ∨
                (e_source e = hit_id r ∧
                 hop_from res start_id (e_target e) = Some (hit_hop r - 1)))
          EDGES).

(** The entry does not carry the earliest inserted edge among equal
    hops.  In the diamond, node 4 is two hops from node 1 by the edge "a"
    from node 3 and by the edge "b" from node 2.  The edge "a" was
    inserted first and stands first in node 4's own neighbour list, but
    node 2 is dequeued before node 3, and the entry for node 4 carries
    "b". *)
Lemma bfs_tie_not_insertion_order :
  ∃ res r e,
    bfs (build_ADJ ex_diamond_edges) 1 2 None = Some res ∧
    r ∈ res ∧ hit_id r = 4 ∧ hit_hop r = 2 ∧
    earliest_inserted_edge ex_diamond_edges res 1 r = Some e ∧
    rel_of e = "a"%string ∧
    a_type <$> head (adj_get (build_ADJ ex_diamond_edges) 4)
      = Some "a"%string ∧
    hit_edge r = Some "b"%string.
Proof.
  exists [Hit 2 1 (Some "related_to"%string) (Some 1%R);
          Hit 3 1 (Some "related_to"%string) (Some 1%R);
          Hit 4 2 (Some "b"%string) (Some 1%R)],
    (Hit 4 2 (Some "b"%string) (Some 1%R)),
    (Edge 3 4 (Some "a"%string) None).
  split; [reflexivity|]. split; [do 2 right; left|].
  repeat split; reflexivity.
Qed.

(** C2, for a non-negative depth.  With [max_depth = k >= 0] every entry
    has a hop between 1 and [k]; every node other than the start that a
    walk of at most [k] allowed edges reaches is in the list, the nodes at
    hop [k] included; and an iteration that dequeues a node at depth [k]
    emits it (unless it is the root) and goes on with the rest of the queue
    and the visited set unchanged: it is not expanded. *)
Theorem bfs_depth_bound (ADJ : gmap Z (list adj_entry)) (k : Z)
    (allowed_types : option (list string)) (start_id : Z) :
  0 ≤ k →
  ∃ res, bfs ADJ start_id k allowed_types = Some res ∧
    (∀ r, r ∈ res → 1 ≤ hit_hop r ≤ k) ∧
    (∀ n v, Z.of_nat n ≤ k → v ≠ start_id →
       walk ADJ allowed_types n start_id v →
       ∃ r, r ∈ res ∧ hit_id r = v ∧ hit_hop r ≤ Z.of_nat n) ∧
    (∀ fuel node t w rest visited results,
       bfs_loop ADJ k allowed_types (S fuel) ((node, k, t, w) :: rest)
         visited results =
       bfs_loop ADJ k allowed_types fuel rest visited
         (if 0 <? k then results ++ [Hit node k t w] else results)).
Proof.
  intros Hk.
  destruct (bfs_trace ADJ k allowed_types start_id)
    as (res & Hb & _ & trace & Hinv & Htr).
  change (hit_of (root start_id)) with (root_hit start_id) in Htr.
  exists res. split; [done|]. split; [|split].
  - intros r Hr.
    destruct (result_elem_trace _ _ _ _ Htr Hr) as (i & x & _ & Hx & ->).
    pose proof (ti_pos _ _ _ _ _ _ Hinv _ _ Hx).
    pose proof (ti_bound _ _ _ _ _ _ Hinv Hk x
                  ltac:(by eapply list_elem_of_lookup_2)).
    simpl. lia.
  - intros n v Hn Hv Hw.
    destruct (trace_complete _ _ _ _ _ Hinv n _ _ Hw (root start_id))
      as (xv & Hxv & Hnode & Hd).
    + eapply list_elem_of_lookup_2, Hinv.
    + done.
    + right. unfold q_depth. simpl. lia.
    + apply list_elem_of_lookup_1 in Hxv as [i Hi].
      destruct i as [|i].
      * rewrite (ti_root _ _ _ _ _ _ Hinv) in Hi. injection Hi as <-.
        by destruct Hv.
      * exists (hit_of xv). split; [|split; [done|]].
        -- apply (list_elem_of_lookup_2 _ i).
           change (res !! i) with ((root_hit start_id :: res) !! S i).
           by rewrite <- Htr, list_lookup_fmap, Hi.
        -- change (hit_hop (hit_of xv)) with (q_depth xv).
           change (q_depth (root start_id)) with 0 in Hd. lia.
  - intros. simpl. unfold q_depth at 1. simpl. by rewrite Z.eqb_refl.
Qed.


(** The depth cutoff is an equality test, so a negative [max_depth] never
    fires it: the traversal below, called with depth -1, returns entries
    at hops 1 and 2. *)
Lemma bfs_negative_depth_unbounded :
  ¬ (∀ res, bfs (build_ADJ ex_edges) 1 (-1) None = Some res →
            ∀ r, r ∈ res → hit_hop r ≤ -1).
Proof.
  intros Hb.
  assert (Hrun : bfs (build_ADJ ex_edges) 1 (-1) None =
    Some [Hit 2 1 (Some "related_to"%string) (Some 1%R);
          Hit 3 2 (Some "related_to"%string) (Some 0.5%R)]) by reflexivity.
  specialize (Hb _ Hrun _ (list_elem_of_here _ _)). simpl in Hb. lia.
Qed.

Lemma bfs_depth_bound_witness :
  ∃ res, bfs (build_ADJ ex_edges) 1 2 None = Some res ∧
         ∀ r, r ∈ res → 1 ≤ hit_hop r ≤ 2.
Proof.
  destruct (bfs_depth_bound (build_ADJ ex_edges) 2 None 1 ltac:(lia))
    as (res & Hres & Hbound & _).
  exists res. split; [exact Hres|exact Hbound].
Defined.

(** ** Closeness *)

(** A list that some call of [bfs] returned. *)
Definition is_traversal_result (res : list hit) : Prop :=
  ∃ ADJ max_depth allowed_types start_id,
    bfs ADJ start_id max_depth allowed_types = Some res.

Lemma traversal_result_wf res :
  is_traversal_result res →
  NoDup (hit_id <$> res) ∧
  ∀ r, r ∈ res → 0 < hit_hop r ∧ is_Some (hit_weight r).
Proof.
  intros (ADJ & max_depth & allowed_types & start_id & Hb).
  destruct (bfs_trace ADJ max_depth allowed_types start_id)
    as (res' & Hb' & _ & trace & Hinv & Htr).
  rewrite Hb in Hb'. injection Hb' as <-.
  change (hit_of (root start_id)) with (root_hit start_id) in Htr.
  split.
  - pose proof (ti_nodup _ _ _ _ _ _ Hinv) as Hn.
    replace (q_node <$> trace) with (hit_id <$> (hit_of <$> trace)) in Hn
      by (rewrite <- list_fmap_compose; done).
    rewrite Htr in Hn. by apply NoDup_cons in Hn as [_ Hn].
  - intros r Hr.
    destruct (result_elem_trace _ _ _ _ Htr Hr) as (i & x & _ & Hx & ->).
    split; [by eapply (ti_pos _ _ _ _ _ _ Hinv)|].
    destruct (ti_parent _ _ _ _ _ _ Hinv _ _ Hx)
      as (j & p & e & _ & _ & _ & _ & _ & _ & Hw & _).
    simpl. rewrite Hw. by eexists.
Qed.

Lemma graph_closeness_found node_id res : ∀ r w,
  NoDup (hit_id <$> res) → r ∈ res → hit_id r = node_id →
  1 + hit_hop r ≠ 0 → hit_weight r = Some w →
  graph_closeness node_id res = Some (1 / IZR (1 + hit_hop r) * w)%R.
Proof.
  induction res as [|h res IH]; intros r w Hnd Hr Hid Hhop Hw.
  - by apply elem_of_nil in Hr.
  - rewrite fmap_cons in Hnd. apply NoDup_cons in Hnd as [Hh Hnd].
    simpl. apply elem_of_cons in Hr as [->|Hr].
    + rewrite decide_True by done. rewrite decide_False by done.
      by rewrite Hw.
    + rewrite decide_False; [by eapply IH|].
      intros Heq. apply Hh, list_elem_of_fmap. exists r.
      split; [congruence|done].
Qed.

Lemma graph_closeness_absent node_id res :
  node_id ∉ (hit_id <$> res) → graph_closeness node_id res = Some 0%R.
Proof.
  induction res as [|h res IH]; intros Hn; [done|].
  rewrite fmap_cons in Hn. apply not_elem_of_cons in Hn as [Hne Hn].
  simpl. rewrite decide_False by done. by apply IH.
Qed.

(** The entries of a traversal with their weights read as floats. *)
Definition reads_as (r : hit) (f : Binary64.hit) : Prop :=
  Binary64.hit_id f = hit_id r ∧ Binary64.hit_hop f = hit_hop r ∧
  Binary64.hit_edge f = hit_edge r ∧
  (is_Some (Binary64.hit_weight f) ↔ is_Some (hit_weight r)).

Lemma reads_as_ids res fres :
  Forall2 reads_as res fres → Binary64.hit_id <$> fres = hit_id <$> res.
Proof.
  induction 1 as [|r f res fres (Hid & _) _ IH]; [done|].
  rewrite !fmap_cons. by f_equal.
Qed.

Lemma graph_closeness_binary64_found node_id fres f w :
  NoDup (Binary64.hit_id <$> fres) → f ∈ fres →
  Binary64.hit_id f = node_id → 1 + Binary64.hit_hop f ≠ 0 →
  Binary64.hit_weight f = Some w →
  Binary64.graph_closeness node_id fres =
    match Binary64.of_int (1 + Binary64.hit_hop f) with
    | Some d => Some (PrimFloat.mul (PrimFloat.div PrimFloat.one d) w)
    | None => None
    end.
Proof.
  induction fres as [|h fres IH]; intros Hnd Hf Hid Hhop Hw.
  - by apply elem_of_nil in Hf.
  - rewrite fmap_cons in Hnd. apply NoDup_cons in Hnd as [Hh Hnd].
    simpl. apply elem_of_cons in Hf as [->|Hf].
    + rewrite decide_True by done. rewrite decide_False by done.
      rewrite Hw. by destruct (Binary64.of_int _).
    + rewrite decide_False; [by apply IH|].
      intros Heq. apply Hh, list_elem_of_fmap. exists f.
      split; [congruence|done].
Qed.

Lemma graph_closeness_binary64_absent node_id fres :
  node_id ∉ (Binary64.hit_id <$> fres) →
  Binary64.graph_closeness node_id fres = Some PrimFloat.zero.
Proof.
  induction fres as [|h fres IH]; intros Hn; [done|].
  rewrite fmap_cons in Hn. apply not_elem_of_cons in Hn as [Hne Hn].
  simpl. rewrite decide_False by done. by apply IH.
Qed.

(** C5, in binary64.  On a list returned by the traversal, its weights
    read as floats, the closeness of a node is the product
    [(1.0 / (1 + hop)) * weight] of the entry with that id (there is one
    at most), two rounded operations, and 0.0 when there is none.  For
    the edges (1->2, "related_to", 1.0) and (2->3, "related_to", 0.5) the
    traversal from 1 with depth 2 gives the two entries of the
    specification's example, and the closeness of node 3 is the float
    [0.5 / 3]. *)
Theorem graph_closeness_binary64 (node_id : Z) (res : list hit)
    (fres : list Binary64.hit) :
  is_traversal_result res → Forall2 reads_as res fres →
  (∀ f, f ∈ fres → Binary64.hit_id f = node_id →
     ∃ w, Binary64.hit_weight f = Some w ∧
          Binary64.graph_closeness node_id fres =
            match Binary64.of_int (1 + Binary64.hit_hop f) with
            | Some d =>
                Some (PrimFloat.mul (PrimFloat.div PrimFloat.one d) w)
            | None => None
            end) ∧
  (node_id ∉ (Binary64.hit_id <$> fres) →
   Binary64.graph_closeness node_id fres = Some PrimFloat.zero) ∧
  bfs (build_ADJ ex_edges) 1 2 None =
    Some [Hit 2 1 (Some "related_to"%string) (Some 1%R);
          Hit 3 2 (Some "related_to"%string) (Some 0.5%R)] ∧
  Forall2 reads_as
    [Hit 2 1 (Some "related_to"%string) (Some 1%R);
     Hit 3 2 (Some "related_to"%string) (Some 0.5%R)]
    Binary64.ex_hits ∧
  Binary64.graph_closeness 3 Binary64.ex_hits
  = Binary64.quotient Binary64.half 2.
Proof.
  intros Hres Hrd. destruct (traversal_result_wf _ Hres) as [Hnd Hwf].
  rewrite <- (reads_as_ids _ _ Hrd) in Hnd.
  split; [|split; [apply graph_closeness_binary64_absent|split;
    [reflexivity|split]]].
  - intros f Hf Hid.
    apply list_elem_of_lookup_1 in Hf as [i Hi].
    destruct (Forall2_lookup_r _ _ _ _ _ Hrd Hi)
      as (r & Hr & _ & Hhop & _ & Hw).
    apply list_elem_of_lookup_2 in Hr, Hi.
    destruct (Hwf r Hr) as [Hpos Hsome].
    apply Hw in Hsome as [w Hwf']. exists w. split; [done|].
    apply graph_closeness_binary64_found; try done. lia.
  - repeat constructor; simpl; by eexists.
  - vm_compute. reflexivity.
Qed.

Lemma graph_closeness_binary64_witness :
  Binary64.graph_closeness 5 Binary64.ex_hits = Some PrimFloat.zero.
Proof.
  destruct (graph_closeness_binary64 5
              [Hit 2 1 (Some "related_to"%string) (Some 1%R);
               Hit 3 2 (Some "related_to"%string) (Some 0.5%R)]
              Binary64.ex_hits) as (_ & Habs & _).
  - exists (build_ADJ ex_edges), 2, None, 1. reflexivity.
  - repeat constructor; simpl; by eexists.
  - apply Habs. unfold Binary64.ex_hits. simpl.
    intros Hin. apply elem_of_cons in Hin as [Hin|Hin]; [discriminate|].
    apply elem_of_cons in Hin as [Hin|Hin]; [discriminate|].
    by apply elem_of_nil in Hin.
Defined.

(** The product of two rounded operations is not the rounded quotient:
    with weight 5.0 at hop 2 the code gives [(1.0 / 3) * 5.0], one unit in
    the last place below [5.0 / 3]. *)
Lemma graph_closeness_not_quotient :
  ∃ g q,
    Binary64.graph_closeness 3 Binary64.ex_heavy_hits = Some g ∧
    Binary64.quotient Binary64.five 2 = Some q ∧
    PrimFloat.ltb g q = true.
Proof.
  eexists _, _. split; [vm_compute; reflexivity|].
  split; [vm_compute; reflexivity|]. vm_compute. reflexivity.
Qed.

(** ** Cosine similarity *)

Section Cosine.
Open Scope R_scope.

(** One score of [cosine_vec_matrix]. *)
Definition cosine (row vector : list R) : R :=
  dot row vector / floor_denom (norm row * norm vector).

Lemma cosine_vec_matrix_Some matrix vector :
  matrix ≠ [] →
  Forall (λ row, length row = length vector) matrix →
  cosine_vec_matrix matrix vector
  = Some ((λ row, cosine row vector) <$> matrix).
Proof.
  intros Hne Hdim. unfold cosine_vec_matrix.
  destruct matrix as [|row0 rows] eqn:Hm; [done|]. rewrite <- Hm in *.
  clear Hne Hm row0 rows.
  replace (forallb _ matrix) with true.
  - f_equal. clear Hdim. induction matrix as [|row m IH]; [done|].
    simpl. f_equal. apply IH.
  - symmetry. apply forallb_forall. intros row Hin.
    apply Nat.eqb_eq. rewrite Forall_forall in Hdim.
    by apply Hdim, list_elem_of_In.
Qed.

Lemma cosine_vec_matrix_None matrix vector :
  ¬ Forall (λ row, length row = length vector) matrix →
  cosine_vec_matrix matrix vector = None.
Proof.
  intros Hdim. unfold cosine_vec_matrix.
  destruct matrix as [|row0 rows] eqn:Hm; [done|]. rewrite <- Hm in *.
  clear Hm row0 rows.
  destruct (forallb _ matrix) eqn:Hf; [|done].
  destruct Hdim. apply Forall_forall. intros row Hin.
  rewrite forallb_forall in Hf. apply Nat.eqb_eq, Hf.
  by apply list_elem_of_In.
Qed.

End Cosine.

(** *** Binary64: zero vectors

    What IEEE-754 arithmetic does with zeros: a finite value times a zero
    is a zero, zeros add up to a zero, the square root of a zero is a
    zero, and a zero divided by 1e-9 is a zero. *)

Module Binary64Facts.
Import Floats Binary64.

Definition sf_zero (x : float) : Prop := ∃ s, Prim2SF x = S754_zero s.

Definition sf_finite (x : float) : Prop :=
  (∃ s, Prim2SF x = S754_zero s) ∨ ∃ s m e, Prim2SF x = S754_finite s m e.

Lemma Prim2SF_zero : Prim2SF zero = S754_zero false.
Proof. reflexivity. Qed.

Lemma is_zero_sf x : is_zero x = true ↔ sf_zero x.
Proof.
  unfold is_zero, sf_zero. rewrite eqb_spec, Prim2SF_zero.
  destruct (Prim2SF x) as [s|s| |s m e]; simpl.
  - split; eauto.
  - split; [by destruct s|by intros [? ?]].
  - split; [done|by intros [? ?]].
  - split; [by destruct s|by intros [? ?]].
Qed.

Lemma is_finite_sf x : is_finite x = true → sf_finite x.
Proof.
  unfold is_finite, is_nan, is_infinity, sf_finite.
  rewrite negb_true_iff, orb_false_iff, negb_false_iff.
  rewrite !eqb_spec, abs_spec. intros [Hn Hi].
  destruct (Prim2SF x) as [s|s| |s m e]; eauto.
  - exfalso. revert Hi. by vm_compute.
  - done.
Qed.

Lemma mul_zero_r x y : sf_finite x → sf_zero y → sf_zero (x * y)%float.
Proof.
  intros [[s Hx]|(s & m & e & Hx)] [t Hy]; unfold sf_zero;
    rewrite mul_spec, Hx, Hy; simpl; eauto.
Qed.

Lemma mul_zero_l x y : sf_zero x → sf_finite y → sf_zero (x * y)%float.
Proof.
  intros [t Hx] [[s Hy]|(s & m & e & Hy)]; unfold sf_zero;
    rewrite mul_spec, Hx, Hy; simpl; eauto.
Qed.

Lemma add_zero x y : sf_zero x → sf_zero y → sf_zero (x + y)%float.
Proof.
  intros [s Hx] [t Hy]. unfold sf_zero. rewrite add_spec, Hx, Hy.
  destruct s, t; simpl; eauto.
Qed.

Lemma sqrt_zero x : sf_zero x → sf_zero (sqrt x).
Proof.
  intros [s Hx]. unfold sf_zero. rewrite sqrt_spec, Hx. simpl. eauto.
Qed.

Lemma floor_denom_of_zero x :
  sf_zero x → floor_denom x = 0x1.12e0be826d695p-30%float.
Proof.
  intros Hx%is_zero_sf. unfold floor_denom. unfold is_zero in Hx.
  change 0%float with zero. by rewrite Hx.
Qed.

Lemma div_zero_eps x :
  sf_zero x → sf_zero (x / 0x1.12e0be826d695p-30)%float.
Proof.
  intros [s Hx]. unfold sf_zero. rewrite div_spec, Hx.
  assert (He : ∃ t m e,
            Prim2SF 0x1.12e0be826d695p-30%float = S754_finite t m e)
    by (vm_compute; eauto).
  destruct He as (t & m & e & ->). simpl. eauto.
Qed.

Lemma fold_dot_zero (l : list (float * float)) acc :
  sf_zero acc → Forall (λ xy, sf_zero (xy.1 * xy.2)%float) l →
  sf_zero (fold_left (λ acc xy, acc + xy.1 * xy.2)%float l acc).
Proof.
  intros Hacc Hl. revert acc Hacc.
  induction Hl as [|xy l Hxy _ IH]; intros acc Hacc; [done|].
  simpl. apply IH. by apply add_zero.
Qed.

Lemma dot_zero_r a b :
  Forall sf_finite a → Forall sf_zero b → sf_zero (dot a b).
Proof.
  intros Ha Hb. unfold dot. apply fold_dot_zero.
  - by exists false.
  - revert b Hb. induction Ha as [|x a Hx _ IH]; intros b Hb; [done|].
    destruct Hb as [|y b Hy Hb]; [done|]. simpl.
    constructor; [|by apply IH]. by apply mul_zero_r.
Qed.

Lemma dot_zero_l a b :
  Forall sf_zero a → Forall sf_finite b → sf_zero (dot a b).
Proof.
  intros Ha Hb. unfold dot. apply fold_dot_zero.
  - by exists false.
  - revert b Hb. induction Ha as [|x a Hx _ IH]; intros b Hb; [done|].
    destruct Hb as [|y b Hy Hb]; [done|]. simpl.
    constructor; [|by apply IH]. by apply mul_zero_l.
Qed.

Lemma floor_denom_not_zero x : (floor_denom x =? zero)%float = false.
Proof.
  unfold floor_denom. change 0%float with zero.
  destruct (x =? zero)%float eqn:Hx; [reflexivity|done].
Qed.

(** One score of [cosine_vec_matrix]. *)
Definition cosine (row vector : list float) : float :=
  (dot row vector / floor_denom (norm row * norm vector))%float.

Lemma cosine_vec_matrix_rows matrix vector :
  matrix ≠ [] →
  Forall (λ row, length row = length vector) matrix →
  cosine_vec_matrix matrix vector
  = Some ((λ row, cosine row vector) <$> matrix).
Proof.
  intros Hne Hdim. unfold cosine_vec_matrix.
  destruct matrix as [|row0 rows] eqn:Hm; [done|]. rewrite <- Hm in *.
  clear Hne Hm row0 rows.
  replace (forallb _ matrix) with true.
  - f_equal. clear Hdim. induction matrix as [|row m IH]; [done|].
    simpl. f_equal. apply IH.
  - symmetry. apply forallb_forall. intros row Hin.
    apply Nat.eqb_eq. rewrite Forall_forall in Hdim.
    by apply Hdim, list_elem_of_In.
Qed.

(** A zero vector on one side, finite entries and a finite norm on the
    other: the score is a zero. *)
Lemma cosine_zero_vector row vector :
  Forall (λ x, is_zero x = true) vector →
  Forall (λ x, is_finite x = true) row →
  is_finite (norm row) = true →
  is_zero (cosine row vector) = true.
Proof.
  intros Hv Hr Hn. apply is_zero_sf. unfold cosine.
  assert (Hvz : Forall sf_zero vector)
    by (eapply Forall_impl; [exact Hv|]; intros x; apply is_zero_sf).
  assert (Hrf : Forall sf_finite row)
    by (eapply Forall_impl; [exact Hr|]; intros x; apply is_finite_sf).
  assert (Hvf : Forall sf_finite vector)
    by (eapply Forall_impl; [exact Hvz|]; intros x; by left).
  rewrite floor_denom_of_zero.
  - apply div_zero_eps. by apply dot_zero_r.
  - apply mul_zero_r; [by apply is_finite_sf|].
    apply sqrt_zero. by apply dot_zero_r.
Qed.

Lemma cosine_zero_row row vector :
  Forall (λ x, is_zero x = true) row →
  Forall (λ x, is_finite x = true) vector →
  is_finite (norm vector) = true →
  is_zero (cosine row vector) = true.
Proof.
  intros Hr Hv Hn. apply is_zero_sf. unfold cosine.
  assert (Hrz : Forall sf_zero row)
    by (eapply Forall_impl; [exact Hr|]; intros x; apply is_zero_sf).
  assert (Hvf : Forall sf_finite vector)
    by (eapply Forall_impl; [exact Hv|]; intros x; apply is_finite_sf).
  assert (Hrf : Forall sf_finite row)
    by (eapply Forall_impl; [exact Hrz|]; intros x; by left).
  rewrite floor_denom_of_zero.
  - apply div_zero_eps. by apply dot_zero_l.
  - apply mul_zero_l; [|by apply is_finite_sf].
    apply sqrt_zero. by apply dot_zero_l.
Qed.
End Binary64Facts.

(** C6, in binary64.  For a matrix with at least one row and a query of
    the rows' length, [cosine_vec_matrix] returns one score per row,
    [dot / denominator], where the denominator is the product of the
    norms, or 1e-9 when that product compares equal to zero, so that it
    never compares equal to zero.  When the query is a zero vector and the
    row has finite entries and a finite norm, the score is a zero, and
    likewise when the row is a zero vector and the query has finite
    entries and a finite norm. *)
Theorem cosine_vec_matrix_binary64 (matrix : list (list PrimFloat.float))
    (vector : list PrimFloat.float) :
  matrix ≠ [] →
  Forall (λ row, length row = length vector) matrix →
  ∃ sims, Binary64.cosine_vec_matrix matrix vector = Some sims ∧
    length sims = length matrix ∧
    ∀ i row, matrix !! i = Some row →
      let denom :=
        Binary64.floor_denom
          (PrimFloat.mul (Binary64.norm row) (Binary64.norm vector)) in
      let s := PrimFloat.div (Binary64.dot row vector) denom in
      sims !! i = Some s ∧
      PrimFloat.eqb denom PrimFloat.zero = false ∧
      (Forall (λ x, PrimFloat.is_zero x = true) vector →
       Forall (λ x, PrimFloat.is_finite x = true) row →
       PrimFloat.is_finite (Binary64.norm row) = true →
       PrimFloat.is_zero s = true) ∧
      (Forall (λ x, PrimFloat.is_zero x = true) row →
       Forall (λ x, PrimFloat.is_finite x = true) vector →
       PrimFloat.is_finite (Binary64.norm vector) = true →
       PrimFloat.is_zero s = true).
Proof.
  intros Hne Hdim.
  rewrite (Binary64Facts.cosine_vec_matrix_rows _ _ Hne Hdim).
  eexists. split; [done|]. split; [by rewrite length_fmap|].
  intros i row Hrow denom s.
  split; [by rewrite list_lookup_fmap, Hrow|].
  split; [apply Binary64Facts.floor_denom_not_zero|]. split.
  - apply Binary64Facts.cosine_zero_vector.
  - apply Binary64Facts.cosine_zero_row.
Qed.

Lemma cosine_vec_matrix_binary64_witness :
  ∃ sims,
    Binary64.cosine_vec_matrix
      [[PrimFloat.one; PrimFloat.zero]; [PrimFloat.zero; PrimFloat.zero]]
      [PrimFloat.one; PrimFloat.zero] = Some sims ∧
    length sims = 2%nat.
Proof.
  destruct (cosine_vec_matrix_binary64
              [[PrimFloat.one; PrimFloat.zero];
               [PrimFloat.zero; PrimFloat.zero]]
              [PrimFloat.one; PrimFloat.zero])
    as (sims & Hs & Hlen & _).
  - discriminate.
  - repeat constructor.
  - exists sims. split; [exact Hs|exact Hlen].
Defined.

(** The guard keeps the scores neither finite nor within [-1, 1].  The
    square of 2^700 overflows, so the norm of the row [2^700] is infinite:
    against the query [2^700] the score is [inf / inf], against the zero
    query the denominator [inf * 0] is NaN, which does not compare equal
    to zero, and the score is [0 / NaN]; both are NaN.  The row
    [0.1, 0.7] against itself scores 1.0000000000000002 by rounding.  The
    square of 1e-162 underflows to zero, so the row [1e-162] has norm 0
    and the denominator 1e-9, and against the query [1e154] it scores
    10. *)
Lemma cosine_vec_matrix_binary64_unbounded :
  (∃ s, Binary64.cosine_vec_matrix [[Binary64.two_pow_700]]
          [Binary64.two_pow_700] = Some [s] ∧
        PrimFloat.is_nan s = true) ∧
  (∃ s, Binary64.cosine_vec_matrix [[Binary64.two_pow_700]]
          [PrimFloat.zero] = Some [s] ∧
        PrimFloat.is_nan s = true) ∧
  (∃ s, Binary64.cosine_vec_matrix
          [[Binary64.tenth; Binary64.seven_tenths]]
          [Binary64.tenth; Binary64.seven_tenths] = Some [s] ∧
        PrimFloat.ltb PrimFloat.one s = true) ∧
  (∃ s, Binary64.cosine_vec_matrix [[Binary64.ten_pow_m162]]
          [Binary64.ten_pow_154] = Some [s] ∧
        PrimFloat.eqb s Binary64.ten = true).
Proof.
  repeat split; eexists; (split; [vm_compute; reflexivity|reflexivity]).
Qed.

(** ** Sorting *)

#[local] Instance R_eq_dec : EqDecision R := Req_dec_T.

Section SortFacts.
Context {A : Type} (key : A → R).

(** Keys do not increase along the list. *)
Definition desc (l : list A) : Prop :=
  ∀ i j a b, (i ≤ j)%nat → l !! i = Some a → l !! j = Some b →
             (key b <= key a)%R.

Lemma desc_nil : desc [].
Proof. intros i j a b _ Ha. done. Qed.

Lemma desc_cons x l :
  desc (x :: l) ↔ (∀ b, b ∈ l → (key b <= key x)%R) ∧ desc l.
Proof.
  split.
  - intros Hd. split.
    + intros b [j Hj]%list_elem_of_lookup_1.
      apply (Hd 0%nat (S j) x b); [lia|done..].
    + intros i j a b Hij Ha Hb. apply (Hd (S i) (S j)); [lia|done..].
  - intros [Hx Hd] [|i] [|j] a b Hij Ha Hb; simpl in *.
    + injection Ha as <-. injection Hb as <-. lra.
    + injection Ha as <-. apply Hx. by eapply list_elem_of_lookup_2.
    + lia.
    + apply (Hd i j); [lia|done..].
Qed.

Lemma insert_desc_Permutation x l : insert_desc key x l ≡ₚ x :: l.
Proof.
  induction l as [|y l IH]; simpl; [done|].
  destruct (Rlt_dec _ _); [|done].
  rewrite IH. apply Permutation_swap.
Qed.

Lemma sort_desc_Permutation l : sort_desc key l ≡ₚ l.
Proof.
  induction l as [|x l IH]; simpl; [done|].
  rewrite insert_desc_Permutation. by rewrite IH.
Qed.

Lemma insert_desc_sorted x l : desc l → desc (insert_desc key x l).
Proof.
  induction l as [|y l IH]; intros Hd; simpl.
  - apply desc_cons. split; [by intros b ?%elem_of_nil|apply desc_nil].
  - apply desc_cons in Hd as [Hy Hd].
    destruct (Rlt_dec (key x) (key y)) as [Hlt|Hge].
    + apply desc_cons. split; [|by apply IH].
      intros b Hb. rewrite insert_desc_Permutation in Hb.
      apply elem_of_cons in Hb as [->|Hb]; [lra|by apply Hy].
    + apply desc_cons. split; [|by apply desc_cons].
      intros b [->|Hb]%elem_of_cons; [lra|].
      specialize (Hy b Hb). lra.
Qed.

Lemma sort_desc_sorted l : desc (sort_desc key l).
Proof.
  induction l as [|x l IH]; simpl; [apply desc_nil|].
  by apply insert_desc_sorted.
Qed.

(** A list that is already in order is left as it is. *)
Lemma sort_desc_id l : desc l → sort_desc key l = l.
Proof.
  induction l as [|x l IH]; intros Hd; simpl; [done|].
  apply desc_cons in Hd as [Hx Hd]. rewrite IH by done.
  destruct l as [|y l]; simpl; [done|].
  destruct (Rlt_dec (key x) (key y)) as [Hlt|]; [|done].
  specialize (Hx y (list_elem_of_here _ _)). lra.
Qed.

(** Stability: entries with one key keep their relative order. *)
Lemma insert_desc_stable v x l :
  filter (λ a, key a = v) (insert_desc key x l)
  = filter (λ a, key a = v) (x :: l).
Proof.
  induction l as [|y l IH]; simpl; [done|].
  destruct (Rlt_dec (key x) (key y)) as [Hlt|]; [|done].
  destruct (decide (key y = v)) as [Hy|Hy].
  - rewrite (filter_cons_True _ y) by done.
    rewrite IH. rewrite (filter_cons_False _ x) by lra.
    rewrite (filter_cons_False _ x) by lra.
    by rewrite (filter_cons_True _ y).
  - rewrite (filter_cons_False _ y) by done. rewrite IH.
    destruct (decide (key x = v)).
    + rewrite !(filter_cons_True _ x) by done.
      by rewrite (filter_cons_False _ y).
    + rewrite !(filter_cons_False _ x) by done.
      by rewrite (filter_cons_False _ y).
Qed.

Lemma sort_desc_stable v l :
  filter (λ a, key a = v) (sort_desc key l) = filter (λ a, key a = v) l.
Proof.
  induction l as [|x l IH]; simpl; [done|].
  rewrite insert_desc_stable.
  destruct (decide (key x = v)).
  - rewrite !(filter_cons_True _ x) by done. by rewrite IH.
  - rewrite !(filter_cons_False _ x) by done. by rewrite IH.
Qed.
End SortFacts.

Lemma insert_desc_ext {A} (key key' : A → R) x l :
  key x = key' x → (∀ a, a ∈ l → key a = key' a) →
  insert_desc key x l = insert_desc key' x l.
Proof.
  intros Hx. induction l as [|y l IH]; intros Hl; simpl; [done|].
  rewrite Hx, (Hl y) by left.
  rewrite IH by (intros a Ha; apply Hl; by right). done.
Qed.

Lemma sort_desc_ext {A} (key key' : A → R) l :
  (∀ a, a ∈ l → key a = key' a) → sort_desc key l = sort_desc key' l.
Proof.
  induction l as [|x l IH]; intros Hk; simpl; [done|].
  rewrite IH by (intros a Ha; apply Hk; by right).
  apply insert_desc_ext; [apply Hk; left|].
  intros a Ha. apply Hk. right.
  by rewrite <- (sort_desc_Permutation key' l).
Qed.

Lemma desc_ext {A} (key key' : A → R) l :
  (∀ a, a ∈ l → key a = key' a) → desc key l → desc key' l.
Proof.
  intros Hk Hd i j a b Hij Ha Hb.
  rewrite <- !Hk by by eapply list_elem_of_lookup_2. by eapply Hd.
Qed.

Lemma desc_fmap {A B} (key : B → R) (f : A → B) l :
  desc (key ∘ f) l → desc key (f <$> l).
Proof.
  intros Hd i j a b Hij Ha Hb. rewrite list_lookup_fmap in Ha, Hb.
  apply fmap_Some in Ha as (a' & Ha & ->).
  apply fmap_Some in Hb as (b' & Hb & ->).
  by apply (Hd i j).
Qed.


(** A sorting instance for [np.argsort]: descending insertion sort of the
    indices, reversed.  The examples on concrete data below use it. *)
Definition insertion_argsort (sims : list R) : list nat :=
  reverse (sort_desc (λ i, default 0%R (sims !! i)) (seq 0 (length sims))).

Lemma insertion_argsort_spec sims : is_argsort sims (insertion_argsort sims).
Proof.
  unfold is_argsort, insertion_argsort. split.
  - by rewrite reverse_Permutation, sort_desc_Permutation.
  - intros i j a b x y Hij Ha Hb Hx Hy.
    apply reverse_lookup_Some in Ha as [Ha Hi].
    apply reverse_lookup_Some in Hb as [Hb Hj].
    set (l := sort_desc _ _) in *.
    assert (Hd : (default 0 (sims !! a) <= default 0 (sims !! b))%R).
    { apply (sort_desc_sorted (λ i, default 0%R (sims !! i))
               (seq 0 (length sims)) (length l - S j)%nat
               (length l - S i)%nat b a); [lia|done..]. }
    by rewrite Hx, Hy in Hd.
Qed.

#[local] Instance insertion_ArgSort : ArgSort :=
  {| argsort := insertion_argsort; argsort_spec := insertion_argsort_spec |}.

(** ** Vector search *)

(** Picking entries of a list by index. *)
Section Select.
Context {B : Type}.
Implicit Types (l res : list B) (idxs : list nat).

Definition selects l idxs res : Prop :=
  Forall2 (λ i r, l !! i = Some r) idxs res.

Lemma selects_exists l idxs :
  Forall (λ i, (i < length l)%nat) idxs → ∃ res, selects l idxs res.
Proof.
  induction 1 as [|i idxs Hi _ [res IH]]; [exists []; constructor|].
  destruct (lookup_lt_is_Some_2 l i Hi) as [r Hr].
  exists (r :: res). by constructor.
Qed.

Lemma selects_mapM l idxs res :
  selects l idxs res → mapM (λ i, l !! i) idxs = Some res.
Proof. intros Hs. by apply mapM_Some. Qed.

Lemma selects_Permutation l idxs idxs' res :
  selects l idxs res → idxs ≡ₚ idxs' →
  ∃ res', res ≡ₚ res' ∧ selects l idxs' res'.
Proof.
  intros Hs Hp. revert res Hs.
  induction Hp as [|i a b Hp IH|i j a|a b c Hab IH1 Hbc IH2];
    intros res Hs.
  - apply Forall2_nil_inv_l in Hs as ->. exists []. split; [done|constructor].
  - apply Forall2_cons_inv_l in Hs as (r & res0 & Hr & Hs & ->).
    destruct (IH _ Hs) as (res' & ? & ?).
    exists (r :: res'). split; [by constructor|by constructor].
  - apply Forall2_cons_inv_l in Hs as (r1 & res0 & Hr1 & Hs & ->).
    apply Forall2_cons_inv_l in Hs as (r2 & res1 & Hr2 & Hs & ->).
    exists (r2 :: r1 :: res1). split; [apply Permutation_swap|].
    by repeat constructor.
  - destruct (IH1 _ Hs) as (res1 & ? & Hs1).
    destruct (IH2 _ Hs1) as (res2 & ? & Hs2).
    exists res2. split; [by etrans|done].
Qed.

Lemma selects_seq l res : selects l (seq 0 (length l)) res → res = l.
Proof.
  intros Hs. pose proof (Forall2_length _ _ _ Hs) as Hlen.
  rewrite length_seq in Hlen.
  apply list_eq. intros i.
  destruct (decide (i < length l)%nat) as [Hi|Hi].
  - pose proof (lookup_seq_lt 0 (length l) i Hi) as Hi'.
    destruct (Forall2_lookup_l _ _ _ _ _ Hs Hi') as (r & Hr & Hl).
    by rewrite Hr, <- Hl.
  - rewrite !lookup_ge_None_2 by lia. done.
Qed.

(** Picking along a permutation of all indices gives a permutation of
    the list. *)
Lemma selects_all l idxs res :
  selects l idxs res → idxs ≡ₚ seq 0 (length l) → res ≡ₚ l.
Proof.
  intros Hs Hp.
  destruct (selects_Permutation _ _ _ _ Hs Hp) as (res' & ? & Hs').
  apply selects_seq in Hs'. by subst.
Qed.

End Select.

Section SearchFacts.
Context `{ArgSort}.
Variable embed_text : string → list R.

(** The candidate pool: the nodes that pass the metadata filter. *)
Definition candidates (nodes : list node)
    (metadata_filter : option (string * jvalue)) : list node :=
  match metadata_filter with
  | None => nodes
  | Some (key, value) => filter (λ n, metadata_get n key = value) nodes
  end.

(** A candidate with its similarity to the query vector. *)
Definition vhit_of (q : list R) (n : node) : vhit :=
  VHit (n_id n) (n_name n) (cosine (n_embedding n) q).

Definition scored (q : list R) (pool : list node) : list vhit :=
  vhit_of q <$> pool.

Lemma np_array_Some (rows : list (list R)) d :
  Forall (λ r, length r = d) rows → np_array rows = Some rows.
Proof.
  intros Hd. unfold np_array. destruct rows as [|r rows]; [done|].
  replace (forallb _ _) with true; [done|].
  symmetry. apply forallb_forall. intros r' Hin. apply Nat.eqb_eq.
  rewrite Forall_forall in Hd.
  rewrite (Hd r') by by apply list_elem_of_In.
  symmetry. apply Hd, list_elem_of_here.
Qed.

(** The index order [search_vector] ranks by: [np.argsort(sims)[::-1]]. *)
Lemma ranking_order (sims : list R) :
  reverse (argsort sims) ≡ₚ seq 0 (length sims) ∧
  ∀ i j a b x y, (i ≤ j)%nat →
    reverse (argsort sims) !! i = Some a →
    reverse (argsort sims) !! j = Some b →
    sims !! a = Some x → sims !! b = Some y → (y <= x)%R.
Proof.
  destruct (argsort_spec sims) as [Hp Hs]. split.
  - by rewrite reverse_Permutation.
  - intros i j a b x y Hij [Ha Hi]%reverse_lookup_Some
      [Hb Hj]%reverse_lookup_Some Hx Hy.
    eapply (Hs (length (argsort sims) - S j)%nat
               (length (argsort sims) - S i)%nat b a); [lia|done..].
Qed.

(** Steps 3 and 4 of [search_vector] on a pool whose embeddings have the
    dimension of the query. *)
Lemma rank_selects (pool : list node) (q : list R) (k : Z) :
  pool ≠ [] →
  Forall (λ n, length (n_embedding n) = length q) pool →
  let sims := (λ n, cosine (n_embedding n) q) <$> pool in
  ∃ res,
    (sims' ← cosine_vec_matrix (n_embedding <$> pool) q;
     mapM (λ idx,
             node ← pool !! idx;
             s ← sims' !! idx;
             Some (VHit (n_id node) (n_name node) s))
          (slice_to (Z.min k (Z.of_nat (length pool)))
                    (reverse (argsort sims')))) = Some res ∧
    selects (scored q pool)
      (slice_to (Z.min k (Z.of_nat (length pool)))
                (reverse (argsort sims))) res.
Proof.
  intros Hne Hdim sims.
  rewrite cosine_vec_matrix_Some;
    [|by destruct pool
     |apply Forall_fmap; eapply Forall_impl; [exact Hdim|done]].
  rewrite <- list_fmap_compose. change (_ <$> pool) with sims. simpl.
  set (idxs := slice_to _ _).
  assert (Hin : Forall (λ i, (i < length (scored q pool))%nat) idxs).
  { destruct (ranking_order sims) as [Hp _].
    apply Forall_forall. intros i Hi.
    assert (Hi' : i ∈ reverse (argsort sims)).
    { subst idxs. unfold slice_to in Hi.
      destruct (_ <? 0); by apply elem_of_take in Hi as (? & ?%list_elem_of_lookup_2 & _). }
    rewrite Hp in Hi'. apply list_elem_of_lookup_1 in Hi' as [j Hj].
    apply lookup_seq in Hj as [-> Hj].
    unfold scored, sims in *. rewrite !length_fmap in *. lia. }
  destruct (selects_exists _ _ Hin) as [res Hres].
  exists res. split; [|done].
  rewrite <- (selects_mapM _ _ _ Hres). apply mapM_ext. intros idx.
  unfold scored, sims. rewrite !list_lookup_fmap.
  by destruct (pool !! idx).
Qed.

Lemma search_vector_selects (nodes : list node) (query : string)
    (top_k : Z) (metadata_filter : option (string * jvalue)) :
  Forall (λ n, length (n_embedding n) = length (embed_text query)) nodes →
  let q := embed_text query in
  let pool := candidates nodes metadata_filter in
  let sims := (λ n, cosine (n_embedding n) q) <$> pool in
  ∃ res,
    search_vector embed_text (load_nodes nodes) query top_k metadata_filter
      = Some res ∧
    selects (scored q pool)
      (slice_to (Z.min top_k (Z.of_nat (length pool)))
                (reverse (argsort sims))) res.
Proof.
  intros Hdim q pool sims.
  assert (Hemp : ∀ k, slice_to k (reverse (argsort [])) = []).
  { intros k. destruct (argsort_spec []) as [Hp _].
    apply Permutation_nil_r in Hp. rewrite Hp. unfold slice_to.
    change (reverse []) with (@nil nat).
    by destruct (k <? 0); rewrite take_nil. }
  unfold search_vector, load_nodes.
  rewrite (np_array_Some _ (length q))
    by (apply Forall_fmap; eapply Forall_impl; [exact Hdim|done]).
  simpl. case_bool_decide as Hlen.
  { apply length_zero_iff_nil in Hlen. subst nodes.
    exists []. split; [done|].
    assert (pool = []) as -> by (subst pool; by destruct metadata_filter as [[??]|]).
    subst sims. simpl. rewrite Hemp. constructor. }
  destruct metadata_filter as [[key value]|]; simpl in pool.
  - destruct pool as [|n pool'] eqn:Hpool.
    + subst pool. rewrite Hpool. exists []. split; [done|].
      subst sims. simpl. rewrite Hemp. constructor.
    + subst pool. rewrite Hpool, <- Hpool.
      assert (Hdim' : Forall (λ n, length (n_embedding n) = length q)
                        (filter (λ n, metadata_get n key = value) nodes)).
      { apply Forall_forall. intros m [_ Hm]%list_elem_of_filter.
        rewrite Forall_forall in Hdim. by apply Hdim. }
      rewrite (np_array_Some _ (length q))
        by (apply Forall_fmap; eapply Forall_impl; [exact Hdim'|done]).
      simpl. subst sims. rewrite <- Hpool.
      apply (rank_selects _ q top_k); [by rewrite Hpool|exact Hdim'].
  - apply (rank_selects nodes q top_k); [|exact Hdim].
    intros ->. by apply Hlen.
Qed.

Lemma scored_lookup_sims q pool i a :
  scored q pool !! i = Some a →
  ((λ n, cosine (n_embedding n) q) <$> pool) !! i = Some (vector_score a).
Proof.
  unfold scored. rewrite !list_lookup_fmap.
  destruct (pool !! i); simpl; [|done]. by intros [= <-].
Qed.

(** Splitting the ranking order in two: the first part is in descending
    order of score, nothing in the second part scores higher, and the
    two together are all the candidates. *)
Lemma selects_ranked q pool idxs1 idxs2 res1 res2 :
  reverse (argsort ((λ n, cosine (n_embedding n) q) <$> pool))
    = idxs1 ++ idxs2 →
  selects (scored q pool) idxs1 res1 →
  selects (scored q pool) idxs2 res2 →
  desc vector_score res1 ∧
  (∀ a b, a ∈ res1 → b ∈ res2 → (vector_score b <= vector_score a)%R) ∧
  res1 ++ res2 ≡ₚ scored q pool.
Proof.
  intros Hsplit Hs1 Hs2.
  set (sims := (λ n, cosine (n_embedding n) q) <$> pool) in *.
  destruct (ranking_order sims) as [Hp Hord]. rewrite Hsplit in Hp, Hord.
  split; [|split].
  - intros i j a b Hij Ha Hb.
    destruct (Forall2_lookup_r _ _ _ _ _ Hs1 Ha) as (ia & Hia & Hsa).
    destruct (Forall2_lookup_r _ _ _ _ _ Hs1 Hb) as (ib & Hib & Hsb).
    apply (Hord i j ia ib); [done| | |by apply scored_lookup_sims..];
      by apply lookup_app_l_Some.
  - intros a b [i Ha]%list_elem_of_lookup_1 [j Hb]%list_elem_of_lookup_1.
    destruct (Forall2_lookup_r _ _ _ _ _ Hs1 Ha) as (ia & Hia & Hsa).
    destruct (Forall2_lookup_r _ _ _ _ _ Hs2 Hb) as (ib & Hib & Hsb).
    pose proof (lookup_lt_Some _ _ _ Hia).
    apply (Hord i (length idxs1 + j)%nat ia ib);
      [lia| | |by apply scored_lookup_sims..].
    + by apply lookup_app_l_Some.
    + by rewrite lookup_app_r, Nat.add_comm, Nat.add_sub by lia.
  - apply (selects_all _ (idxs1 ++ idxs2)).
    + by apply Forall2_app.
    + unfold scored. rewrite length_fmap.
      unfold sims in Hp. by rewrite length_fmap in Hp.
Qed.

Lemma ranking_length q pool :
  length (reverse (argsort ((λ n, cosine (n_embedding n) q) <$> pool)))
  = length pool.
Proof.
  destruct (ranking_order ((λ n, cosine (n_embedding n) q) <$> pool))
    as [Hp _].
  apply Permutation_length in Hp.
  by rewrite length_seq, length_fmap in Hp.
Qed.

Lemma ranking_valid q pool i :
  i ∈ reverse (argsort ((λ n, cosine (n_embedding n) q) <$> pool)) →
  (i < length (scored q pool))%nat.
Proof.
  destruct (ranking_order ((λ n, cosine (n_embedding n) q) <$> pool))
    as [Hp _].
  rewrite Hp. intros [j Hj]%list_elem_of_lookup_1.
  apply lookup_seq in Hj as [-> Hj].
  unfold scored. rewrite !length_fmap in *. lia.
Qed.
(** The number of entries returned, as a slice of the index range. *)
Lemma search_vector_length (nodes : list node) (query : string)
    (top_k : Z) (metadata_filter : option (string * jvalue)) :
  Forall (λ n, length (n_embedding n) = length (embed_text query)) nodes →
  let n := length (candidates nodes metadata_filter) in
  ∃ res,
    search_vector embed_text (load_nodes nodes) query top_k metadata_filter
      = Some res ∧
    length res = length (slice_to (Z.min top_k (Z.of_nat n)) (seq 0 n)).
Proof.
  intros Hdim n.
  destruct (search_vector_selects nodes query top_k metadata_filter Hdim)
    as (res & Hrun & Hsel).
  exists res. split; [done|].
  rewrite <- (Forall2_length _ _ _ Hsel). unfold slice_to.
  destruct (_ <? 0); by rewrite !length_take, ranking_length, !length_seq.
Qed.
End SearchFacts.

(** C7, for a non-negative [top_k].  When the embeddings of the nodes have
    the dimension of the query embedding, [search_vector] returns a list
    of exactly [min(top_k, candidate_count)] entries, in descending order
    of score; they are candidates with their cosine scores, and no
    candidate left out scores higher than one returned; when [top_k] is at
    least the size of the pool, the list is the whole pool. *)
Theorem search_vector_top_k `{ArgSort} (embed_text : string → list R)
    (nodes : list node) (query : string) (top_k : Z)
    (metadata_filter : option (string * jvalue)) :
  0 ≤ top_k →
  Forall (λ n, length (n_embedding n) = length (embed_text query)) nodes →
  let pool := candidates nodes metadata_filter in
  let all := scored (embed_text query) pool in
  ∃ res rest,
    search_vector embed_text (load_nodes nodes) query top_k metadata_filter
      = Some res ∧
    Z.of_nat (length res) = Z.min top_k (Z.of_nat (length pool)) ∧
    desc vector_score res ∧
    res ++ rest ≡ₚ all ∧
    (∀ a b, a ∈ res → b ∈ rest → (vector_score b <= vector_score a)%R) ∧
    (Z.of_nat (length pool) ≤ top_k → res ≡ₚ all).
Proof.
  intros Hk Hdim pool all.
  destruct (search_vector_selects embed_text nodes query top_k
              metadata_filter Hdim) as (res & Hrun & Hsel).
  fold pool in Hsel.
  set (q := embed_text query) in *.
  set (order := reverse (argsort ((λ n, cosine (n_embedding n) q) <$> pool)))
    in *.
  set (K := Z.to_nat (Z.min top_k (Z.of_nat (length pool)))).
  assert (Hslice : slice_to (Z.min top_k (Z.of_nat (length pool))) order
                   = take K order).
  { unfold slice_to. by rewrite (proj2 (Z.ltb_ge _ _)) by lia. }
  rewrite Hslice in Hsel.
  assert (Hlen : length order = length pool) by apply ranking_length.
  destruct (selects_exists all (drop K order)) as [rest Hrest].
  { apply Forall_forall. intros i Hi. apply ranking_valid.
    apply list_elem_of_lookup_1 in Hi as [j Hj]. rewrite lookup_drop in Hj.
    by eapply list_elem_of_lookup_2. }
  destruct (selects_ranked q pool (take K order) (drop K order) res rest)
    as (Hdesc & Hcross & Hperm); [by rewrite take_drop|done..|].
  exists res, rest. split; [done|]. split; [|split; [done|]].
  - rewrite <- (Forall2_length _ _ _ Hsel), length_take, Hlen. lia.
  - split; [done|]. split; [done|].
    intros Hsat. assert (K = length order) as HK by lia.
    rewrite HK, drop_all in Hrest.
    apply Forall2_nil_inv_l in Hrest as ->.
    by rewrite app_nil_r in Hperm.
Qed.

Lemma search_vector_top_k_witness :
  ∃ res, search_vector ex_embed (load_nodes ex_nodes) "q" 5 None = Some res ∧
         length res = 3%nat.
Proof.
  destruct (search_vector_top_k ex_embed ex_nodes "q" 5 None)
    as (res & rest & Hrun & Hlen & _).
  - lia.
  - repeat constructor.
  - exists res. split; [exact Hrun|]. simpl in Hlen. lia.
Defined.

(** A negative [top_k] is a slice from the end: with three candidates and
    [top_k = -1] two entries come back, which is not [min(-1, 3)]. *)
Lemma search_vector_negative_top_k :
  ∃ res, search_vector ex_embed (load_nodes ex_nodes) "q" (-1) None
           = Some res ∧
         length res = 2%nat ∧
         Z.of_nat (length res)
           ≠ Z.min (-1) (Z.of_nat (length (candidates ex_nodes None))).
Proof.
  destruct (search_vector_length ex_embed ex_nodes "q" (-1) None)
    as (res & Hrun & Hlen); [repeat constructor|].
  exists res. split; [exact Hrun|]. simpl in Hlen.
  split; [exact Hlen|]. rewrite Hlen. simpl. lia.
Qed.

(** ** Fusion *)

Section DictFacts.
Context {V : Type}.
Implicit Types (d kvs : list (Z * V)).

Lemma dict_set_fresh k v d : k ∉ d.*1 → dict_set k v d = d ++ [(k, v)].
Proof.
  induction d as [|[k' v'] d IH]; intros Hk; simpl; [done|].
  rewrite fmap_cons in Hk. apply not_elem_of_cons in Hk as [Hne Hk].
  rewrite decide_False by done. by rewrite IH.
Qed.

Lemma dict_of_NoDup_aux kvs : ∀ d,
  NoDup ((d ++ kvs).*1) →
  fold_left (λ d kv, dict_set kv.1 kv.2 d) kvs d = d ++ kvs.
Proof.
  induction kvs as [|[k v] kvs IH]; intros d Hnd; simpl.
  - by rewrite app_nil_r.
  - rewrite dict_set_fresh.
    + rewrite IH; rewrite <- app_assoc; done.
    + rewrite fmap_app in Hnd. apply NoDup_app in Hnd as (_ & Hd & _).
      intros Hk. apply (Hd k Hk). rewrite fmap_cons. left.
Qed.

(** Building a dict from pairs with distinct keys keeps the pairs. *)
Lemma dict_of_NoDup kvs : NoDup (kvs.*1) → dict_of kvs = kvs.
Proof. intros Hnd. by apply (dict_of_NoDup_aux kvs []). Qed.

Lemma dict_get_fmap {X} (k : X → Z) (f : Z → V) (l : list X) x :
  x ∈ l → dict_get ((λ y, (k y, f (k y))) <$> l) (k x) = Some (f (k x)).
Proof.
  induction l as [|y l IH]; intros Hx; [by apply elem_of_nil in Hx|].
  rewrite fmap_cons. simpl. destruct (decide (k y = k x)) as [->|Hne].
  - done.
  - apply elem_of_cons in Hx as [->|Hx]; [done|by apply IH].
Qed.
End DictFacts.

Lemma mapM_total {X Y} (f : X → option Y) (g : X → Y) (l : list X) :
  (∀ x, x ∈ l → f x = Some (g x)) → mapM f l = Some (g <$> l).
Proof.
  intros Hf. apply mapM_Some, Forall2_fmap_r, Forall_Forall2_diag.
  by apply Forall_forall.
Qed.

Lemma graph_closeness_total node_id visited :
  is_traversal_result visited → is_Some (graph_closeness node_id visited).
Proof.
  intros Hres. destruct (traversal_result_wf _ Hres) as [Hnd Hwf].
  destruct (decide (node_id ∈ hit_id <$> visited)) as [Hin|Hout].
  - apply list_elem_of_fmap in Hin as (r & -> & Hr).
    destruct (Hwf r Hr) as [Hhop [w Hw]].
    rewrite (graph_closeness_found _ visited r w) by (done || lia).
    by eexists.
  - rewrite graph_closeness_absent by done. by eexists.
Qed.

Lemma filter_fmap_commute {X Y} (f : X → Y) (P : Y → Prop)
    `{∀ y, Decision (P y)} (l : list X) :
  filter P (f <$> l) = f <$> filter (P ∘ f) l.
Proof.
  induction l as [|x l IH]; [done|]. rewrite fmap_cons.
  destruct (decide (P (f x))).
  - rewrite filter_cons_True by done.
    rewrite (filter_cons_True (P ∘ f)) by done. by rewrite fmap_cons, IH.
  - rewrite filter_cons_False by done.
    by rewrite (filter_cons_False (P ∘ f)) by done.
Qed.

Section FusionFacts.
Context `{ArgSort}.
Variable embed_text : string → list R.
Variable ADJ : gmap Z (list adj_entry).
Variable HNODES : list node.

(** The closeness of a node in a traversal result, 0.0 standing in where
    [graph_closeness] would raise. *)
Definition closeness_of (visited : list hit) (node_id : Z) : R :=
  default 0%R (graph_closeness node_id visited).

(** The merged entry of one vector candidate. *)
Definition fuse (alpha : R) (visited : list hit) (v : vhit) : result :=
  let g := closeness_of visited (v_id v) in
  Result (v_id v)
    (next_or_none (λ n, bool_decide (n_id n = v_id v)) n_name HNODES)
    (next_or_none (λ n, bool_decide (n_id n = v_id v)) n_text HNODES)
    (vector_score v) g (alpha * vector_score v + (1 - alpha) * g)%R
    (next_or_none (λ item, bool_decide (hit_id item = v_id v))
                  hit_hop visited).

(** A vector search that returns something did not raise, so the
    embeddings had the dimension of the query. *)
Lemma search_vector_dims nodes query top_k vres :
  search_vector embed_text (load_nodes nodes) query top_k None = Some vres →
  vres ≠ [] →
  Forall (λ n, length (n_embedding n) = length (embed_text query)) nodes.
Proof.
  unfold search_vector, load_nodes. intros Hrun Hne.
  destruct (np_array (n_embedding <$> nodes)) as [m|] eqn:Hm;
    simpl in Hrun; [|by injection Hrun as <-].
  case_bool_decide; [by injection Hrun as <-|].
  assert (m = (n_embedding <$> nodes)) as ->.
  { unfold np_array in Hm. destruct (n_embedding <$> nodes); [congruence|].
    destruct (forallb _ _); congruence. }
  destruct (cosine_vec_matrix _ _) as [sims|] eqn:Hc; [|done].
  unfold cosine_vec_matrix in Hc.
  destruct (n_embedding <$> nodes) as [|row rows] eqn:Hrows; [done|].
  rewrite <- Hrows in Hc.
  destruct (forallb _ _) eqn:Hf; [|done].
  rewrite forallb_forall in Hf. apply Forall_forall. intros n Hn.
  apply Nat.eqb_eq, Hf, list_elem_of_In, list_elem_of_fmap. eauto.
Qed.

(** What a successful vector search returns: distinct candidates, in
    descending order of score, at most [top_k] of them when [top_k] is
    not negative. *)
Lemma search_vector_shape nodes query top_k vres :
  NoDup (n_id <$> nodes) →
  search_vector embed_text (load_nodes nodes) query top_k None = Some vres →
  vres ≠ [] →
  NoDup (v_id <$> vres) ∧ desc vector_score vres ∧
  (0 ≤ top_k → Z.of_nat (length vres) ≤ top_k) ∧
  length vres =
    length (slice_to (Z.min top_k (Z.of_nat (length nodes)))
                     (seq 0 (length nodes))).
Proof.
  intros Hids Hrun Hne.
  pose proof (search_vector_dims _ _ _ _ Hrun Hne) as Hdim.
  destruct (search_vector_selects embed_text nodes query top_k None Hdim)
    as (res & Hrun' & Hsel).
  rewrite Hrun in Hrun'. injection Hrun' as <-. simpl in Hsel.
  set (q := embed_text query) in *.
  set (order :=
    reverse (argsort ((λ n, cosine (n_embedding n) q) <$> nodes))) in *.
  set (k := Z.min top_k (Z.of_nat (length nodes))) in *.
  assert (Hlen : length order = length nodes) by apply ranking_length.
  assert (Htake : ∃ K, slice_to k order = take K order ∧
                       slice_to k (seq 0 (length nodes))
                         = take K (seq 0 (length nodes)) ∧
                       (0 ≤ top_k → Z.of_nat K ≤ top_k)).
  { unfold slice_to. rewrite Hlen, length_seq.
    destruct (k <? 0) eqn:Hk; eexists; (split; [done|]); (split; [done|]).
    - apply Z.ltb_lt in Hk. lia.
    - lia. }
  destruct Htake as (K & Htake & Htake' & HK). rewrite Htake in Hsel.
  rewrite Htake'.
  destruct (selects_exists (scored q nodes) (drop K order)) as [rest Hrest].
  { apply Forall_forall. intros i Hi. apply ranking_valid.
    apply list_elem_of_lookup_1 in Hi as [j Hj].
    rewrite lookup_drop in Hj. by eapply list_elem_of_lookup_2. }
  destruct (selects_ranked q nodes (take K order) (drop K order) vres rest)
    as (Hdesc & _ & Hperm); [by rewrite take_drop|done..|].
  split; [|split; [done|split]].
  - assert (Hnd : NoDup (v_id <$> (vres ++ rest))).
    { rewrite Hperm. unfold scored. rewrite <- list_fmap_compose.
      exact Hids. }
    rewrite fmap_app in Hnd. by apply NoDup_app in Hnd as (? & _).
  - intros Hk. specialize (HK Hk).
    rewrite <- (Forall2_length _ _ _ Hsel), length_take. lia.
  - rewrite <- (Forall2_length _ _ _ Hsel), !length_take, length_seq. lia.
Qed.

(** [hybrid_search] after a vector search that found something: a
    traversal from the anchor, one merged entry per candidate, the stable
    descending sort on [final_score], and the final slice. *)
Lemma hybrid_search_fused nodes query top_k focus_id bfs_depth alpha
    vres best :
  NoDup (n_id <$> nodes) →
  search_vector embed_text (load_nodes nodes) query top_k None = Some vres →
  head vres = Some best →
  ∃ visited,
    bfs ADJ (default (v_id best) focus_id) bfs_depth None = Some visited ∧
    hybrid_search embed_text ADJ (load_nodes nodes) HNODES query top_k
      focus_id bfs_depth alpha
    = Some (slice_to top_k
              (sort_desc final_score (fuse alpha visited <$> vres))).
Proof.
  intros Hids Hrun Hbest.
  assert (Hne : vres ≠ []) by (intros ->; done).
  destruct (search_vector_shape _ _ _ _ Hids Hrun Hne) as (Hnd & _).
  destruct (bfs_trace ADJ bfs_depth None (default (v_id best) focus_id))
    as (visited & Hbfs & _).
  assert (Hres : is_traversal_result visited) by (repeat eexists; done).
  exists visited. split; [done|].
  unfold hybrid_search. rewrite Hrun. simpl.
  destruct vres as [|b vres0] eqn:Hv; [done|].
  injection Hbest as ->. rewrite <- Hv in *. clear Hv vres0.
  rewrite Hbfs. simpl.
  rewrite dict_of_NoDup by (by rewrite <- list_fmap_compose).
  rewrite (mapM_total _ (λ kv : Z * R, (kv.1, closeness_of visited kv.1))).
  2:{ intros kv _.
      destruct (graph_closeness_total kv.1 visited Hres) as [g Hg].
      unfold closeness_of. by rewrite Hg. }
  simpl. do 3 f_equal.
  rewrite <- !list_fmap_compose.
  apply list_fmap_ext. intros i v Hv. simpl.
  replace (dict_get _ (v_id v)) with (Some (closeness_of visited (v_id v))).
  - done.
  - symmetry.
    apply (dict_get_fmap v_id (closeness_of visited) vres v).
    by eapply list_elem_of_lookup_2.
Qed.

(** With a [top_k] that is not negative the final slice keeps all. *)
Lemma slice_to_all {X} (top_k : Z) (l : list X) :
  0 ≤ top_k → Z.of_nat (length l) ≤ top_k → slice_to top_k l = l.
Proof.
  intros Hk Hlen. unfold slice_to.
  rewrite (proj2 (Z.ltb_ge _ _)) by lia. apply take_ge. lia.
Qed.

Lemma hybrid_search_sorted nodes query top_k focus_id bfs_depth alpha
    vres best :
  0 ≤ top_k → NoDup (n_id <$> nodes) →
  search_vector embed_text (load_nodes nodes) query top_k None = Some vres →
  head vres = Some best →
  ∃ visited,
    bfs ADJ (default (v_id best) focus_id) bfs_depth None = Some visited ∧
    hybrid_search embed_text ADJ (load_nodes nodes) HNODES query top_k
      focus_id bfs_depth alpha
    = Some (sort_desc final_score (fuse alpha visited <$> vres)).
Proof.
  intros Hk Hids Hrun Hbest.
  assert (Hne : vres ≠ []) by (intros ->; done).
  destruct (search_vector_shape _ _ _ _ Hids Hrun Hne) as (_ & _ & Hlen & _).
  destruct (hybrid_search_fused nodes query top_k focus_id bfs_depth alpha
              vres best Hids Hrun Hbest) as (visited & Hbfs & Hh).
  exists visited. split; [done|]. rewrite Hh. f_equal.
  apply slice_to_all; [done|].
  rewrite (Permutation_length (sort_desc_Permutation _ _)), length_fmap.
  by apply Hlen.
Qed.
End FusionFacts.

(** C8, for a non-negative [top_k] and distinct node ids.  With
    [alpha = 1.0] the result of [hybrid_search] lists the same candidates
    with the same vector scores in the same order as [search_vector] (and
    raises or is empty exactly when it does).  With [alpha = 0.0] the
    result holds the vector candidates, each with its closeness to the
    anchor as graph score and final score, in descending order of that
    score, candidates of equal closeness in the order of the vector
    search. *)
Theorem hybrid_search_alpha_extremes `{ArgSort}
    (embed_text : string → list R) (ADJ : gmap Z (list adj_entry))
    (HNODES nodes : list node) (query : string) (top_k : Z)
    (focus_id : option Z) (bfs_depth : Z) :
  0 ≤ top_k → NoDup (n_id <$> nodes) →
  ((λ rs : list result, (λ r, (r_id r, r_vector_score r)) <$> rs) <$>
     hybrid_search embed_text ADJ (load_nodes nodes) HNODES query top_k
       focus_id bfs_depth 1%R
   = ((λ vs : list vhit, (λ v, (v_id v, vector_score v)) <$> vs) <$>
        search_vector embed_text (load_nodes nodes) query top_k None)) ∧
  (∀ vres best,
     search_vector embed_text (load_nodes nodes) query top_k None
       = Some vres →
     head vres = Some best →
     ∃ (visited : list hit) (res : list result),
       bfs ADJ (default (v_id best) focus_id) bfs_depth None = Some visited ∧
       hybrid_search embed_text ADJ (load_nodes nodes) HNODES query top_k
         focus_id bfs_depth 0%R = Some res ∧
       r_id <$> res ≡ₚ v_id <$> vres ∧
       (∀ r, r ∈ res →
          graph_closeness (r_id r) visited = Some (r_graph_score r) ∧
          final_score r = r_graph_score r) ∧
       desc r_graph_score res ∧
       ∀ g, r_id <$> filter (λ r, r_graph_score r = g) res
            = v_id <$> filter (λ v, closeness_of visited (v_id v) = g) vres).
Proof.
  intros Hk Hids. split.
  - destruct (search_vector _ _ _ _ _) as [vres|] eqn:Hrun;
      [|unfold hybrid_search; by rewrite Hrun].
    destruct (head vres) as [best|] eqn:Hbest.
    + destruct (hybrid_search_sorted embed_text ADJ HNODES nodes query top_k
                  focus_id bfs_depth 1%R _ best Hk Hids Hrun Hbest)
        as (visited & _ & ->).
      assert (Hne : vres ≠ []) by (intros ->; done).
      destruct (search_vector_shape embed_text _ _ _ _ Hids Hrun Hne)
        as (_ & Hdesc & _).
      simpl. f_equal. rewrite sort_desc_id.
      * by rewrite <- list_fmap_compose.
      * apply desc_fmap. eapply desc_ext; [|exact Hdesc].
        intros v _. simpl. lra.
    + apply head_None in Hbest. subst vres.
      unfold hybrid_search. by rewrite Hrun.
  - intros vres best Hrun Hbest.
    destruct (hybrid_search_sorted embed_text ADJ HNODES nodes query top_k
                focus_id bfs_depth 0%R _ best Hk Hids Hrun Hbest)
      as (visited & Hbfs & Hh).
    exists visited. eexists. split; [done|]. split; [exact Hh|].
    assert (Hres : is_traversal_result visited) by (repeat eexists; done).
    assert (Hkey : ∀ r, r ∈ fuse HNODES 0%R visited <$> vres →
                        final_score r = r_graph_score r).
    { intros r (v & -> & _)%list_elem_of_fmap. simpl. lra. }
    rewrite (sort_desc_ext final_score r_graph_score) by done.
    split; [|split; [|split]].
    + rewrite sort_desc_Permutation. by rewrite <- list_fmap_compose.
    + intros r Hr. rewrite sort_desc_Permutation in Hr.
      split; [|by apply Hkey].
      apply list_elem_of_fmap in Hr as (v & -> & _). simpl.
      destruct (graph_closeness_total (v_id v) visited Hres) as [g Hg].
      unfold closeness_of. by rewrite Hg.
    + apply sort_desc_sorted.
    + intros g. rewrite sort_desc_stable, filter_fmap_commute.
      by rewrite <- list_fmap_compose.
Qed.

Lemma ex_nodes_ids : NoDup (n_id <$> ex_nodes).
Proof. repeat (constructor; [set_solver|]). constructor. Qed.

Lemma hybrid_search_alpha_extremes_witness :
  (λ rs : list result, (λ r, (r_id r, r_vector_score r)) <$> rs) <$>
    hybrid_search ex_embed (build_ADJ ex_edges) (load_nodes ex_nodes)
      ex_nodes "q" 5 None 2 1%R
  = ((λ vs : list vhit, (λ v, (v_id v, vector_score v)) <$> vs) <$>
       search_vector ex_embed (load_nodes ex_nodes) "q" 5 None).
Proof.
  apply (hybrid_search_alpha_extremes ex_embed (build_ADJ ex_edges)
           ex_nodes ex_nodes "q" 5 None 2).
  - lia.
  - exact ex_nodes_ids.
Defined.

(** With [top_k = -1] the two final slices differ: of three candidates the
    vector search returns two, and [hybrid_search] slices its two merged
    entries once more and returns one. *)
Lemma hybrid_search_negative_top_k :
  ∃ (vres : list vhit) (res : list result),
    search_vector ex_embed (load_nodes ex_nodes) "q" (-1) None = Some vres ∧
    hybrid_search ex_embed (build_ADJ ex_edges) (load_nodes ex_nodes)
      ex_nodes "q" (-1) None 2 1%R = Some res ∧
    length vres = 2%nat ∧ length res = 1%nat ∧
    r_id <$> res ≠ v_id <$> vres.
Proof.
  destruct (search_vector_length ex_embed ex_nodes "q" (-1) None)
    as (vres & Hrun & Hsel); [repeat constructor|].
  simpl in Hsel.
  destruct vres as [|best vres0] eqn:Hv; [done|].
  rewrite <- Hv in *.
  destruct (hybrid_search_fused ex_embed (build_ADJ ex_edges) ex_nodes
              ex_nodes "q" (-1) None 2 1%R vres best ex_nodes_ids Hrun)
    as (visited & _ & Hh); [by rewrite Hv|].
  exists vres. eexists. split; [done|]. split; [exact Hh|].
  assert (Hlen : length (slice_to (-1)
            (sort_desc final_score (fuse ex_nodes 1%R visited <$> vres)))
          = 1%nat).
  { unfold slice_to. change (-1 <? 0) with true. cbv iota.
    rewrite length_take,
      (Permutation_length (sort_desc_Permutation _ _)), length_fmap. lia. }
  split; [exact Hsel|]. split; [done|].
  intros Heq. apply (f_equal length) in Heq.
  rewrite !length_fmap in Heq. lia.
Qed.

(** C10, for a non-negative [top_k] and distinct node ids.  When the
    vector search returns a non-empty list and [focus_id] has no adjacency
    entry, [hybrid_search] returns (it does not raise) the same candidates
    with their vector scores, each with graph score 0.0, hop [None] and
    final score [alpha * vector_score]. *)
Theorem hybrid_search_unknown_focus `{ArgSort}
    (embed_text : string → list R) (ADJ : gmap Z (list adj_entry))
    (HNODES nodes : list node) (query : string) (top_k : Z)
    (focus_id : Z) (bfs_depth : Z) (alpha : R) (vres : list vhit) :
  0 ≤ top_k → NoDup (n_id <$> nodes) →
  ADJ !! focus_id = None →
  search_vector embed_text (load_nodes nodes) query top_k None = Some vres →
  vres ≠ [] →
  ∃ res : list result,
    hybrid_search embed_text ADJ (load_nodes nodes) HNODES query top_k
      (Some focus_id) bfs_depth alpha = Some res ∧
    (λ r, (r_id r, r_vector_score r)) <$> res
      ≡ₚ (λ v, (v_id v, vector_score v)) <$> vres ∧
    ∀ r, r ∈ res →
      r_graph_score r = 0%R ∧ r_hop r = None ∧
      final_score r = (alpha * r_vector_score r)%R.
Proof.
  intros Hk Hids Hfocus Hrun Hne.
  destruct vres as [|best vres0] eqn:Hv; [done|]. rewrite <- Hv in *.
  destruct (hybrid_search_sorted embed_text ADJ HNODES nodes query top_k
              (Some focus_id) bfs_depth alpha vres best Hk Hids Hrun)
    as (visited & Hbfs & Hh); [by rewrite Hv|].
  simpl in Hbfs. unfold bfs in Hbfs. rewrite Hfocus in Hbfs.
  injection Hbfs as <-.
  eexists. split; [exact Hh|]. split.
  - rewrite sort_desc_Permutation. by rewrite <- list_fmap_compose.
  - intros r Hr. rewrite sort_desc_Permutation in Hr.
    apply list_elem_of_fmap in Hr as (v & -> & _). simpl.
    split; [done|]. split; [done|]. unfold closeness_of. simpl. lra.
Qed.

Lemma hybrid_search_unknown_focus_witness :
  ∃ (vres : list vhit) (res : list result),
    search_vector ex_embed (load_nodes ex_nodes) "q" 5 None = Some vres ∧
    hybrid_search ex_embed (build_ADJ ex_edges) (load_nodes ex_nodes)
      ex_nodes "q" 5 (Some 7) 2 0.7%R = Some res ∧
    ∀ r, r ∈ res → r_graph_score r = 0%R ∧ r_hop r = None.
Proof.
  destruct (search_vector_length ex_embed ex_nodes "q" 5 None)
    as (vres & Hrun & Hlen); [repeat constructor|].
  simpl in Hlen.
  destruct (hybrid_search_unknown_focus ex_embed (build_ADJ ex_edges)
              ex_nodes ex_nodes "q" 5 7 2 0.7%R vres)
    as (res & Hh & _ & Hall).
  - lia.
  - exact ex_nodes_ids.
  - reflexivity.
  - exact Hrun.
  - intros ->. discriminate Hlen.
  - exists vres, res. split; [exact Hrun|]. split; [exact Hh|].
    intros r Hr. destruct (Hall r Hr) as (? & ? & _). by split.
Defined.

(** With [top_k = -1] and a focus that has no adjacency entry, the vector
    search returns two of three candidates and [hybrid_search] one. *)
Lemma hybrid_search_unknown_focus_negative_top_k :
  ∃ (vres : list vhit) (res : list result),
    search_vector ex_embed (load_nodes ex_nodes) "q" (-1) None = Some vres ∧
    vres ≠ [] ∧ build_ADJ ex_edges !! 7 = None ∧
    hybrid_search ex_embed (build_ADJ ex_edges) (load_nodes ex_nodes)
      ex_nodes "q" (-1) (Some 7) 2 0.7%R = Some res ∧
    ¬ (r_id <$> res ≡ₚ v_id <$> vres).
Proof.
  destruct (search_vector_length ex_embed ex_nodes "q" (-1) None)
    as (vres & Hrun & Hsel); [repeat constructor|].
  simpl in Hsel.
  destruct vres as [|best vres0] eqn:Hv; [done|].
  rewrite <- Hv in *.
  destruct (hybrid_search_fused ex_embed (build_ADJ ex_edges) ex_nodes
              ex_nodes "q" (-1) (Some 7) 2 0.7%R vres best ex_nodes_ids Hrun)
    as (visited & _ & Hh); [by rewrite Hv|].
  exists vres. eexists. split; [done|].
  split; [by rewrite Hv|]. split; [reflexivity|]. split; [exact Hh|].
  intros Heq. apply Permutation_length in Heq.
  rewrite !length_fmap in Heq. unfold slice_to in Heq.
  change (-1 <? 0) with true in Heq. cbv iota in Heq.
  rewrite length_take,
    (Permutation_length (sort_desc_Permutation _ _)), length_fmap in Heq.
  lia.
Qed.

(** ** Index construction *)

(** The embeddings do not all have one dimension. *)
Definition dimension_mismatch (nodes : list node) : Prop :=
  ¬ ∃ d, Forall (λ n, length (n_embedding n) = d) nodes.

Lemma np_array_None (rows : list (list R)) :
  (¬ ∃ d, Forall (λ r, length r = d) rows) → np_array rows = None.
Proof.
  intros Hmis. unfold np_array. destruct rows as [|r rows]; [|].
  - destruct Hmis. exists 0%nat. constructor.
  - destruct (forallb _ _) eqn:Hf; [|done].
    destruct Hmis. exists (length r). apply Forall_forall. intros r' Hr'.
    rewrite forallb_forall in Hf. apply Nat.eqb_eq, Hf.
    by apply list_elem_of_In.
Qed.

(** C9, as the code has it.  Nothing is validated when the indices are
    built and no error reaches the caller.  The adjacency is built from
    the edge list alone: an edge whose target is not the id of any node
    still contributes both of its entries, and the missing id gets a
    neighbour list.  An embedding dimension mismatch makes [np.array]
    raise inside the loader's [try]; the handler replaces the index by the
    empty one, and every vector search then returns the empty list. *)
Theorem construction_masks_structural_errors :
  (∀ (nodes : list node) (EDGES : list edge) e,
     e ∈ EDGES → e_target e ∉ (n_id <$> nodes) →
     is_Some (build_ADJ EDGES !! e_target e) ∧
     AdjEntry (e_target e) (rel_of e) (wt_of e)
       ∈ adj_get (build_ADJ EDGES) (e_source e) ∧
     AdjEntry (e_source e) (rel_of e) (wt_of e)
       ∈ adj_get (build_ADJ EDGES) (e_target e)) ∧
  (∀ (nodes : list node),
     dimension_mismatch nodes →
     load_nodes nodes = Index [] [] [] ∧
     ∀ `{ArgSort} embed_text query top_k metadata_filter,
       search_vector embed_text (load_nodes nodes) query top_k
         metadata_filter = Some []).
Proof.
  split.
  - intros nodes EDGES e He _.
    assert (Hf : AdjEntry (e_target e) (rel_of e) (wt_of e)
                   ∈ adj_get (build_ADJ EDGES) (e_source e)).
    { rewrite adj_get_build_ADJ. apply elem_of_flat_map_entries.
      eauto using forward_entry_at. }
    assert (Hb : AdjEntry (e_source e) (rel_of e) (wt_of e)
                   ∈ adj_get (build_ADJ EDGES) (e_target e)).
    { rewrite adj_get_build_ADJ. apply elem_of_flat_map_entries.
      eauto using backward_entry_at. }
    split; [|done].
    unfold adj_get in Hb. destruct (build_ADJ EDGES !! e_target e); [done|].
    by apply elem_of_nil in Hb.
  - intros nodes Hmis.
    assert (Hload : load_nodes nodes = Index [] [] []).
    { unfold load_nodes. rewrite np_array_None; [done|].
      intros [d Hd]. apply Hmis. exists d.
      by apply Forall_fmap in Hd. }
    split; [done|]. intros. by rewrite Hload.
Qed.

(** An edge from node 1 to the id 99, which no node has, is accepted: the
    build gives 99 a neighbour list and the traversal from 1 returns it.
    Two nodes with embeddings of dimensions 1 and 2 leave the index empty
    instead of failing. *)
Lemma construction_accepts_dangling_edge :
  (99 ∉ (n_id <$> ex_nodes)) ∧
  build_ADJ ex_dangling_edges !! 99
    = Some [AdjEntry 1 "related_to" 1%R] ∧
  bfs (build_ADJ ex_dangling_edges) 1 2 None
    = Some [Hit 99 1 (Some "related_to"%string) (Some 1%R)] ∧
  dimension_mismatch ex_ragged_nodes ∧
  load_nodes ex_ragged_nodes = Index [] [] [].
Proof.
  split; [set_solver|]. split; [reflexivity|]. split; [reflexivity|].
  split; [|reflexivity].
  intros [d Hd]. apply Forall_cons in Hd as [H1 Hd].
  apply Forall_cons in Hd as [H2 _]. simpl in H1, H2. lia.
Qed.

(** * Further properties *)

(** ** Traversal: which nodes come back, and in which order *)

(** What a finished traversal says about its entries, for any depth and
    filter: each entry is another node than the start, at the distance
    its hop states; what lies within the cutoff is found; hops do not
    decrease along the list. *)
Lemma bfs_hits (ADJ : gmap Z (list adj_entry)) (start_id max_depth : Z)
    (allowed_types : option (list string)) :
  ∃ res, bfs ADJ start_id max_depth allowed_types = Some res ∧
    NoDup (hit_id <$> res) ∧
    (∀ r, r ∈ res →
       hit_id r ≠ start_id ∧ 0 < hit_hop r ∧
       (0 ≤ max_depth → hit_hop r ≤ max_depth) ∧
       walk ADJ allowed_types (Z.to_nat (hit_hop r)) start_id (hit_id r) ∧
       ∀ n, walk ADJ allowed_types n start_id (hit_id r) →
            hit_hop r ≤ Z.of_nat n) ∧
    (∀ n v, walk ADJ allowed_types n start_id v → v ≠ start_id →
       max_depth < 0 ∨ Z.of_nat n ≤ max_depth →
       ∃ r, r ∈ res ∧ hit_id r = v ∧ hit_hop r ≤ Z.of_nat n) ∧
    (∀ i j ri rj, (i ≤ j)%nat → res !! i = Some ri → res !! j = Some rj →
       hit_hop ri ≤ hit_hop rj).
Proof.
  destruct (bfs_trace ADJ max_depth allowed_types start_id)
    as (res & Hb & _ & trace & Hinv & Htr).
  change (hit_of (root start_id)) with (root_hit start_id) in Htr.
  exists res. split; [done|].
  assert (Hnd : NoDup (start_id :: (hit_id <$> res))).
  { pose proof (ti_nodup _ _ _ _ _ _ Hinv) as Hn.
    replace (q_node <$> trace) with (hit_id <$> (hit_of <$> trace)) in Hn
      by (rewrite <- list_fmap_compose; done).
    by rewrite Htr in Hn. }
  apply NoDup_cons in Hnd as [Hs Hnd].
  assert (Hroot : root start_id ∈ trace).
  { eapply list_elem_of_lookup_2, Hinv. }
  split; [done|]. split; [|split].
  - intros r Hr.
    assert (Hid : hit_id r ≠ start_id).
    { intros Heq. apply Hs, list_elem_of_fmap. eauto. }
    destruct (result_elem_trace _ _ _ _ Htr Hr) as (i & x & _ & Hx & ->).
    assert (Hin : x ∈ trace) by by eapply list_elem_of_lookup_2.
    split; [done|]. split; [by eapply (ti_pos _ _ _ _ _ _ Hinv)|].
    split; [intros Hk; by apply (ti_bound _ _ _ _ _ _ Hinv)|].
    split; [by eapply trace_walk|].
    intros n Hw.
    by apply (trace_shortest _ _ _ _ _ Hinv n _ _ Hw (root start_id) x).
  - intros n v Hw Hv Hk.
    destruct (trace_complete _ _ _ _ _ Hinv n _ _ Hw (root start_id))
      as (xv & Hxv & Hnode & Hd); [done|done| |].
    { destruct Hk as [Hk|Hk]; [by left|right].
      change (q_depth (root start_id)) with 0. lia. }
    apply list_elem_of_lookup_1 in Hxv as [i Hi].
    destruct i as [|i].
    + rewrite (ti_root _ _ _ _ _ _ Hinv) in Hi. injection Hi as <-.
      by destruct Hv.
    + exists (hit_of xv). split; [|split; [done|]].
      * apply (list_elem_of_lookup_2 _ i).
        change (res !! i) with ((root_hit start_id :: res) !! S i).
        by rewrite <- Htr, list_lookup_fmap, Hi.
      * change (hit_hop (hit_of xv)) with (q_depth xv).
        change (q_depth (root start_id)) with 0 in Hd. lia.
  - intros i j ri rj Hij Hi Hj.
    destruct (result_lookup_trace _ trace res (S i) ri Htr Hi)
      as (x & Hx & ->).
    destruct (result_lookup_trace _ trace res (S j) rj Htr Hj)
      as (y & Hy & ->).
    apply (ti_sorted _ _ _ _ _ _ Hinv (S i) (S j)); [lia|done..].
Qed.

(** X1.  With a depth [k >= 0] the traversal returns exactly the nodes
    other than the start that lie within [k] allowed edges of it, each
    once, with its distance as hop. *)
Theorem bfs_returns_nodes_within_depth (ADJ : gmap Z (list adj_entry))
    (start_id k : Z) (allowed_types : option (list string)) :
  0 ≤ k →
  ∃ res, bfs ADJ start_id k allowed_types = Some res ∧
    ∀ v h,
      (∃ r, r ∈ res ∧ hit_id r = v ∧ hit_hop r = h) ↔
      (v ≠ start_id ∧ 1 ≤ h ≤ k ∧
       walk ADJ allowed_types (Z.to_nat h) start_id v ∧
       ∀ n, walk ADJ allowed_types n start_id v → h ≤ Z.of_nat n).
Proof.
  intros Hk.
  destruct (bfs_hits ADJ start_id k allowed_types)
    as (res & Hb & _ & Hsound & Hcomplete & _).
  exists res. split; [done|]. intros v h. split.
  - intros (r & Hr & <- & <-).
    destruct (Hsound r Hr) as (? & ? & Hle & ? & ?).
    specialize (Hle Hk). repeat split; (done || lia).
  - intros (Hv & Hh & Hw & Hmin).
    destruct (Hcomplete _ _ Hw Hv) as (r & Hr & Hid & Hhop); [right; lia|].
    exists r. split; [done|]. split; [done|].
    destruct (Hsound r Hr) as (_ & _ & _ & Hwr & _).
    rewrite Hid in Hwr. specialize (Hmin _ Hwr). lia.
Qed.

Lemma bfs_returns_nodes_within_depth_witness :
  ∃ res, bfs (build_ADJ ex_edges) 1 2 None = Some res ∧
         ∃ r, r ∈ res ∧ hit_id r = 3 ∧ hit_hop r = 2.
Proof.
  destruct (bfs_returns_nodes_within_depth (build_ADJ ex_edges) 1 2 None)
    as (res & Hres & Hiff); [lia|].
  exists res. split; [exact Hres|].
  assert (Hrun : bfs (build_ADJ ex_edges) 1 2 None =
    Some [Hit 2 1 (Some "related_to"%string) (Some 1%R);
          Hit 3 2 (Some "related_to"%string) (Some 0.5%R)]) by reflexivity.
  rewrite Hrun in Hres. injection Hres as <-.
  eexists. split; [right; left|]. split; reflexivity.
Defined.

(** X2.  With a negative depth the cutoff never fires: the traversal
    returns every node other than the start that some walk of allowed
    edges reaches, whatever its distance, each with its shortest distance
    as hop. *)
Theorem bfs_negative_depth_reaches_all (ADJ : gmap Z (list adj_entry))
    (start_id max_depth : Z) (allowed_types : option (list string)) :
  max_depth < 0 →
  ∃ res, bfs ADJ start_id max_depth allowed_types = Some res ∧
    (∀ v, v ∈ hit_id <$> res ↔
          v ≠ start_id ∧ ∃ n, walk ADJ allowed_types n start_id v) ∧
    ∀ v h,
      (∃ r, r ∈ res ∧ hit_id r = v ∧ hit_hop r = h) ↔
      (v ≠ start_id ∧ 1 ≤ h ∧
       walk ADJ allowed_types (Z.to_nat h) start_id v ∧
       ∀ n, walk ADJ allowed_types n start_id v → h ≤ Z.of_nat n).
Proof.
  intros Hneg.
  destruct (bfs_hits ADJ start_id max_depth allowed_types)
    as (res & Hb & _ & Hsound & Hcomplete & _).
  exists res. split; [done|]. split.
  - intros v. split.
    + intros (r & -> & Hr)%list_elem_of_fmap.
      destruct (Hsound r Hr) as (? & _ & _ & Hw & _). eauto.
    + intros (Hv & n & Hw).
      destruct (Hcomplete _ _ Hw Hv) as (r & Hr & <- & _); [by left|].
      apply list_elem_of_fmap. eauto.
  - intros v h. split.
    + intros (r & Hr & <- & <-).
      destruct (Hsound r Hr) as (? & ? & _ & ? & ?).
      repeat split; (done || lia).
    + intros (Hv & Hh & Hw & Hmin).
      destruct (Hcomplete _ _ Hw Hv) as (r & Hr & Hid & Hhop); [by left|].
      exists r. split; [done|]. split; [done|].
      destruct (Hsound r Hr) as (_ & _ & _ & Hwr & _).
      rewrite Hid in Hwr. specialize (Hmin _ Hwr). lia.
Qed.

Lemma bfs_negative_depth_reaches_all_witness :
  ∃ res, bfs (build_ADJ ex_edges) 1 (-1) None = Some res ∧
         (3 ∈ hit_id <$> res) ∧
         ∃ r, r ∈ res ∧ hit_id r = 3 ∧ hit_hop r = 2.
Proof.
  destruct (bfs_negative_depth_reaches_all (build_ADJ ex_edges) 1 (-1) None)
    as (res & Hres & Hiff & Hhops); [lia|].
  exists res. split; [exact Hres|].
  assert (Hrun : bfs (build_ADJ ex_edges) 1 (-1) None =
    Some [Hit 2 1 (Some "related_to"%string) (Some 1%R);
          Hit 3 2 (Some "related_to"%string) (Some 0.5%R)]) by reflexivity.
  rewrite Hrun in Hres. injection Hres as <-.
  split; [simpl; right; left|].
  exists (Hit 3 2 (Some "related_to"%string) (Some 0.5%R)).
  split; [right; left|]. split; reflexivity.
Defined.

(** X3.  The entries come in level order, each node once: hops never
    decrease along the returned list, and no node id occurs twice. *)
Theorem bfs_hops_nondecreasing (ADJ : gmap Z (list adj_entry))
    (start_id max_depth : Z) (allowed_types : option (list string)) :
  ∃ res, bfs ADJ start_id max_depth allowed_types = Some res ∧
    NoDup (hit_id <$> res) ∧
    ∀ i j ri rj, (i ≤ j)%nat → res !! i = Some ri → res !! j = Some rj →
                 hit_hop ri ≤ hit_hop rj.
Proof.
  destruct (bfs_hits ADJ start_id max_depth allowed_types)
    as (res & Hb & Hnd & _ & _ & Hsorted).
  by exists res.
Qed.

(** A queue in level order: along it depths do not decrease, and they
    span at most two levels. *)
Definition level_queue (queue : list qitem) : Prop :=
  ∀ i j x y, (i ≤ j)%nat → queue !! i = Some x → queue !! j = Some y →
             q_depth x ≤ q_depth y ≤ q_depth x + 1.

Lemma level_queue_tail h rest : level_queue (h :: rest) → level_queue rest.
Proof.
  intros Hl i j x y Hij Hx Hy. apply (Hl (S i) (S j)); [lia|done..].
Qed.

Lemma level_queue_expand h rest news :
  level_queue (h :: rest) →
  (∀ x, x ∈ news → q_depth x = q_depth h + 1) →
  level_queue (rest ++ news).
Proof.
  intros Hl Hnews i j x y Hij Hx Hy.
  apply lookup_app_Some in Hx as [Hx|[Hi Hx]];
    apply lookup_app_Some in Hy as [Hy|[Hj Hy]].
  - apply (Hl (S i) (S j)); [lia|done..].
  - apply list_elem_of_lookup_2 in Hy. rewrite (Hnews _ Hy).
    pose proof (Hl 0%nat (S i) h x ltac:(lia) eq_refl Hx). lia.
  - apply lookup_lt_Some in Hy. lia.
  - apply list_elem_of_lookup_2 in Hx, Hy.
    rewrite (Hnews _ Hx), (Hnews _ Hy). lia.
Qed.

(** The loop only appends to [results]. *)
Lemma bfs_loop_results_grow ADJ max_depth allowed_types fuel :
  ∀ queue visited results res,
    bfs_loop ADJ max_depth allowed_types fuel queue visited results
      = Some res →
    results `prefix_of` res.
Proof.
  induction fuel as [|fuel IH]; intros queue visited results res Hrun;
    destruct queue as [|q rest]; simpl in Hrun; try done.
  - by injection Hrun as <-.
  - by injection Hrun as <-.
  - assert (Hgrow : ∀ results', results' `prefix_of` res →
      results' = (if 0 <? q_depth q then results ++ [hit_of q] else results)
      → results `prefix_of` res).
    { intros results' Hp ->. destruct (0 <? q_depth q); [|done].
      by eapply prefix_app_l. }
    destruct (q_depth q =? max_depth).
    + eapply Hgrow; [by eapply IH|done].
    + destruct (expand _ _ _ _ _) as [queue' visited'].
      eapply Hgrow; [by eapply IH|done].
Qed.

(** Two runs of the loop with cutoffs [k < k']: as long as the shallower
    run has work, the deeper one does the same and, at depth [k], puts
    what it discovers behind it. *)
Lemma bfs_loop_deeper ADJ allowed_types k k' :
  k < k' →
  ∀ fuelA fuelB queue extra visited results resA resB,
    level_queue queue →
    (∀ y, y ∈ queue → 0 ≤ q_depth y ≤ k) →
    (extra = [] ∨ ∀ y, y ∈ queue → q_depth y = k) →
    bfs_loop ADJ k allowed_types fuelA queue visited results = Some resA →
    bfs_loop ADJ k' allowed_types fuelB (queue ++ extra)
      (list_to_set (q_node <$> extra) ∪ visited) results = Some resB →
    resA `prefix_of` resB.
Proof.
  intros Hkk. induction fuelA as [|fuelA IH];
    intros fuelB queue extra visited results resA resB Hl Hb He HA HB.
  - destruct queue as [|h rest]; [|done]. simpl in HA. injection HA as <-.
    by eapply bfs_loop_results_grow.
  - destruct queue as [|h rest].
    { simpl in HA. injection HA as <-. by eapply bfs_loop_results_grow. }
    destruct fuelB as [|fuelB]; [done|].
    simpl in HA, HB.
    pose proof (Hb h (list_elem_of_here _ _)) as Hh.
    assert (Hk' : (q_depth h =? k') = false) by (apply Z.eqb_neq; lia).
    rewrite Hk' in HB. rewrite expand_discovered in HB.
    destruct (q_depth h =? k) eqn:Hk.
    + apply Z.eqb_eq in Hk.
      set (news := discovered _ _ _ _) in HB.
      eapply (IH fuelB rest (extra ++ news) visited).
      * by eapply level_queue_tail.
      * intros y Hy. apply Hb. by right.
      * right. intros y [j Hj]%list_elem_of_lookup_1.
        pose proof (Hl 0%nat (S j) h y ltac:(lia) eq_refl Hj).
        pose proof (Hb y ltac:(by eapply list_elem_of_further,
                                 list_elem_of_lookup_2)). lia.
      * exact HA.
      * rewrite app_assoc, fmap_app, list_to_set_app_L.
        replace (list_to_set (q_node <$> extra)
                 ∪ list_to_set (q_node <$> news) ∪ visited)
          with (list_to_set (q_node <$> news)
                ∪ (list_to_set (q_node <$> extra) ∪ visited))
          by set_solver.
        done.
    + apply Z.eqb_neq in Hk.
      assert (extra = []) as ->.
      { destruct He as [->|He]; [done|].
        destruct Hk. apply He. left. }
      rewrite expand_discovered in HA.
      rewrite app_nil_r in HB.
      change (list_to_set (q_node <$> [])) with (∅ : gset Z) in HB.
      rewrite union_empty_l_L in HB.
      set (news := discovered _ _ _ _) in *.
      assert (Hnews : ∀ x, x ∈ news → q_depth x = q_depth h + 1).
      { intros x Hx. by apply discovered_item in Hx as [? _]. }
      eapply (IH fuelB (rest ++ news) []).
      * by eapply level_queue_expand.
      * intros y [Hy|Hy]%elem_of_app; [apply Hb; by right|].
        rewrite (Hnews _ Hy). lia.
      * by left.
      * exact HA.
      * rewrite app_nil_r.
        change (list_to_set (q_node <$> [])) with (∅ : gset Z).
        by rewrite union_empty_l_L.
Qed.

(** X4.  Raising the depth only appends: for [0 <= k <= k'] the list
    returned with depth [k] is a prefix of the list returned with depth
    [k']. *)
Theorem bfs_deeper_extends (ADJ : gmap Z (list adj_entry))
    (start_id k k' : Z) (allowed_types : option (list string)) :
  0 ≤ k → k ≤ k' →
  ∃ resA resB,
    bfs ADJ start_id k allowed_types = Some resA ∧
    bfs ADJ start_id k' allowed_types = Some resB ∧
    resA `prefix_of` resB.
Proof.
  intros Hk Hkk.
  destruct (bfs_trace ADJ k allowed_types start_id) as (resA & HA & _).
  destruct (bfs_trace ADJ k' allowed_types start_id) as (resB & HB & _).
  exists resA, resB. split; [done|]. split; [done|].
  destruct (decide (k = k')) as [<-|Hne].
  { rewrite HA in HB. by injection HB as <-. }
  unfold bfs in HA, HB. destruct (ADJ !! start_id).
  - eapply (bfs_loop_deeper ADJ allowed_types k k' ltac:(lia) _ _
              [(start_id, 0, None, None)] []); [| | |exact HA|].
    + intros [|i] [|j] x y _ Hx Hy; try done.
      injection Hx as <-. injection Hy as <-. lia.
    + intros y ->%list_elem_of_singleton. unfold q_depth. simpl. lia.
    + by left.
    + change (list_to_set (q_node <$> [])) with (∅ : gset Z).
      by rewrite union_empty_l_L.
  - injection HA as <-. apply prefix_nil.
Qed.

Lemma bfs_deeper_extends_witness :
  ∃ resA resB,
    bfs (build_ADJ ex_edges) 1 1 None = Some resA ∧
    bfs (build_ADJ ex_edges) 1 2 None = Some resB ∧
    resA `prefix_of` resB.
Proof.
  apply (bfs_deeper_extends (build_ADJ ex_edges) 1 1 2 None); lia.
Defined.

(** In a built adjacency every allowed step can be taken back, through
    the reverse entry, which has the same type. *)
Lemma build_ADJ_step_sym EDGES allowed_types u v :
  step (build_ADJ EDGES) allowed_types u v →
  step (build_ADJ EDGES) allowed_types v u.
Proof.
  intros (e & He & Ha & Ht).
  rewrite adj_get_build_ADJ in He.
  apply elem_of_flat_map_entries in He as (ed & Hed & He).
  apply elem_of_entries_at in He. rewrite Ht in He.
  exists (AdjEntry u (a_type e) (a_weight e)). split; [|done].
  rewrite adj_get_build_ADJ. apply elem_of_flat_map_entries. eauto.
Qed.

Lemma build_ADJ_walk_sym EDGES allowed_types n u v :
  walk (build_ADJ EDGES) allowed_types n u v →
  walk (build_ADJ EDGES) allowed_types n v u.
Proof.
  induction 1 as [u|n u m v Hs Hw IH]; [constructor|].
  eapply walk_snoc; [exact IH|]. by apply build_ADJ_step_sym.
Qed.

(** X5.  On an adjacency built from an edge list, hops are symmetric: if
    the traversal from [u] with depth [k >= 0] returns [v] at hop [h],
    the traversal from [v] with the same depth and filter returns [u] at
    hop [h]. *)
Theorem bfs_hop_symmetric (EDGES : list edge) (u k : Z)
    (allowed_types : option (list string)) (res : list hit) (r : hit) :
  0 ≤ k →
  bfs (build_ADJ EDGES) u k allowed_types = Some res → r ∈ res →
  ∃ res' r',
    bfs (build_ADJ EDGES) (hit_id r) k allowed_types = Some res' ∧
    r' ∈ res' ∧ hit_id r' = u ∧ hit_hop r' = hit_hop r.
Proof.
  intros Hk Hrun Hr.
  destruct (bfs_hits (build_ADJ EDGES) u k allowed_types)
    as (res0 & Hb & _ & Hsound & _).
  rewrite Hrun in Hb. injection Hb as <-.
  destruct (Hsound r Hr) as (Hne & Hpos & Hle & Hw & Hmin).
  specialize (Hle Hk).
  destruct (bfs_hits (build_ADJ EDGES) (hit_id r) k allowed_types)
    as (res' & Hb' & _ & Hsound' & Hcomplete' & _).
  destruct (Hcomplete' _ u (build_ADJ_walk_sym _ _ _ _ _ Hw))
    as (r' & Hr' & Hid' & Hhop'); [done|right; lia|].
  exists res', r'. split; [done|]. split; [done|]. split; [done|].
  destruct (Hsound' r' Hr') as (_ & Hpos' & _ & Hw' & _).
  rewrite Hid' in Hw'. apply build_ADJ_walk_sym in Hw'.
  specialize (Hmin _ Hw'). lia.
Qed.

Lemma bfs_hop_symmetric_witness :
  ∃ res' r',
    bfs (build_ADJ ex_edges) 3 2 None = Some res' ∧
    r' ∈ res' ∧ hit_id r' = 1 ∧ hit_hop r' = 2.
Proof.
  apply (bfs_hop_symmetric ex_edges 1 2 None
           [Hit 2 1 (Some "related_to"%string) (Some 1%R);
            Hit 3 2 (Some "related_to"%string) (Some 0.5%R)]
           (Hit 3 2 (Some "related_to"%string) (Some 0.5%R))).
  - lia.
  - reflexivity.
  - right. left.
Defined.

(** ** Vector search: paging, filtering, errors *)

Lemma selects_functional {B} (l : list B) idxs res res' :
  selects l idxs res → selects l idxs res' → res = res'.
Proof.
  intros Hs Hs'. apply selects_mapM in Hs, Hs'. congruence.
Qed.

Section SearchMore.
Context `{ArgSort}.
Variable embed_text : string → list R.

(** X7.  Asking for fewer results gives a prefix of what asking for more
    gives: for [0 <= k1 <= k2] the list for [top_k = k1] is a prefix of
    the list for [top_k = k2]. *)
Theorem search_vector_top_k_prefix (nodes : list node) (query : string)
    (k1 k2 : Z) (metadata_filter : option (string * jvalue)) :
  0 ≤ k1 → k1 ≤ k2 →
  Forall (λ n, length (n_embedding n) = length (embed_text query)) nodes →
  ∃ res1 res2,
    search_vector embed_text (load_nodes nodes) query k1 metadata_filter
      = Some res1 ∧
    search_vector embed_text (load_nodes nodes) query k2 metadata_filter
      = Some res2 ∧
    res1 `prefix_of` res2.
Proof.
  intros Hk1 Hk12 Hdim.
  destruct (search_vector_selects embed_text nodes query k1
              metadata_filter Hdim) as (res1 & Hrun1 & Hsel1).
  destruct (search_vector_selects embed_text nodes query k2
              metadata_filter Hdim) as (res2 & Hrun2 & Hsel2).
  exists res1, res2. split; [done|]. split; [done|].
  set (pool := candidates nodes metadata_filter) in *.
  set (order := reverse (argsort _)) in *.
  unfold slice_to in Hsel1, Hsel2.
  rewrite (proj2 (Z.ltb_ge _ _)) in Hsel1 by lia.
  rewrite (proj2 (Z.ltb_ge _ _)) in Hsel2 by lia.
  set (K1 := Z.to_nat (Z.min k1 (Z.of_nat (length pool)))) in *.
  set (K2 := Z.to_nat (Z.min k2 (Z.of_nat (length pool)))) in *.
  assert (HK : (K1 ≤ K2)%nat) by lia.
  assert (res1 = take K1 res2) as ->; [|apply prefix_take].
  eapply selects_functional; [exact Hsel1|].
  replace (take K1 order) with (take K1 (take K2 order))
    by (rewrite take_take; f_equal; lia).
  by apply Forall2_take.
Qed.

(** X8.  With a metadata filter, every entry returned is a node of the
    corpus whose metadata holds the expected value under the key, or has
    no such key when the expected value is [None] (a missing key reads as
    [None]), with its own id, name and score; this holds for every
    [top_k]. *)
Theorem search_vector_filter_sound (nodes : list node) (query : string)
    (top_k : Z) (key : string) (value : jvalue) :
  Forall (λ n, length (n_embedding n) = length (embed_text query)) nodes →
  ∃ res,
    search_vector embed_text (load_nodes nodes) query top_k
      (Some (key, value)) = Some res ∧
    ∀ r, r ∈ res →
      ∃ n, n ∈ nodes ∧
           (n_metadata n !! key = Some value ∨
            (n_metadata n !! key = None ∧ value = JNull)) ∧
           r = VHit (n_id n) (n_name n)
                 (cosine (n_embedding n) (embed_text query)).
Proof.
  intros Hdim.
  destruct (search_vector_selects embed_text nodes query top_k
              (Some (key, value)) Hdim) as (res & Hrun & Hsel).
  exists res. split; [done|]. intros r [i Hi]%list_elem_of_lookup_1.
  destruct (Forall2_lookup_r _ _ _ _ _ Hsel Hi) as (idx & _ & Hr).
  unfold scored in Hr. rewrite list_lookup_fmap in Hr.
  apply fmap_Some in Hr as (n & Hn & ->).
  apply list_elem_of_lookup_2 in Hn. simpl in Hn.
  apply list_elem_of_filter in Hn as [Hm Hn].
  exists n. split; [done|]. split; [|done].
  unfold metadata_get in Hm.
  destruct (n_metadata n !! key) as [v|]; simpl in Hm.
  - left. by rewrite Hm.
  - right. by split.
Qed.

(** X10.  A query embedding of another dimension than the corpus makes
    the search raise as soon as there is a candidate to score: without a
    filter always, with a filter unless no node passes it, in which case
    the empty list is returned before anything is computed. *)
Theorem search_vector_dimension_error (nodes : list node) (query : string)
    (top_k : Z) (D : nat) :
  nodes ≠ [] →
  Forall (λ n, length (n_embedding n) = D) nodes →
  length (embed_text query) ≠ D →
  search_vector embed_text (load_nodes nodes) query top_k None = None ∧
  ∀ key value,
    search_vector embed_text (load_nodes nodes) query top_k
      (Some (key, value))
    = match candidates nodes (Some (key, value)) with
      | [] => Some []
      | _ => None
      end.
Proof.
  intros Hne Hdim Hq.
  assert (Hcos : ∀ pool, pool ≠ [] → (∀ n, n ∈ pool → n ∈ nodes) →
    cosine_vec_matrix (n_embedding <$> pool) (embed_text query) = None).
  { intros pool Hp Hsub. apply cosine_vec_matrix_None. intros Hall.
    destruct pool as [|n pool]; [done|].
    rewrite fmap_cons in Hall. apply Forall_cons in Hall as [Hn _].
    rewrite Forall_forall in Hdim.
    rewrite (Hdim n) in Hn by (apply Hsub; left). done. }
  assert (Hnp : ∀ pool, (∀ n, n ∈ pool → n ∈ nodes) →
    np_array (n_embedding <$> pool) = Some (n_embedding <$> pool)).
  { intros pool Hsub. apply (np_array_Some _ D), Forall_fmap, Forall_forall.
    intros n Hn. rewrite Forall_forall in Hdim. by apply Hdim, Hsub. }
  unfold search_vector, load_nodes. rewrite (Hnp nodes) by done. simpl.
  rewrite bool_decide_eq_false_2
    by (intros ?%length_zero_iff_nil; done).
  split.
  - by rewrite Hcos.
  - intros key value.
    destruct (filter _ nodes) as [|n pool] eqn:Hpool; [done|].
    rewrite <- Hpool.
    assert (Hsub : ∀ m, m ∈ filter (λ n, metadata_get n key = value) nodes
                        → m ∈ nodes).
    { intros m Hm. by apply list_elem_of_filter in Hm as [_ ?]. }
    rewrite Hnp by done. simpl. rewrite Hcos; [done| |done].
    by rewrite Hpool.
Qed.
End SearchMore.

Definition ex_tagged_nodes : list node :=
  [Node 1 "a" "text a" {["type" := JStr "language"]} [1%R; 0%R];
   Node 2 "b" "text b" {["type" := JStr "framework"]} [0%R; 1%R];
   Node 3 "c" "text c" ∅ [1%R; 1%R]].

Definition ex_embed2 (_ : string) : list R := [1%R; 0%R].

Lemma search_vector_top_k_prefix_witness :
  ∃ res1 res2,
    search_vector ex_embed2 (load_nodes ex_tagged_nodes) "q" 1 None
      = Some res1 ∧
    search_vector ex_embed2 (load_nodes ex_tagged_nodes) "q" 2 None
      = Some res2 ∧
    res1 `prefix_of` res2.
Proof.
  apply (search_vector_top_k_prefix ex_embed2 ex_tagged_nodes "q" 1 2 None).
  - lia.
  - lia.
  - repeat constructor.
Defined.

Lemma search_vector_filter_sound_witness :
  ∃ res,
    search_vector ex_embed2 (load_nodes ex_tagged_nodes) "q" 5
      (Some ("type"%string, JNull)) = Some res ∧
    length res = 1%nat ∧
    ∀ r, r ∈ res → v_id r = 3.
Proof.
  destruct (search_vector_filter_sound ex_embed2 ex_tagged_nodes "q" 5
              "type" JNull) as (res & Hrun & Hall); [repeat constructor|].
  destruct (search_vector_length ex_embed2 ex_tagged_nodes "q" 5
              (Some ("type"%string, JNull)))
    as (res' & Hrun' & Hlen); [repeat constructor|].
  rewrite Hrun in Hrun'. injection Hrun' as <-.
  exists res. split; [exact Hrun|]. split; [exact Hlen|].
  intros r Hr. destruct (Hall r Hr) as (n & Hn & Hmeta & ->). simpl.
  apply elem_of_cons in Hn as [->|Hn];
    [destruct Hmeta as [Hm|[Hm _]]; vm_compute in Hm; discriminate Hm|].
  apply elem_of_cons in Hn as [->|Hn];
    [destruct Hmeta as [Hm|[Hm _]]; vm_compute in Hm; discriminate Hm|].
  apply elem_of_cons in Hn as [->|Hn]; [reflexivity|].
  by apply elem_of_nil in Hn.
Defined.

Lemma search_vector_dimension_error_witness :
  search_vector ex_embed (load_nodes ex_tagged_nodes) "q" 5 None = None ∧
  ∀ key value,
    search_vector ex_embed (load_nodes ex_tagged_nodes) "q" 5
      (Some (key, value))
    = match candidates ex_tagged_nodes (Some (key, value)) with
      | [] => Some []
      | _ => None
      end.
Proof.
  apply (search_vector_dimension_error ex_embed ex_tagged_nodes "q" 5 2).
  - discriminate.
  - repeat constructor.
  - simpl. lia.
Defined.

(** ** Hybrid search: fusion for any weight, the anchor, hops, names *)

Lemma next_or_none_Some {X Y} (p : X → bool) (f : X → Y) (l : list X) y :
  next_or_none p f l = Some y → ∃ x, x ∈ l ∧ p x = true ∧ f x = y.
Proof.
  unfold next_or_none. intros (x & Hx & ->)%fmap_Some.
  apply head_Some_elem_of, list_elem_of_filter in Hx as [Hp Hx]. eauto.
Qed.

Lemma next_or_none_None {X Y} (p : X → bool) (f : X → Y) (l : list X) :
  (∀ x, x ∈ l → p x = false) → next_or_none p f l = None.
Proof.
  intros Hall. unfold next_or_none.
  destruct (filter _ l) as [|x l'] eqn:Hf; [done|].
  assert (Hx : x ∈ filter (λ x, p x = true) l) by (rewrite Hf; left).
  apply list_elem_of_filter in Hx as [Hp Hx]. rewrite (Hall x Hx) in Hp. done.
Qed.

Lemma next_or_none_is_Some {X Y} (p : X → bool) (f : X → Y) (l : list X) x :
  x ∈ l → p x = true → is_Some (next_or_none p f l).
Proof.
  intros Hx Hp. unfold next_or_none.
  destruct (filter _ l) as [|x' l'] eqn:Hf; [|by eexists].
  assert (Hin : x ∈ filter (λ x, p x = true) l)
    by by apply list_elem_of_filter.
  rewrite Hf in Hin. by apply elem_of_nil in Hin.
Qed.

Section FusionMore.
Context `{ArgSort}.
Variable embed_text : string → list R.
Variable ADJ : gmap Z (list adj_entry).
Variable HNODES : list node.

(** The result for a [top_k] that is not negative: the merged entries of
    the vector candidates, rearranged in descending order of final
    score. *)
Lemma hybrid_search_entries nodes query top_k focus_id bfs_depth alpha
    vres best :
  0 ≤ top_k → NoDup (n_id <$> nodes) →
  search_vector embed_text (load_nodes nodes) query top_k None = Some vres →
  head vres = Some best →
  ∃ visited res,
    bfs ADJ (default (v_id best) focus_id) bfs_depth None = Some visited ∧
    hybrid_search embed_text ADJ (load_nodes nodes) HNODES query top_k
      focus_id bfs_depth alpha = Some res ∧
    res ≡ₚ fuse HNODES alpha visited <$> vres ∧
    desc final_score res.
Proof.
  intros Hk Hids Hrun Hbest.
  destruct (hybrid_search_sorted embed_text ADJ HNODES nodes query top_k
              focus_id bfs_depth alpha vres best Hk Hids Hrun Hbest)
    as (visited & Hbfs & Hh).
  exists visited, (sort_desc final_score (fuse HNODES alpha visited <$> vres)).
  split; [done|]. split; [done|]. split.
  - apply sort_desc_Permutation.
  - apply sort_desc_sorted.
Qed.

Lemma slice_to_elem {X} (k : Z) (l : list X) (x : X) :
  x ∈ slice_to k l → x ∈ l.
Proof.
  unfold slice_to.
  destruct (k <? 0);
    by intros (i & ?%list_elem_of_lookup_2 & _)%elem_of_take.
Qed.

(** For any [top_k], every entry of the result is the merged entry of a
    vector candidate. *)
Lemma hybrid_search_entries_any nodes query top_k focus_id bfs_depth alpha
    vres best :
  NoDup (n_id <$> nodes) →
  search_vector embed_text (load_nodes nodes) query top_k None = Some vres →
  head vres = Some best →
  ∃ visited res,
    bfs ADJ (default (v_id best) focus_id) bfs_depth None = Some visited ∧
    hybrid_search embed_text ADJ (load_nodes nodes) HNODES query top_k
      focus_id bfs_depth alpha = Some res ∧
    ∀ r, r ∈ res → r ∈ fuse HNODES alpha visited <$> vres.
Proof.
  intros Hids Hrun Hbest.
  destruct (hybrid_search_fused embed_text ADJ HNODES nodes query top_k
              focus_id bfs_depth alpha vres best Hids Hrun Hbest)
    as (visited & Hbfs & Hh).
  eexists visited, _. split; [done|]. split; [exact Hh|].
  intros r Hr%slice_to_elem. by rewrite sort_desc_Permutation in Hr.
Qed.

(** X11.  The fusion for any weight [alpha], a [top_k] that is not
    negative and distinct node ids: the result lists the vector
    candidates, each once and with its vector score, with its closeness to
    the anchor as graph score and
    [alpha * vector_score + (1 - alpha) * graph_score] as final score, in
    descending order of final score. *)
Theorem hybrid_search_weighted_fusion (nodes : list node) (query : string)
    (top_k : Z) (focus_id : option Z) (bfs_depth : Z) (alpha : R)
    (vres : list vhit) (best : vhit) :
  0 ≤ top_k → NoDup (n_id <$> nodes) →
  search_vector embed_text (load_nodes nodes) query top_k None = Some vres →
  head vres = Some best →
  ∃ (visited : list hit) (res : list result),
    bfs ADJ (default (v_id best) focus_id) bfs_depth None = Some visited ∧
    hybrid_search embed_text ADJ (load_nodes nodes) HNODES query top_k
      focus_id bfs_depth alpha = Some res ∧
    (λ r, (r_id r, r_vector_score r)) <$> res
      ≡ₚ (λ v, (v_id v, vector_score v)) <$> vres ∧
    NoDup (r_id <$> res) ∧
    (∀ r, r ∈ res →
       graph_closeness (r_id r) visited = Some (r_graph_score r) ∧
       final_score r
         = (alpha * r_vector_score r + (1 - alpha) * r_graph_score r)%R) ∧
    desc final_score res.
Proof.
  intros Hk Hids Hrun Hbest.
  destruct (hybrid_search_entries nodes query top_k focus_id bfs_depth alpha
              vres best Hk Hids Hrun Hbest)
    as (visited & res & Hbfs & Hh & Hperm & Hdesc).
  assert (Hne : vres ≠ []) by (intros ->; done).
  destruct (search_vector_shape embed_text _ _ _ _ Hids Hrun Hne)
    as (Hnd & _).
  assert (Hres : is_traversal_result visited) by (repeat eexists; done).
  exists visited, res. split; [done|]. split; [done|].
  split; [|split; [|split; [|done]]].
  - rewrite Hperm, <- list_fmap_compose. done.
  - rewrite Hperm, <- list_fmap_compose. exact Hnd.
  - intros r Hr. rewrite Hperm in Hr.
    apply list_elem_of_fmap in Hr as (v & -> & Hv). simpl.
    split; [|done]. unfold closeness_of.
    by destruct (graph_closeness_total (v_id v) visited Hres) as [g ->].
Qed.

(** X12.  The anchor of the traversal never scores on the graph side.
    For distinct node ids and any [top_k], an entry for the anchor node
    itself (the focus, or the best vector candidate when no focus is
    given) has graph score 0.0, no hop, and [alpha * vector_score] as
    final score.  When [top_k] is not negative and no focus is given,
    the best vector candidate is such an entry. *)
Theorem hybrid_search_anchor_unscored (nodes : list node) (query : string)
    (top_k : Z) (focus_id : option Z) (bfs_depth : Z) (alpha : R)
    (vres : list vhit) (best : vhit) :
  NoDup (n_id <$> nodes) →
  search_vector embed_text (load_nodes nodes) query top_k None = Some vres →
  head vres = Some best →
  ∃ res : list result,
    hybrid_search embed_text ADJ (load_nodes nodes) HNODES query top_k
      focus_id bfs_depth alpha = Some res ∧
    (∀ r, r ∈ res → r_id r = default (v_id best) focus_id →
       r_graph_score r = 0%R ∧ r_hop r = None ∧
       final_score r = (alpha * r_vector_score r)%R) ∧
    (0 ≤ top_k → focus_id = None →
       ∃ r, r ∈ res ∧ r_id r = v_id best ∧
            r_vector_score r = vector_score best).
Proof.
  intros Hids Hrun Hbest.
  destruct (hybrid_search_entries_any nodes query top_k focus_id bfs_depth
              alpha vres best Hids Hrun Hbest)
    as (visited & res & Hbfs & Hh & Hsub).
  destruct (bfs_hits ADJ (default (v_id best) focus_id) bfs_depth None)
    as (visited' & Hbfs' & _ & Hhits & _).
  rewrite Hbfs in Hbfs'. injection Hbfs' as <-.
  assert (Hout : default (v_id best) focus_id ∉ (hit_id <$> visited)).
  { intros (h & Hid & Hin)%list_elem_of_fmap.
    destruct (Hhits h Hin) as (Hne & _). done. }
  exists res. split; [done|]. split.
  - intros r Hr Hid. apply Hsub in Hr.
    apply list_elem_of_fmap in Hr as (v & -> & Hv). simpl in *.
    unfold closeness_of. rewrite Hid.
    rewrite graph_closeness_absent by done. simpl.
    split; [done|]. split; [|lra].
    apply next_or_none_None. intros h Hin. apply bool_decide_eq_false.
    intros Heq. apply Hout, list_elem_of_fmap. eauto.
  - intros Hk ->.
    destruct (hybrid_search_entries nodes query top_k None bfs_depth alpha
                vres best Hk Hids Hrun Hbest)
      as (visited' & res' & Hbfs' & Hh' & Hperm & _).
    rewrite Hh in Hh'. injection Hh' as <-.
    rewrite Hbfs in Hbfs'. injection Hbfs' as <-.
    exists (fuse HNODES alpha visited best).
    split; [|done]. rewrite Hperm. apply list_elem_of_fmap.
    exists best. split; [done|]. by apply head_Some_elem_of.
Qed.

(** X13.  The hop of an entry is the distance from the anchor in the
    adjacency map: for distinct node ids, any [top_k] and a depth bound
    that is not negative, a hop [h] is
    the length of a shortest walk from the anchor to the node and lies
    in [1..bfs_depth]; an entry without a hop has graph score 0.0 and is
    the anchor itself or a node no walk of at most [bfs_depth] edges
    reaches. *)
Theorem hybrid_search_hop_is_distance (nodes : list node) (query : string)
    (top_k : Z) (focus_id : option Z) (bfs_depth : Z) (alpha : R)
    (vres : list vhit) (best : vhit) :
  0 ≤ bfs_depth → NoDup (n_id <$> nodes) →
  search_vector embed_text (load_nodes nodes) query top_k None = Some vres →
  head vres = Some best →
  ∃ res : list result,
    hybrid_search embed_text ADJ (load_nodes nodes) HNODES query top_k
      focus_id bfs_depth alpha = Some res ∧
    ∀ r, r ∈ res →
      match r_hop r with
      | Some h =>
          0 < h ≤ bfs_depth ∧
          walk ADJ None (Z.to_nat h) (default (v_id best) focus_id) (r_id r) ∧
          ∀ n, walk ADJ None n (default (v_id best) focus_id) (r_id r) →
               h ≤ Z.of_nat n
      | None =>
          r_graph_score r = 0%R ∧
          (r_id r = default (v_id best) focus_id ∨
           ∀ n, walk ADJ None n (default (v_id best) focus_id) (r_id r) →
                bfs_depth < Z.of_nat n)
      end.
Proof.
  intros Hd Hids Hrun Hbest.
  destruct (hybrid_search_entries_any nodes query top_k focus_id bfs_depth
              alpha vres best Hids Hrun Hbest)
    as (visited & res & Hbfs & Hh & Hsub).
  set (focus := default (v_id best) focus_id) in *.
  destruct (bfs_hits ADJ focus bfs_depth None)
    as (visited' & Hbfs' & _ & Hhits & Hall & _).
  rewrite Hbfs in Hbfs'. injection Hbfs' as <-.
  exists res. split; [done|]. intros r Hr. apply Hsub in Hr.
  apply list_elem_of_fmap in Hr as (v & -> & Hv). simpl.
  destruct (next_or_none _ hit_hop visited) as [h|] eqn:Hhop.
  - apply next_or_none_Some in Hhop as (item & Hin & Hid & <-).
    apply bool_decide_eq_true in Hid. rewrite <- Hid.
    destruct (Hhits item Hin) as (_ & Hpos & Hle & Hw & Hmin).
    split; [split; [done|by apply Hle]|]. by split.
  - assert (Hout : v_id v ∉ (hit_id <$> visited)).
    { intros (item & Hid & Hin)%list_elem_of_fmap.
      destruct (next_or_none_is_Some
                  (λ item, bool_decide (hit_id item = v_id v))
                  hit_hop visited item Hin) as [h Hsome].
      - by apply bool_decide_eq_true.
      - rewrite Hsome in Hhop. done. }
    split.
    + unfold closeness_of. by rewrite graph_closeness_absent.
    + destruct (decide (v_id v = focus)) as [|Hne]; [by left|right].
      intros n Hw. destruct (Z_lt_le_dec bfs_depth (Z.of_nat n)); [done|].
      destruct (Hall n (v_id v) Hw Hne) as (item & Hin & Hid & _);
        [by right|].
      exfalso. apply Hout, list_elem_of_fmap. eauto.
Qed.

(** X14.  When the node file read by the fusion is the one the index was
    built from, with distinct node ids, every entry carries the name and
    the text of a node with its id, for any [top_k]. *)
Theorem hybrid_search_names (nodes : list node) (query : string)
    (top_k : Z) (focus_id : option Z) (bfs_depth : Z) (alpha : R)
    (vres : list vhit) (best : vhit) :
  HNODES = nodes → NoDup (n_id <$> nodes) →
  search_vector embed_text (load_nodes nodes) query top_k None = Some vres →
  head vres = Some best →
  ∃ res : list result,
    hybrid_search embed_text ADJ (load_nodes nodes) HNODES query top_k
      focus_id bfs_depth alpha = Some res ∧
    ∀ r, r ∈ res →
      ∃ n, n ∈ nodes ∧ n_id n = r_id r ∧
           r_name r = Some (n_name n) ∧ r_text r = Some (n_text n).
Proof.
  intros HN Hids Hrun Hbest.
  destruct (hybrid_search_entries_any nodes query top_k focus_id bfs_depth
              alpha vres best Hids Hrun Hbest)
    as (visited & res & Hbfs & Hh & Hsub).
  assert (Hne : vres ≠ []) by (intros ->; done).
  pose proof (search_vector_dims embed_text _ _ _ _ Hrun Hne) as Hdim.
  destruct (search_vector_selects embed_text nodes query top_k None Hdim)
    as (vres' & Hrun' & Hsel).
  rewrite Hrun in Hrun'. injection Hrun' as <-.
  exists res. split; [done|]. intros r Hr. apply Hsub in Hr.
  apply list_elem_of_fmap in Hr as (v & -> & Hv). simpl.
  apply list_elem_of_lookup_1 in Hv as [i Hi].
  destruct (Forall2_lookup_r _ _ _ _ _ Hsel Hi) as (idx & _ & Hv).
  unfold scored in Hv. rewrite list_lookup_fmap in Hv.
  apply fmap_Some in Hv as (n & Hn & ->).
  apply list_elem_of_lookup_2 in Hn. simpl in Hn. simpl.
  assert (Hfirst : ∃ m, head (filter
            (λ x, bool_decide (n_id x = n_id n) = true) HNODES) = Some m).
  { destruct (filter _ HNODES) as [|m l] eqn:Hf; [|by eexists].
    assert (Hin : n ∈ filter
              (λ x, bool_decide (n_id x = n_id n) = true) HNODES).
    { apply list_elem_of_filter. split; [by apply bool_decide_eq_true|].
      by rewrite HN. }
    rewrite Hf in Hin. by apply elem_of_nil in Hin. }
  destruct Hfirst as [m Hm].
  pose proof (head_Some_elem_of _ _ Hm) as Hmin.
  apply list_elem_of_filter in Hmin as [Hmid Hmin].
  apply bool_decide_eq_true in Hmid.
  exists m. rewrite <- HN. split; [done|]. split; [done|].
  unfold next_or_none. by rewrite Hm.
Qed.
End FusionMore.

Lemma ex_search_nonempty :
  ∃ best vres,
    search_vector ex_embed (load_nodes ex_nodes) "q" 5 None
      = Some (best :: vres).
Proof.
  destruct (search_vector_length ex_embed ex_nodes "q" 5 None)
    as (vres & Hrun & Hlen); [repeat constructor|].
  destruct vres as [|best vres]; [discriminate Hlen|]. eauto.
Defined.

Lemma hybrid_search_weighted_fusion_witness :
  ∃ (res : list result),
    hybrid_search ex_embed (build_ADJ ex_edges) (load_nodes ex_nodes)
      ex_nodes "q" 5 (Some 1) 2 0.7%R = Some res ∧
    NoDup (r_id <$> res) ∧
    (∀ r, r ∈ res →
       final_score r
         = (0.7 * r_vector_score r + (1 - 0.7) * r_graph_score r)%R) ∧
    desc final_score res.
Proof.
  destruct ex_search_nonempty as (best & vres & Hrun).
  destruct (hybrid_search_weighted_fusion ex_embed (build_ADJ ex_edges)
              ex_nodes ex_nodes "q" 5 (Some 1) 2 0.7%R (best :: vres) best)
    as (visited & res & _ & Hh & _ & Hnd & Hall & Hdesc).
  - lia.
  - exact ex_nodes_ids.
  - exact Hrun.
  - reflexivity.
  - exists res. split; [exact Hh|]. split; [exact Hnd|].
    split; [|exact Hdesc]. intros r Hr. apply (Hall r Hr).
Defined.

Lemma hybrid_search_anchor_unscored_witness :
  ∃ (res : list result),
    hybrid_search ex_embed (build_ADJ ex_edges) (load_nodes ex_nodes)
      ex_nodes "q" 5 (Some 1) 2 0.7%R = Some res ∧
    ∀ r, r ∈ res → r_id r = 1 →
      r_graph_score r = 0%R ∧ r_hop r = None.
Proof.
  destruct ex_search_nonempty as (best & vres & Hrun).
  destruct (hybrid_search_anchor_unscored ex_embed (build_ADJ ex_edges)
              ex_nodes ex_nodes "q" 5 (Some 1) 2 0.7%R (best :: vres) best)
    as (res & Hh & Hall & _).
  - exact ex_nodes_ids.
  - exact Hrun.
  - reflexivity.
  - exists res. split; [exact Hh|]. intros r Hr Hid.
    destruct (Hall r Hr Hid) as (? & ? & _). by split.
Defined.

Lemma hybrid_search_hop_is_distance_witness :
  ∃ (res : list result),
    hybrid_search ex_embed (build_ADJ ex_edges) (load_nodes ex_nodes)
      ex_nodes "q" 5 (Some 1) 2 0.7%R = Some res ∧
    ∀ r h, r ∈ res → r_hop r = Some h → 0 < h ≤ 2.
Proof.
  destruct ex_search_nonempty as (best & vres & Hrun).
  destruct (hybrid_search_hop_is_distance ex_embed (build_ADJ ex_edges)
              ex_nodes ex_nodes "q" 5 (Some 1) 2 0.7%R (best :: vres) best)
    as (res & Hh & Hall).
  - lia.
  - exact ex_nodes_ids.
  - exact Hrun.
  - reflexivity.
  - exists res. split; [exact Hh|]. intros r h Hr Hhop.
    specialize (Hall r Hr). rewrite Hhop in Hall. apply Hall.
Defined.

Lemma hybrid_search_names_witness :
  ∃ (res : list result),
    hybrid_search ex_embed (build_ADJ ex_edges) (load_nodes ex_nodes)
      ex_nodes "q" 5 None 2 0.7%R = Some res ∧
    ∀ r, r ∈ res → is_Some (r_name r) ∧ is_Some (r_text r).
Proof.
  destruct ex_search_nonempty as (best & vres & Hrun).
  destruct (hybrid_search_names ex_embed (build_ADJ ex_edges)
              ex_nodes ex_nodes "q" 5 None 2 0.7%R (best :: vres) best)
    as (res & Hh & Hall).
  - reflexivity.
  - exact ex_nodes_ids.
  - exact Hrun.
  - reflexivity.
  - exists res. split; [exact Hh|]. intros r Hr.
    destruct (Hall r Hr) as (n & _ & _ & -> & ->). by split.
Defined.

(** ** Node and edge endpoints *)

Import Api.

Lemma fold_left_max_ge (l : list Z) (a : Z) :
  a ≤ fold_left Z.max l a ∧ ∀ x, x ∈ l → x ≤ fold_left Z.max l a.
Proof.
  revert a. induction l as [|y l IH]; intros a; simpl.
  - split; [lia|]. intros x Hx. by apply elem_of_nil in Hx.
  - destruct (IH (Z.max a y)) as [Ha Hl]. split; [lia|].
    intros x [->|Hx]%elem_of_cons; [lia|by apply Hl].
Qed.

Lemma py_max_ge (l : list Z) (x : Z) : x ∈ l → x ≤ py_max l.
Proof.
  destruct l as [|y l]; [by intros ?%elem_of_nil|]. simpl.
  destruct (fold_left_max_ge l y) as [Hy Hl].
  intros [->|Hx]%elem_of_cons; [done|by apply Hl].
Qed.

(** Every stored edge has an id. *)
Definition has_ids (edges : list edge_rec) : Prop :=
  Forall (λ e, is_Some (er_id e)) edges.

Lemma edge_ids_Ok (edges : list edge_rec) :
  has_ids edges →
  ∃ ids, edge_ids edges = Ok ids ∧ er_id <$> edges = Some <$> ids.
Proof.
  intros Hids. unfold edge_ids.
  destruct (mapM er_id edges) as [ids|] eqn:Hm.
  - exists ids. split; [done|]. apply mapM_Some in Hm.
    induction Hm as [|e i edges ids He _ IH]; [done|].
    apply Forall_cons in Hids as [_ Hids]. rewrite !fmap_cons, He.
    f_equal. by apply IH.
  - assert (Hs : is_Some (mapM er_id edges)) by by apply mapM_is_Some.
    rewrite Hm in Hs. by destruct Hs.
Qed.

Lemma edge_ids_KeyError (edges : list edge_rec) :
  ¬ has_ids edges → edge_ids edges = KeyError.
Proof.
  intros Hn. unfold edge_ids.
  destruct (mapM er_id edges) as [ids|] eqn:Hm; [|done].
  exfalso. apply Hn. apply mapM_is_Some. by eexists.
Qed.

(** The id given to a new edge lies above every id in the file. *)
Lemma new_edge_id_above (edges : list edge_rec) (ids : list Z) :
  er_id <$> edges = Some <$> ids →
  ∀ e j, e ∈ edges → er_id e = Some j → j < py_max ids + 1.
Proof.
  intros Hids e j He Hj.
  assert (Hin : Some j ∈ (Some <$> ids)).
  { rewrite <- Hids, <- Hj. apply list_elem_of_fmap. eauto. }
  apply list_elem_of_fmap in Hin as (j' & [= ->] & Hin).
  pose proof (py_max_ge ids j' Hin). lia.
Qed.

Section ApiFacts.
Variable embed_text : string → list R.
Variable extract_relations : string → list triple.
Variable lower : string → string.

(** The edge a triple gives rise to, without its id: source, type, target
    and weight, when both names are found. *)
Definition resolved (nodes : list node) (t : triple)
    : option (Z * option string * Z * option R) :=
  s ← find_by_name lower nodes (lower (t_subject t));
  o ← find_by_name lower nodes (lower (t_object t));
  Some (n_id s, Some (t_relation t), n_id o, Some 1%R).

Definition edge_body (e : edge_rec) : Z * option string * Z * option R :=
  (er_source e, er_type e, er_target e, er_weight e).

(** Every id of [new] lies above the ids of [edges] and of the entries of
    [new] before it. *)
Definition ids_above (edges new : list edge_rec) : Prop :=
  ∀ pre e post, new = pre ++ e :: post →
    ∃ i, er_id e = Some i ∧
         ∀ e' j, e' ∈ edges ++ pre → er_id e' = Some j → j < i.

Lemma ids_above_nil edges : ids_above edges [].
Proof. intros pre e post Heq. by destruct pre. Qed.

Lemma ids_above_cons edges e new i :
  er_id e = Some i →
  (∀ e' j, e' ∈ edges → er_id e' = Some j → j < i) →
  ids_above (edges ++ [e]) new →
  ids_above edges (e :: new).
Proof.
  intros Hi Hlt Hnew pre x post Heq. destruct pre as [|y pre]; simpl in Heq.
  - injection Heq as <- <-. exists i. split; [done|].
    rewrite app_nil_r. exact Hlt.
  - injection Heq as <- ->.
    destruct (Hnew pre x post eq_refl) as (k & Hk & Hall).
    exists k. split; [done|]. intros e' j He'. apply Hall.
    by rewrite <- app_assoc.
Qed.

Lemma ids_above_NoDup edges new :
  has_ids edges → NoDup (er_id <$> edges) → ids_above edges new →
  NoDup (er_id <$> (edges ++ new)).
Proof.
  revert edges. induction new as [|e new IH]; intros edges Hids Hnd Hab.
  - by rewrite app_nil_r.
  - destruct (Hab [] e new eq_refl) as (i & Hi & Hlt).
    rewrite app_nil_r in Hlt.
    replace (edges ++ e :: new) with ((edges ++ [e]) ++ new)
      by by rewrite <- app_assoc.
    apply IH.
    + apply Forall_app. split; [done|]. apply Forall_singleton. by eexists.
    + rewrite fmap_app. apply NoDup_app. split; [done|]. split.
      * intros x Hx [->|[]%elem_of_nil]%elem_of_cons.
        apply list_elem_of_fmap in Hx as (e' & He' & Hin).
        rewrite Hi in He'. specialize (Hlt e' i Hin (eq_sym He')). lia.
      * apply NoDup_singleton.
    + intros pre x post Heq.
      destruct (Hab (e :: pre) x post) as (k & Hk & Hall);
        [by rewrite Heq|].
      exists k. split; [done|]. intros e' j He'. apply Hall.
      by rewrite <- app_assoc in He'.
Qed.

(** The loop over the triples, when every edge has an id. *)
Lemma auto_edges_spec nodes triples edges created :
  has_ids edges →
  ∃ new,
    auto_edges lower nodes triples (edges, created)
      = Ok (edges ++ new, created ++ new) ∧
    edge_body <$> new = omap (resolved nodes) triples ∧
    ids_above edges new.
Proof.
  revert edges created.
  induction triples as [|t triples IH]; intros edges created Hids.
  - exists []. rewrite !app_nil_r. split; [done|]. split; [done|].
    apply ids_above_nil.
  - simpl. unfold auto_edge, resolved. simpl.
    destruct (find_by_name lower nodes (lower (t_subject t)))
      as [s|] eqn:Hs; simpl; [|by apply IH].
    destruct (find_by_name lower nodes (lower (t_object t)))
      as [o|] eqn:Ho; simpl; [|by apply IH].
    destruct (edge_ids_Ok edges Hids) as (ids & -> & Hmap). simpl.
    set (e := EdgeRec (Some (py_max ids + 1)) (n_id s) (n_id o)
                (Some (t_relation t)) (Some 1%R)).
    destruct (IH (edges ++ [e]) (created ++ [e])) as (new & Hrun & Hb & Hab).
    { apply Forall_app. split; [done|]. apply Forall_singleton. by eexists. }
    exists (e :: new). rewrite Hrun.
    split; [by rewrite <- !app_assoc|]. split.
    + rewrite fmap_cons. by f_equal.
    + apply (ids_above_cons edges e new (py_max ids + 1)); [done| |done].
      by apply new_edge_id_above.
Qed.

Lemma find_by_name_elem nodes s n :
  find_by_name lower nodes s = Some n → n ∈ nodes.
Proof.
  unfold find_by_name. intros Hh.
  by apply head_Some_elem_of, list_elem_of_filter in Hh as [_ ?].
Qed.

Lemma create_node_run fs name text metadata :
  has_ids (EDGES_FILE fs) →
  let new := Node (py_max (n_id <$> NODES_FILE fs) + 1) name text metadata
               (embed_text text) in
  ∃ created,
    create_node embed_text extract_relations lower fs name text metadata
      = Ok (Files (NODES_FILE fs ++ [new]) (EDGES_FILE fs ++ created),
            (new, created)) ∧
    edge_body <$> created
      = omap (resolved (NODES_FILE fs ++ [new])) (extract_relations text) ∧
    ids_above (EDGES_FILE fs) created.
Proof.
  intros Hids new. unfold create_node. fold new.
  destruct (auto_edges_spec (NODES_FILE fs ++ [new]) (extract_relations text)
              (EDGES_FILE fs) [] Hids) as (created & -> & Hb & Hab).
  by exists created.
Qed.

Lemma head_filter_last {A} (P : A → Prop) `{∀ x, Decision (P x)}
    (l : list A) (x : A) :
  Forall (λ y, ¬ P y) l → P x → head (filter P (l ++ [x])) = Some x.
Proof.
  intros Hl Hx. rewrite filter_app.
  replace (filter P l) with (@nil A).
  - simpl. rewrite filter_cons_True by done. done.
  - symmetry. induction Hl as [|y l Hy _ IH]; [done|].
    by rewrite filter_cons_False.
Qed.

(** X15.  Creating a node and reading it back: when every stored edge
    has an id, [create_node] succeeds, the new node gets an id above every
    stored id, is appended to the node file with the name, text and
    metadata given and the embedding of its text, distinct node ids stay
    distinct, and [read_node] on the new id returns that node. *)
Theorem create_node_read_back (fs : files) (name text : string)
    (metadata : gmap string jvalue) :
  has_ids (EDGES_FILE fs) →
  ∃ fs' new created,
    create_node embed_text extract_relations lower fs name text metadata
      = Ok (fs', (new, created)) ∧
    new = Node (n_id new) name text metadata (embed_text text) ∧
    (∀ n, n ∈ NODES_FILE fs → n_id n < n_id new) ∧
    NODES_FILE fs' = NODES_FILE fs ++ [new] ∧
    (NoDup (n_id <$> NODES_FILE fs) → NoDup (n_id <$> NODES_FILE fs')) ∧
    read_node fs' (n_id new)
      = Ok (new, filter (incident (n_id new)) (EDGES_FILE fs')).
Proof.
  intros Hids.
  destruct (create_node_run fs name text metadata Hids)
    as (created & Hrun & _).
  set (new := Node (py_max (n_id <$> NODES_FILE fs) + 1) name text metadata
                (embed_text text)) in *.
  assert (Hlt : ∀ n, n ∈ NODES_FILE fs → n_id n < n_id new).
  { intros n Hn. simpl.
    assert (n_id n ≤ py_max (n_id <$> NODES_FILE fs)); [|lia].
    apply py_max_ge, list_elem_of_fmap. eauto. }
  eexists _, new, created. split; [exact Hrun|]. simpl.
  split; [done|]. split; [exact Hlt|]. split; [done|]. split.
  - intros Hnd. rewrite fmap_app. apply NoDup_app. split; [done|]. split.
    + intros x Hx [->|[]%elem_of_nil]%elem_of_cons.
      apply list_elem_of_fmap in Hx as (n & Hid & Hn).
      specialize (Hlt n Hn). simpl in *. lia.
    + apply NoDup_singleton.
  - unfold read_node. simpl.
    rewrite (head_filter_last (λ n, n_id n = n_id new)); [done| |done].
    apply Forall_forall. intros n Hn Heq. specialize (Hlt n Hn). lia.
Qed.

(** The first node of the list whose name is [x] in lower case. *)
Definition first_named (nodes : list node) (x : string) (s : node) : Prop :=
  ∃ pre post,
    nodes = pre ++ s :: post ∧ lower (n_name s) = x ∧
    Forall (λ n, lower (n_name n) ≠ x) pre.

(** No node of the list has the name [x] in lower case. *)
Definition unnamed (nodes : list node) (x : string) : Prop :=
  Forall (λ n, lower (n_name n) ≠ x) nodes.

(** The edges the triples give rise to, without their ids, in the order
    of the triples: a triple whose subject and object both name a node
    gives the edge from the first node named like the subject to the
    first node named like the object, typed with the relation, with
    weight 1.0; any other triple gives none. *)
Inductive derived (nodes : list node)
    : list triple → list (Z * option string * Z * option R) → Prop :=
  | derived_nil : derived nodes [] []
  | derived_edge t ts bs s o :
      first_named nodes (lower (t_subject t)) s →
      first_named nodes (lower (t_object t)) o →
      derived nodes ts bs →
      derived nodes (t :: ts)
        ((n_id s, Some (t_relation t), n_id o, Some 1%R) :: bs)
  | derived_skip t ts bs :
      unnamed nodes (lower (t_subject t)) ∨
      unnamed nodes (lower (t_object t)) →
      derived nodes ts bs →
      derived nodes (t :: ts) bs.

Lemma find_by_name_spec nodes x :
  match find_by_name lower nodes x with
  | Some s => first_named nodes x s
  | None => unnamed nodes x
  end.
Proof.
  unfold find_by_name, first_named, unnamed.
  induction nodes as [|n nodes IH]; simpl; [constructor|].
  destruct (decide (lower (n_name n) = x)) as [Hn|Hn].
  - rewrite filter_cons_True by done. simpl.
    exists [], nodes. by repeat split.
  - rewrite filter_cons_False by done.
    destruct (head (filter _ nodes)) as [s|].
    + destruct IH as (pre & post & -> & Hs & Hpre).
      exists (n :: pre), post. split; [done|]. split; [done|].
      by constructor.
    + by constructor.
Qed.

Lemma resolved_derived nodes triples :
  derived nodes triples (omap (resolved nodes) triples).
Proof.
  induction triples as [|t triples IH]; [constructor|].
  simpl. unfold resolved at 1.
  pose proof (find_by_name_spec nodes (lower (t_subject t))) as Hs.
  pose proof (find_by_name_spec nodes (lower (t_object t))) as Ho.
  destruct (find_by_name lower nodes (lower (t_subject t))) as [s|]; simpl;
    [|apply derived_skip; [by left|done]].
  destruct (find_by_name lower nodes (lower (t_object t))) as [o|]; simpl;
    [|apply derived_skip; [by right|done]].
  by apply derived_edge.
Qed.

(** X16.  The edges [create_node] derives from the text: they are
    appended to the edge file, one for each extracted triple whose
    subject and object both name a node of the new node list (names
    compared in lower case), in the order of the triples, from the first
    node named like the subject to the first node named like the object,
    typed with the relation, with weight 1.0.  So their endpoints are
    stored nodes, their ids lie above every id of the old file, and
    distinct edge ids stay distinct. *)
Theorem create_node_auto_edges (fs : files) (name text : string)
    (metadata : gmap string jvalue) :
  has_ids (EDGES_FILE fs) →
  ∃ fs' new created,
    create_node embed_text extract_relations lower fs name text metadata
      = Ok (fs', (new, created)) ∧
    EDGES_FILE fs' = EDGES_FILE fs ++ created ∧
    derived (NODES_FILE fs') (extract_relations text)
      ((λ e, (er_source e, er_type e, er_target e, er_weight e))
         <$> created) ∧
    (∀ e, e ∈ created →
       er_source e ∈ (n_id <$> NODES_FILE fs') ∧
       er_target e ∈ (n_id <$> NODES_FILE fs') ∧
       ∃ i, er_id e = Some i ∧
            ∀ e' j, e' ∈ EDGES_FILE fs → er_id e' = Some j → j < i) ∧
    (NoDup (er_id <$> EDGES_FILE fs) → NoDup (er_id <$> EDGES_FILE fs')).
Proof.
  intros Hids.
  destruct (create_node_run fs name text metadata Hids)
    as (created & Hrun & Hbody & Hab).
  set (new := Node (py_max (n_id <$> NODES_FILE fs) + 1) name text metadata
                (embed_text text)) in *.
  eexists _, new, created. split; [exact Hrun|]. simpl.
  split; [done|]. split; [|split].
  - change (λ e, (er_source e, er_type e, er_target e, er_weight e))
      with edge_body.
    rewrite Hbody. apply resolved_derived.
  - intros e He.
    assert (Hb : edge_body e ∈ omap (resolved (NODES_FILE fs ++ [new]))
                                 (extract_relations text)).
    { rewrite <- Hbody. apply list_elem_of_fmap. eauto. }
    apply list_elem_of_omap in Hb as (t & _ & Ht). unfold resolved in Ht.
    destruct (find_by_name _ _ (lower (t_subject t))) as [s|] eqn:Hs;
      [|done].
    destruct (find_by_name _ _ (lower (t_object t))) as [o|] eqn:Ho;
      [|done].
    simpl in Ht. injection Ht as Hsrc _ Htgt _.
    apply find_by_name_elem in Hs, Ho.
    split; [rewrite <- Hsrc; apply list_elem_of_fmap; eauto|].
    split; [rewrite <- Htgt; apply list_elem_of_fmap; eauto|].
    apply list_elem_of_split in He as (pre & post & ->).
    destruct (Hab pre e post eq_refl) as (i & Hi & Hall).
    exists i. split; [done|]. intros e' j He'. apply Hall.
    apply elem_of_app. by left.
  - intros Hnd. by apply ids_above_NoDup.
Qed.
End ApiFacts.

Section FilterFacts.
Context {A : Type}.

Lemma filter_ext_in (P Q : A → Prop) `{∀ x, Decision (P x)}
    `{∀ x, Decision (Q x)} (l : list A) :
  (∀ x, x ∈ l → P x ↔ Q x) → filter P l = filter Q l.
Proof.
  induction l as [|x l IH]; intros Hpq; [done|].
  assert (Hl : filter P l = filter Q l).
  { apply IH. intros y Hy. apply Hpq. by right. }
  destruct (decide (P x)) as [Hp|Hp].
  - rewrite !filter_cons_True by (done || by apply Hpq; [left|]).
    by rewrite Hl.
  - rewrite !filter_cons_False; [done| |done].
    intros Hq. apply Hp, Hpq; [left|done].
Qed.

Lemma filter_all (P : A → Prop) `{∀ x, Decision (P x)} (l : list A) :
  Forall P l → filter P l = l.
Proof.
  induction 1 as [|x l Hx _ IH]; [done|].
  rewrite filter_cons_True by done. by rewrite IH.
Qed.

Lemma filter_none (P : A → Prop) `{∀ x, Decision (P x)} (l : list A) :
  Forall (λ x, ¬ P x) l → filter P l = [].
Proof.
  induction 1 as [|x l Hx _ IH]; [done|].
  by rewrite filter_cons_False.
Qed.

Lemma length_filter_eq (P : A → Prop) `{∀ x, Decision (P x)} (l : list A) :
  length (filter P l) = length l ↔ Forall P l.
Proof.
  split.
  - intros Hlen. apply Forall_forall. intros x Hx.
    destruct (decide (P x)) as [|Hn]; [done|].
    pose proof (length_filter_lt P l x Hx Hn). lia.
  - intros Hall. by rewrite filter_all.
Qed.
End FilterFacts.

(** Referential integrity of the two files: both endpoints of every
    stored edge are ids of stored nodes. *)
Definition closed (fs : files) : Prop :=
  ∀ e, e ∈ EDGES_FILE fs →
    er_source e ∈ (n_id <$> NODES_FILE fs) ∧
    er_target e ∈ (n_id <$> NODES_FILE fs).

(** [e not in removed_edges] keeps the edges that do not touch the
    node. *)
Lemma delete_node_edges (id : Z) (edges : list edge_rec) :
  filter (λ e, e ∉ filter (incident id) edges) edges
  = filter (λ e, ¬ incident id e) edges.
Proof.
  apply filter_ext_in. intros e He. split.
  - intros Hn Hi. apply Hn. by apply list_elem_of_filter.
  - intros Hn [Hi _]%list_elem_of_filter. done.
Qed.

Lemma delete_node_found (fs : files) (id : Z) :
  id ∈ (n_id <$> NODES_FILE fs) →
  delete_node fs id
  = Ok (Files (filter (λ n, n_id n ≠ id) (NODES_FILE fs))
              (filter (λ e, ¬ incident id e) (EDGES_FILE fs))).
Proof.
  intros (n & Hid & Hn)%list_elem_of_fmap. unfold delete_node.
  rewrite decide_False.
  - by rewrite delete_node_edges.
  - intros Hall%length_filter_eq. rewrite Forall_forall in Hall.
    by apply (Hall n Hn).
Qed.

Lemma delete_node_missing (fs : files) (id : Z) :
  id ∉ (n_id <$> NODES_FILE fs) → delete_node fs id = HTTP404.
Proof.
  intros Hout. unfold delete_node. rewrite decide_True; [done|].
  apply length_filter_eq, Forall_forall. intros n Hn Hid.
  apply Hout, list_elem_of_fmap. eauto.
Qed.

Lemma delete_node_Ok (fs fs' : files) (id : Z) :
  delete_node fs id = Ok fs' →
  id ∈ (n_id <$> NODES_FILE fs) ∧
  fs' = Files (filter (λ n, n_id n ≠ id) (NODES_FILE fs))
              (filter (λ e, ¬ incident id e) (EDGES_FILE fs)).
Proof.
  intros Hrun.
  destruct (decide (id ∈ (n_id <$> NODES_FILE fs))) as [Hin|Hout].
  - rewrite delete_node_found in Hrun by done. by injection Hrun as <-.
  - by rewrite delete_node_missing in Hrun.
Qed.

Section LoopFacts.
Variable embed_text : string → list R.

(** The loop of [update_node] replaces the first node with the id. *)
Lemma update_node_loop_Some nodes id name text metadata nodes' n' :
  update_node_loop embed_text nodes id name text metadata
    = Some (nodes', n') →
  ∃ pre n post,
    nodes = pre ++ n :: post ∧ Forall (λ x, n_id x ≠ id) pre ∧
    n_id n = id ∧ n' = node_updated embed_text n name text metadata ∧
    nodes' = pre ++ n' :: post.
Proof.
  revert nodes' n'. induction nodes as [|x nodes IH]; intros nodes' n' Hrun;
    [done|].
  simpl in Hrun. destruct (decide (n_id x = id)) as [Hid|Hne].
  - injection Hrun as <- <-. by exists [], x, nodes.
  - destruct (update_node_loop _ nodes _ _ _ _) as [[rest' m]|] eqn:Hrest;
      [|done].
    simpl in Hrun. injection Hrun as <- <-.
    destruct (IH rest' m eq_refl) as (pre & n & post & -> & Hpre & Hn & -> & ->).
    exists (x :: pre), n, post. split; [done|].
    split; [by constructor|]. done.
Qed.

Lemma update_node_loop_None nodes id name text metadata :
  update_node_loop embed_text nodes id name text metadata = None ↔
  id ∉ (n_id <$> nodes).
Proof.
  induction nodes as [|x nodes IH]; simpl.
  - split; [intros _ Hin; by apply elem_of_nil in Hin|done].
  - destruct (decide (n_id x = id)) as [Hid|Hne].
    + split; [done|]. intros Hn. exfalso. apply Hn. rewrite Hid. left.
    + destruct (update_node_loop _ nodes _ _ _ _) as [[rest' m]|]; simpl.
      * split; [done|]. intros Hn. exfalso.
        apply not_elem_of_cons in Hn as [_ Hn]. by apply IH in Hn.
      * split; [|done]. intros _. apply not_elem_of_cons.
        split; [done|]. by apply IH.
Qed.

Lemma node_updated_id n name text metadata :
  n_id (node_updated embed_text n name text metadata) = n_id n.
Proof. by destruct name, text, metadata. Qed.
End LoopFacts.

(** The loop of [update_edge] replaces the first edge with the id; all
    edges before it have another id. *)
Lemma update_edge_loop_Ok edges id type weight edges' e' :
  update_edge_loop edges id type weight = Ok (edges', e') →
  ∃ pre e post,
    edges = pre ++ e :: post ∧
    Forall (λ x, ∃ i, er_id x = Some i ∧ i ≠ id) pre ∧
    er_id e = Some id ∧ e' = edge_updated e type weight ∧
    edges' = pre ++ e' :: post.
Proof.
  revert edges' e'. induction edges as [|x edges IH]; intros edges' e' Hrun;
    [done|].
  simpl in Hrun. destruct (er_id x) as [i|] eqn:Hi; [|done].
  destruct (decide (i = id)) as [->|Hne].
  - injection Hrun as <- <-. by exists [], x, edges.
  - destruct (update_edge_loop edges _ _ _) as [[rest' m]| |] eqn:Hrest;
      [|done..].
    simpl in Hrun. injection Hrun as <- <-.
    destruct (IH rest' m eq_refl) as (pre & e & post & -> & Hpre & He & -> & ->).
    exists (x :: pre), e, post. split; [done|].
    split; [constructor; eauto|]. done.
Qed.

Lemma edge_updated_fields e type weight :
  er_id (edge_updated e type weight) = er_id e ∧
  er_source (edge_updated e type weight) = er_source e ∧
  er_target (edge_updated e type weight) = er_target e ∧
  er_type (edge_updated e type weight)
    = match type with Some t => Some t | None => er_type e end ∧
  er_weight (edge_updated e type weight)
    = match weight with Some w => Some w | None => er_weight e end.
Proof. by destruct type, weight. Qed.

(** [find_edge] behind edges of other ids. *)
Lemma find_edge_skip pre rest id :
  Forall (λ x, ∃ i, er_id x = Some i ∧ i ≠ id) pre →
  find_edge (pre ++ rest) id = find_edge rest id.
Proof.
  induction 1 as [|x pre (i & Hi & Hne) _ IH]; [done|].
  simpl. rewrite Hi. by rewrite decide_False.
Qed.

Lemma find_edge_snoc_other edges e i j :
  er_id e = Some i → j ≠ i →
  find_edge (edges ++ [e]) j = find_edge edges j.
Proof.
  intros Hi Hne. induction edges as [|x edges IH]; simpl.
  - rewrite Hi. by rewrite decide_False.
  - destruct (er_id x) as [k|]; [|done]. by destruct (decide (k = j)).
Qed.

Lemma find_edge_not_404 edges id :
  ¬ has_ids edges → find_edge edges id ≠ HTTP404.
Proof.
  intros Hn. induction edges as [|x edges IH]; [by exfalso; apply Hn; constructor|].
  simpl. destruct (er_id x) as [i|] eqn:Hi; [|done].
  destruct (decide (i = id)); [done|]. apply IH. intros Hids. apply Hn.
  constructor; [by eexists|done].
Qed.

Lemma update_edge_loop_not_404 edges id type weight :
  ¬ has_ids edges → update_edge_loop edges id type weight ≠ HTTP404.
Proof.
  intros Hn. induction edges as [|x edges IH]; [by exfalso; apply Hn; constructor|].
  simpl. destruct (er_id x) as [i|] eqn:Hi; [|done].
  destruct (decide (i = id)); [done|].
  destruct (update_edge_loop edges _ _ _) as [r| |] eqn:Hr; [done| |done].
  exfalso. apply IH; [|done]. intros Hids. apply Hn.
  constructor; [by eexists|done].
Qed.

Section ApiInvariants.
Variable embed_text : string → list R.
Variable extract_relations : string → list triple.
Variable lower : string → string.

Lemma auto_edges_sound nodes triples edges created edges' created' :
  auto_edges lower nodes triples (edges, created) = Ok (edges', created') →
  ∃ new,
    edges' = edges ++ new ∧ created' = created ++ new ∧
    ∀ e, e ∈ new →
      er_source e ∈ (n_id <$> nodes) ∧ er_target e ∈ (n_id <$> nodes).
Proof.
  revert edges created.
  induction triples as [|t triples IH]; intros edges created Hrun.
  - injection Hrun as <- <-. exists []. rewrite !app_nil_r.
    split; [done|]. split; [done|]. intros e He. by apply elem_of_nil in He.
  - simpl in Hrun. unfold auto_edge in Hrun. simpl in Hrun.
    destruct (find_by_name lower nodes (lower (t_subject t)))
      as [s|] eqn:Hs; [|by apply IH].
    destruct (find_by_name lower nodes (lower (t_object t)))
      as [o|] eqn:Ho; [|by apply IH].
    destruct (edge_ids edges) as [ids| |]; [|done..]. simpl in Hrun.
    apply IH in Hrun as (new & -> & -> & Hall).
    eexists (_ :: new). rewrite <- !app_assoc.
    split; [done|]. split; [done|].
    intros e [->|He]%elem_of_cons; [|by apply Hall]. simpl.
    apply (find_by_name_elem lower) in Hs, Ho.
    split; apply list_elem_of_fmap; eauto.
Qed.

Lemma create_node_Ok fs name text metadata fs' r :
  create_node embed_text extract_relations lower fs name text metadata
    = Ok (fs', r) →
  let new := Node (py_max (n_id <$> NODES_FILE fs) + 1) name text metadata
               (embed_text text) in
  ∃ created,
    fs' = Files (NODES_FILE fs ++ [new]) (EDGES_FILE fs ++ created) ∧
    r = (new, created) ∧
    ∀ e, e ∈ created →
      er_source e ∈ (n_id <$> (NODES_FILE fs ++ [new])) ∧
      er_target e ∈ (n_id <$> (NODES_FILE fs ++ [new])).
Proof.
  intros Hrun new. unfold create_node in Hrun. fold new in Hrun.
  destruct (auto_edges _ _ _ _) as [[edges' created]| |] eqn:Hloop;
    [|done..].
  simpl in Hrun. injection Hrun as <- <-.
  apply auto_edges_sound in Hloop as (created' & -> & -> & Hall).
  by exists created'.
Qed.

Lemma update_node_Ok fs id name text metadata fs' n' :
  update_node embed_text fs id name text metadata = Ok (fs', n') →
  ∃ pre n post,
    NODES_FILE fs = pre ++ n :: post ∧ Forall (λ x, n_id x ≠ id) pre ∧
    n_id n = id ∧ n' = node_updated embed_text n name text metadata ∧
    fs' = Files (pre ++ n' :: post) (EDGES_FILE fs).
Proof.
  unfold update_node. intros Hrun.
  destruct (update_node_loop _ _ _ _ _ _) as [[nodes' m]|] eqn:Hloop;
    [|done].
  injection Hrun as <- <-.
  apply update_node_loop_Some in Hloop
    as (pre & n & post & Hn & Hpre & Hid & -> & ->).
  by exists pre, n, post.
Qed.

Lemma update_edge_Ok fs id type weight fs' e' :
  update_edge fs id type weight = Ok (fs', e') →
  ∃ pre e post,
    EDGES_FILE fs = pre ++ e :: post ∧
    Forall (λ x, ∃ i, er_id x = Some i ∧ i ≠ id) pre ∧
    er_id e = Some id ∧ e' = edge_updated e type weight ∧
    fs' = Files (NODES_FILE fs) (pre ++ e' :: post).
Proof.
  unfold update_edge. intros Hrun.
  destruct (update_edge_loop _ _ _ _) as [[edges' m]| |] eqn:Hloop;
    [|done..].
  simpl in Hrun. injection Hrun as <- <-.
  apply update_edge_loop_Ok in Hloop
    as (pre & e & post & He & Hpre & Hid & -> & ->).
  by exists pre, e, post.
Qed.

Lemma delete_edge_Ok fs id fs' :
  delete_edge fs id = Ok fs' →
  fs' = Files (NODES_FILE fs)
          (filter (λ e, er_id e ≠ Some id) (EDGES_FILE fs)).
Proof.
  unfold delete_edge. intros Hrun.
  destruct (edge_ids _) as [ids| |]; [|done..]. simpl in Hrun.
  destruct (decide _); [done|]. by injection Hrun as <-.
Qed.

(** X17.  Referential integrity is kept by every endpoint that writes,
    except [create_edge]: when both endpoints of every stored edge are
    stored nodes, the same holds after a successful [create_node],
    [update_node], [delete_node], [update_edge] or [delete_edge]. *)
Theorem referential_integrity_kept (fs : files) :
  closed fs →
  (∀ name text metadata fs' r,
     create_node embed_text extract_relations lower fs name text metadata
       = Ok (fs', r) → closed fs') ∧
  (∀ id name text metadata fs' n,
     update_node embed_text fs id name text metadata = Ok (fs', n) →
     closed fs') ∧
  (∀ id fs', delete_node fs id = Ok fs' → closed fs') ∧
  (∀ id type weight fs' e,
     update_edge fs id type weight = Ok (fs', e) → closed fs') ∧
  (∀ id fs', delete_edge fs id = Ok fs' → closed fs').
Proof.
  intros Hc. split; [|split; [|split; [|split]]].
  - intros name text metadata fs' r Hrun e He.
    apply create_node_Ok in Hrun as (created & -> & _ & Hall).
    simpl in *. apply elem_of_app in He as [Hin|Hin]; [|by apply Hall].
    rewrite fmap_app. destruct (Hc e Hin).
    split; apply elem_of_app; by left.
  - intros id name text metadata fs' n Hrun e He.
    apply update_node_Ok in Hrun
      as (pre & m & post & Hn & _ & Hid & -> & ->).
    simpl in *. specialize (Hc e He). rewrite Hn in Hc.
    rewrite fmap_app, fmap_cons in *. by rewrite node_updated_id.
  - intros id fs' Hrun e He.
    apply delete_node_Ok in Hrun as [_ ->]. simpl in *.
    apply list_elem_of_filter in He as [Hni Hin].
    destruct (Hc e Hin) as [(m & Hm & Hmin)%list_elem_of_fmap
                            (m' & Hm' & Hmin')%list_elem_of_fmap].
    split; apply list_elem_of_fmap; [exists m|exists m'];
      (split; [done|]); apply list_elem_of_filter; (split; [|done]);
      intros Heq; apply Hni; [left|right]; congruence.
  - intros id type weight fs' e' Hrun e He.
    apply update_edge_Ok in Hrun
      as (pre & x & post & Hx & _ & _ & -> & ->).
    simpl in *.
    destruct (edge_updated_fields x type weight) as (_ & Hs & Ht & _).
    apply elem_of_app in He as [Hin|[->|Hin]%elem_of_cons].
    + apply Hc. rewrite Hx. apply elem_of_app. by left.
    + rewrite Hs, Ht. apply Hc. rewrite Hx. apply elem_of_app. right. left.
    + apply Hc. rewrite Hx. apply elem_of_app. right. by right.
  - intros id fs' Hrun e He.
    apply delete_edge_Ok in Hrun as ->. simpl in *.
    apply list_elem_of_filter in He as [_ Hin]. by apply Hc.
Qed.
End ApiInvariants.

(** X18.  [create_edge] checks no endpoint: when every stored edge has an
    id it succeeds for any source and target, and the files are
    referentially intact afterwards exactly when both endpoints are ids
    of stored nodes. *)
Theorem create_edge_unchecked (fs : files) (source target : Z)
    (type : string) (weight : R) :
  closed fs → has_ids (EDGES_FILE fs) →
  ∃ fs' e,
    create_edge fs source target type weight = Ok (fs', e) ∧
    (closed fs' ↔
       source ∈ (n_id <$> NODES_FILE fs) ∧
       target ∈ (n_id <$> NODES_FILE fs)).
Proof.
  intros Hc Hids. unfold create_edge.
  destruct (edge_ids_Ok _ Hids) as (ids & -> & _). simpl.
  eexists _, _. split; [done|]. split.
  - intros Hc'. apply (Hc' (EdgeRec (Some (py_max ids + 1)) source target
                              (Some type) (Some weight))).
    simpl. apply elem_of_app. right. left.
  - intros [Hs Ht] e He. simpl in *.
    apply elem_of_app in He as [Hin|[->|[]%elem_of_nil]%elem_of_cons];
      [by apply Hc|done].
Qed.

(** X19.  Deleting a node cascades: for an id that is stored,
    [delete_node] removes every node with the id and every edge that
    touches it and keeps the rest in order; afterwards [read_node] on the
    id is a 404 and every other node reads as before, minus the removed
    edges.  For an id that is not stored the answer is 404. *)
Theorem delete_node_cascade (fs : files) (id : Z) :
  (id ∉ (n_id <$> NODES_FILE fs) → delete_node fs id = HTTP404) ∧
  (id ∈ (n_id <$> NODES_FILE fs) →
   ∃ fs',
     delete_node fs id = Ok fs' ∧
     NODES_FILE fs' = filter (λ n, n_id n ≠ id) (NODES_FILE fs) ∧
     EDGES_FILE fs' = filter (λ e, ¬ incident id e) (EDGES_FILE fs) ∧
     read_node fs' id = HTTP404 ∧
     ∀ m n es, m ≠ id → read_node fs m = Ok (n, es) →
       read_node fs' m = Ok (n, filter (λ e, ¬ incident id e) es)).
Proof.
  split; [apply delete_node_missing|].
  intros Hin. eexists. split; [by apply delete_node_found|]. simpl.
  split; [done|]. split; [done|]. split.
  - unfold read_node. simpl.
    rewrite (filter_none (λ n, n_id n = id)); [done|].
    apply Forall_forall. by intros n [? _]%list_elem_of_filter.
  - intros m n es Hne. unfold read_node. simpl.
    rewrite (list_filter_filter_l (λ n, n_id n = m) (λ n, n_id n ≠ id))
      by (intros; congruence).
    destruct (head _) as [n'|]; [|done]. intros [= -> <-]. f_equal. f_equal.
    rewrite !list_filter_filter. apply list_filter_iff. tauto.
Qed.

(** X20.  Creating an edge and reading it back: when every stored edge
    has an id, [create_edge] appends an edge with the fields given and an
    id above every stored id; [read_edge] on that id returns it, on any
    other id it answers as before, and [delete_edge] on that id restores
    the files. *)
Theorem create_edge_round_trip (fs : files) (source target : Z)
    (type : string) (weight : R) :
  has_ids (EDGES_FILE fs) →
  ∃ fs' i,
    let e := EdgeRec (Some i) source target (Some type) (Some weight) in
    create_edge fs source target type weight = Ok (fs', e) ∧
    (∀ e' j, e' ∈ EDGES_FILE fs → er_id e' = Some j → j < i) ∧
    NODES_FILE fs' = NODES_FILE fs ∧
    EDGES_FILE fs' = EDGES_FILE fs ++ [e] ∧
    read_edge fs' i = Ok e ∧
    (∀ j, j ≠ i → read_edge fs' j = read_edge fs j) ∧
    delete_edge fs' i = Ok fs.
Proof.
  intros Hids. unfold create_edge.
  destruct (edge_ids_Ok _ Hids) as (ids & -> & Hmap). simpl.
  set (i := py_max ids + 1).
  set (e := EdgeRec (Some i) source target (Some type) (Some weight)).
  pose proof (new_edge_id_above _ _ Hmap) as Hlt. fold i in Hlt.
  assert (Hpre : Forall (λ x, ∃ j, er_id x = Some j ∧ j ≠ i) (EDGES_FILE fs)).
  { apply Forall_forall. intros x Hx.
    unfold has_ids in Hids. rewrite Forall_forall in Hids.
    destruct (Hids x Hx) as [j Hj]. exists j. split; [done|].
    specialize (Hlt x j Hx Hj). lia. }
  eexists _, i. split; [done|]. simpl. split; [exact Hlt|].
  split; [done|]. split; [done|]. split; [|split].
  - unfold read_edge. simpl. rewrite find_edge_skip by done.
    simpl. by rewrite decide_True.
  - intros j Hne. unfold read_edge. simpl.
    by apply (find_edge_snoc_other _ e i).
  - unfold delete_edge. simpl.
    assert (Hids' : has_ids (EDGES_FILE fs ++ [e])).
    { apply Forall_app. split; [done|]. apply Forall_singleton.
      by eexists. }
    destruct (edge_ids_Ok _ Hids') as (ids' & -> & _). simpl.
    assert (Hf : filter (λ x, er_id x ≠ Some i) (EDGES_FILE fs ++ [e])
                 = EDGES_FILE fs).
    { rewrite filter_app, filter_all, filter_cons_False, filter_nil.
      - by rewrite app_nil_r.
      - simpl. by intros Hn.
      - eapply Forall_impl; [exact Hpre|].
        intros x (j & Hj & Hne). rewrite Hj. congruence. }
    rewrite Hf. rewrite decide_False.
    + by destruct fs.
    + rewrite length_app. simpl. lia.
Qed.

(** X21.  An edge without an id in the file (utils/build_dataset.py
    writes such edges) breaks the edge endpoints: [create_edge] and
    [delete_edge] raise a KeyError for every request, and [read_edge] and
    [update_edge] never answer 404: they find an edge with the id before
    the first edge without one, or raise. *)
Theorem edge_without_id_breaks_crud (fs : files) :
  ¬ has_ids (EDGES_FILE fs) →
  (∀ source target type weight,
     create_edge fs source target type weight = KeyError) ∧
  (∀ id, delete_edge fs id = KeyError) ∧
  (∀ id, read_edge fs id ≠ HTTP404) ∧
  (∀ id type weight, update_edge fs id type weight ≠ HTTP404).
Proof.
  intros Hn. split; [|split; [|split]].
  - intros. unfold create_edge. by rewrite edge_ids_KeyError.
  - intros. unfold delete_edge. by rewrite edge_ids_KeyError.
  - intros id. by apply find_edge_not_404.
  - intros id type weight. unfold update_edge.
    pose proof (update_edge_loop_not_404 _ id type weight Hn) as Hl.
    by destruct (update_edge_loop _ _ _ _).
Qed.

(** X22.  What [update_edge] changes: on success the first edge with the
    id, before which every edge has another id, is replaced in place; its
    id, source and target stay, type and weight are overwritten where
    given and kept where [None]; all other edges and the nodes are
    untouched, and [read_edge] on the id returns the updated edge. *)
Theorem update_edge_effect (fs fs' : files) (id : Z)
    (type : option string) (weight : option R) (e' : edge_rec) :
  update_edge fs id type weight = Ok (fs', e') →
  ∃ pre e post,
    EDGES_FILE fs = pre ++ e :: post ∧
    Forall (λ x, ∃ i, er_id x = Some i ∧ i ≠ id) pre ∧
    e' = EdgeRec (Some id) (er_source e) (er_target e)
           (match type with Some t => Some t | None => er_type e end)
           (match weight with Some w => Some w | None => er_weight e end) ∧
    er_id e = Some id ∧
    EDGES_FILE fs' = pre ++ e' :: post ∧
    NODES_FILE fs' = NODES_FILE fs ∧
    read_edge fs' id = Ok e'.
Proof.
  intros Hrun.
  apply update_edge_Ok in Hrun as (pre & e & post & He & Hpre & Hid & -> & ->).
  exists pre, e, post. split; [done|]. split; [done|].
  assert (Heq : edge_updated e type weight
    = EdgeRec (Some id) (er_source e) (er_target e)
        (match type with Some t => Some t | None => er_type e end)
        (match weight with Some w => Some w | None => er_weight e end)).
  { destruct e as [i s t ty w]. simpl in Hid. subst i.
    by destruct type, weight. }
  split; [done|]. split; [done|]. split; [done|]. split; [done|].
  unfold read_edge. simpl. rewrite find_edge_skip by done.
  rewrite Heq. simpl. by rewrite decide_True.
Qed.

Section NodeFacts.
Variable embed_text : string → list R.
Variable extract_relations : string → list triple.
Variable lower : string → string.

(** Every stored embedding is the embedding of the stored text. *)
Definition embedded (fs : files) : Prop :=
  Forall (λ n, n_embedding n = embed_text (n_text n)) (NODES_FILE fs).

(** X23.  Embeddings stay in step with the texts: when every stored
    node's embedding is the embedding of its text, the same holds after a
    successful [create_node], [update_node] (which re-embeds exactly when
    it changes the text) or [delete_node]. *)
Theorem embeddings_follow_text (fs : files) :
  embedded fs →
  (∀ name text metadata fs' r,
     create_node embed_text extract_relations lower fs name text metadata
       = Ok (fs', r) → embedded fs') ∧
  (∀ id name text metadata fs' n,
     update_node embed_text fs id name text metadata = Ok (fs', n) →
     embedded fs') ∧
  (∀ id fs', delete_node fs id = Ok fs' → embedded fs').
Proof.
  unfold embedded. intros He. split; [|split].
  - intros name text metadata fs' r Hrun.
    apply create_node_Ok in Hrun as (created & -> & _). simpl.
    apply Forall_app. split; [done|]. by apply Forall_singleton.
  - intros id name text metadata fs' n Hrun.
    apply update_node_Ok in Hrun
      as (pre & m & post & Hn & _ & _ & -> & ->). simpl.
    rewrite Hn in He. apply Forall_app in He as [Hpre Hpost].
    apply Forall_cons in Hpost as [Hm Hpost].
    apply Forall_app. split; [done|]. apply Forall_cons. split; [|done].
    by destruct name, text, metadata.
  - intros id fs' Hrun. apply delete_node_Ok in Hrun as [_ ->]. simpl.
    apply Forall_forall. intros n [_ Hn]%list_elem_of_filter.
    rewrite Forall_forall in He. by apply He.
Qed.

(** X24.  What [update_node] changes: it answers 404 exactly when no
    stored node has the id; on success the first node with the id is
    replaced in place, keeping its id, with name, text and metadata
    overwritten where given, and the embedding recomputed from the new
    text when a text is given; all other nodes and the edges are
    untouched, and [read_node] on the id returns the updated node. *)
Theorem update_node_effect (fs : files) (id : Z) (name text : option string)
    (metadata : option (gmap string jvalue)) :
  (update_node embed_text fs id name text metadata = HTTP404
   ↔ id ∉ (n_id <$> NODES_FILE fs)) ∧
  ∀ fs' n',
    update_node embed_text fs id name text metadata = Ok (fs', n') →
    ∃ pre n post,
      NODES_FILE fs = pre ++ n :: post ∧
      Forall (λ x, n_id x ≠ id) pre ∧ n_id n = id ∧
      n' = Node id (default (n_name n) name) (default (n_text n) text)
             (default (n_metadata n) metadata)
             (match text with
              | Some s => embed_text s
              | None => n_embedding n
              end) ∧
      NODES_FILE fs' = pre ++ n' :: post ∧
      EDGES_FILE fs' = EDGES_FILE fs ∧
      read_node fs' id = Ok (n', filter (incident id) (EDGES_FILE fs)).
Proof.
  split.
  - unfold update_node.
    destruct (update_node_loop _ _ _ _ _ _) as [[nodes' m]|] eqn:Hloop.
    + split; [done|]. intros Hn.
      apply (update_node_loop_None embed_text _ _ name text metadata) in Hn.
      congruence.
    + split; [|done]. intros _.
      by apply (update_node_loop_None embed_text _ _ name text metadata).
  - intros fs' n' Hrun.
    apply update_node_Ok in Hrun
      as (pre & n & post & Hn & Hpre & Hid & -> & ->).
    exists pre, n, post. split; [done|]. split; [done|]. split; [done|].
    assert (Heq : node_updated embed_text n name text metadata
      = Node id (default (n_name n) name) (default (n_text n) text)
          (default (n_metadata n) metadata)
          (match text with
           | Some s => embed_text s
           | None => n_embedding n
           end)).
    { destruct n as [i nm tx md em]. simpl in Hid. subst i.
      by destruct name, text, metadata. }
    split; [done|]. split; [done|]. split; [done|].
    unfold read_node. simpl. rewrite filter_app.
    rewrite (filter_none (λ x, n_id x = id)) by done. simpl.
    rewrite filter_cons_True by (by rewrite Heq). done.
Qed.
End NodeFacts.

Section KeyErrorFacts.
Variable embed_text : string → list R.
Variable extract_relations : string → list triple.
Variable lower : string → string.

Lemma auto_edges_without_id nodes triples edges created :
  ¬ has_ids edges →
  auto_edges lower nodes triples (edges, created)
  = match omap (resolved lower nodes) triples with
    | [] => Ok (edges, created)
    | _ => KeyError
    end.
Proof.
  intros Hn. induction triples as [|t triples IH]; [done|].
  simpl. unfold auto_edge, resolved. simpl.
  destruct (find_by_name lower nodes (lower (t_subject t))) as [s|];
    simpl; [|exact IH].
  destruct (find_by_name lower nodes (lower (t_object t))) as [o|];
    simpl; [|exact IH].
  by rewrite edge_ids_KeyError.
Qed.

(** X25.  With an edge without an id in the file, [create_node] raises a
    KeyError exactly when the text yields a triple whose subject and
    object both name a node; otherwise it stores the node and creates no
    edge. *)
Theorem create_node_key_error (fs : files) (name text : string)
    (metadata : gmap string jvalue) :
  ¬ has_ids (EDGES_FILE fs) →
  let new := Node (py_max (n_id <$> NODES_FILE fs) + 1) name text metadata
               (embed_text text) in
  let nodes := NODES_FILE fs ++ [new] in
  ((∃ t, t ∈ extract_relations text ∧ is_Some (resolved lower nodes t)) →
   create_node embed_text extract_relations lower fs name text metadata
     = KeyError) ∧
  ((∀ t, t ∈ extract_relations text → resolved lower nodes t = None) →
   create_node embed_text extract_relations lower fs name text metadata
     = Ok (Files nodes (EDGES_FILE fs), (new, []))).
Proof.
  intros Hn new nodes. unfold create_node. fold new. fold nodes.
  rewrite auto_edges_without_id by done. split.
  - intros (t & Ht & [b Hb]).
    destruct (omap _ _) as [|x l] eqn:Ho; [|done].
    assert (Hin : b ∈ omap (resolved lower nodes) (extract_relations text)).
    { apply list_elem_of_omap. eauto. }
    rewrite Ho in Hin. by apply elem_of_nil in Hin.
  - intros Hall.
    destruct (omap _ _) as [|x l] eqn:Ho; [done|].
    assert (Hin : x ∈ omap (resolved lower nodes) (extract_relations text)).
    { rewrite Ho. left. }
    apply list_elem_of_omap in Hin as (t & Ht & Hx).
    rewrite (Hall t Ht) in Hx. done.
Qed.
End KeyErrorFacts.

(** ** The graph endpoint *)

(** With a one-type filter every entry of a traversal came by an edge of
    that type. *)
Lemma bfs_single_type ADJ (start_id max_depth : Z) (s : string) res r :
  bfs ADJ start_id max_depth (Some [s]) = Some res → r ∈ res →
  hit_edge r = Some s.
Proof.
  intros Hb Hr.
  destruct (bfs_trace ADJ max_depth (Some [s]) start_id)
    as (res' & Hb' & _ & trace & Hinv & Htr).
  rewrite Hb in Hb'. injection Hb' as <-.
  destruct (result_elem_trace _ _ _ _ Htr Hr) as (i & x & _ & Hx & ->).
  destruct (ti_parent _ _ _ _ _ _ Hinv _ _ Hx)
    as (j & p & e & _ & _ & _ & _ & He & Hedge & _).
  apply first_edge_to_Some in He as (_ & Ha & _).
  unfold allowed, type_skipped in Ha. simpl in Ha.
  apply negb_false_iff, bool_decide_eq_true in Ha.
  apply list_elem_of_singleton in Ha. change (hit_edge (hit_of x)) with (q_edge x).
  by rewrite Hedge, Ha.
Qed.

(** X26.  GET /search/graph never answers 500.  With a [rel_type] that
    is not empty, every entry visited came by an edge of that type and
    lies at the end of a walk of that many edges of that type from the
    start; an empty [rel_type] gives the traversal of no [rel_type]. *)
Theorem graph_search_rel_type (ADJ : gmap Z (list adj_entry))
    (start_id depth : Z) :
  (∀ rel_type, graph_search ADJ start_id depth rel_type ≠ Error500) ∧
  (∀ s, s ≠ EmptyString →
     ∃ visited,
       graph_search ADJ start_id depth (Some s)
         = Visited start_id depth (Some s) visited ∧
       ∀ r, r ∈ visited →
         hit_edge r = Some s ∧
         walk ADJ (Some [s]) (Z.to_nat (hit_hop r)) start_id (hit_id r)) ∧
  (∃ visited,
     graph_search ADJ start_id depth (Some EmptyString)
       = Visited start_id depth (Some EmptyString) visited ∧
     graph_search ADJ start_id depth None
       = Visited start_id depth None visited).
Proof.
  split; [|split].
  - intros rel_type. unfold graph_search.
    match goal with
    | |- context [bfs ADJ start_id depth ?a] =>
        destruct (bfs_hits ADJ start_id depth a) as (res & -> & _)
    end.
    done.
  - intros s Hs. unfold graph_search. rewrite decide_False by done.
    destruct (bfs_hits ADJ start_id depth (Some [s]))
      as (res & Hb & _ & Hhits & _).
    rewrite Hb. exists res. split; [done|]. intros r Hr.
    split; [by eapply bfs_single_type|].
    by destruct (Hhits r Hr) as (_ & _ & _ & Hw & _).
  - unfold graph_search. rewrite decide_True by done.
    destruct (bfs_hits ADJ start_id depth None) as (res & -> & _).
    by exists res.
Qed.

(** X27.  An edge made by [create_edge] is traversed once the graph
    index is built from the file again: for distinct endpoints and a
    depth of at least 1, GET /search/graph from the source, without a
    [rel_type] or with the type of the edge, visits the target at hop 1,
    and from the target it visits the source at hop 1. *)
Theorem created_edge_is_traversed (fs : files) (source target : Z)
    (type : string) (weight : R) (depth : Z) (rel_type : option string) :
  has_ids (EDGES_FILE fs) → source ≠ target → 1 ≤ depth →
  rel_type = None ∨ rel_type = Some type →
  ∃ fs' e,
    create_edge fs source target type weight = Ok (fs', e) ∧
    ∀ u v, (u = source ∧ v = target) ∨ (u = target ∧ v = source) →
      ∃ visited r,
        graph_search (build_ADJ (edge_of <$> EDGES_FILE fs')) u depth
          rel_type = Visited u depth rel_type visited ∧
        r ∈ visited ∧ hit_id r = v ∧ hit_hop r = 1.
Proof.
  intros Hids Hne Hd Hrel. unfold create_edge.
  destruct (edge_ids_Ok _ Hids) as (ids & -> & _). simpl.
  set (e := EdgeRec (Some (py_max ids + 1)) source target (Some type)
              (Some weight)).
  eexists _, e. split; [done|]. simpl.
  set (ADJ := build_ADJ (edge_of <$> (EDGES_FILE fs ++ [e]))).
  unfold graph_search.
  set (allowed_types :=
    match rel_type with
    | Some s => if decide (s = EmptyString) then None else Some [s]
    | None => None
    end).
  assert (Hin : edge_of e ∈ (edge_of <$> (EDGES_FILE fs ++ [e]))).
  { apply list_elem_of_fmap. exists e. split; [done|].
    apply elem_of_app. right. left. }
  assert (Hal : type_skipped allowed_types type = false).
  { unfold allowed_types.
    destruct Hrel as [->| ->]; [done|].
    destruct (decide (type = EmptyString)); [done|].
    unfold type_skipped. simpl. rewrite bool_decide_eq_true_2; [done|left]. }
  assert (Hst : step ADJ allowed_types source target).
  { exists (AdjEntry target type weight). split; [|done].
    unfold ADJ. rewrite adj_get_build_ADJ.
    apply elem_of_flat_map_entries. exists (edge_of e).
    split; [done|]. apply (forward_entry_at (edge_of e)). }
  assert (Hw : ∀ u v, (u = source ∧ v = target) ∨ (u = target ∧ v = source) →
                 u ≠ v ∧ walk ADJ allowed_types 1 u v).
  { intros u v [[-> ->]|[-> ->]]; (split; [done|]).
    - eapply walk_step; [exact Hst|constructor].
    - eapply walk_step; [|constructor]. by apply build_ADJ_step_sym. }
  intros u v Huv. destruct (Hw u v Huv) as [Huv' Hwalk].
  destruct (bfs_hits ADJ u depth allowed_types)
    as (res & -> & _ & Hhits & Hall & _).
  destruct (Hall 1%nat v Hwalk) as (r & Hr & Hid & Hhop);
    [congruence|right; lia|].
  exists res, r. split; [done|]. split; [done|]. split; [done|].
  destruct (Hhits r Hr) as (_ & Hpos & _). lia.
Qed.

(** ** Relation extraction *)

Import RelationExtractor.

Section ExtractorFacts.
Variable sent_tokenize : string → option (list string).
Variable word_tokenize : string → option (list string).
Variable pos_tag : list string → option (list (string * string)).
Variable lower : string → string.
Variable fallback : string → option (list triple).

(** Three tagged words in a row, at some position of some sentence of
    the text whose tagging succeeded. *)
Definition window_of (text : string) (x1 x2 x3 : string * string) : Prop :=
  ∃ sentences sent tokens tagged i,
    sent_tokenize text = Some sentences ∧ sent ∈ sentences ∧
    word_tokenize sent = Some tokens ∧ pos_tag tokens = Some tagged ∧
    tagged !! i = Some x1 ∧ tagged !! S i = Some x2 ∧
    tagged !! S (S i) = Some x3.

Lemma scan_windows tagged t :
  t ∈ scan lower tagged →
  ∃ pre post i x1 x2 x3,
    scan lower tagged = pre ++ patterns lower x1 x2 x3 ++ post ∧
    t ∈ patterns lower x1 x2 x3 ∧
    tagged !! i = Some x1 ∧ tagged !! S i = Some x2 ∧
    tagged !! S (S i) = Some x3.
Proof.
  induction tagged as [|x1 rest IH]; [by intros ?%elem_of_nil|].
  simpl. destruct rest as [|x2 [|x3 rest']];
    [by intros ?%elem_of_nil..|].
  intros [Ht|Ht]%elem_of_app.
  - exists [], (scan lower (x2 :: x3 :: rest')), 0%nat, x1, x2, x3.
    by repeat split.
  - destruct (IH Ht) as (pre & post & i & y1 & y2 & y3 & Heq & Hin & H1 & H2 & H3).
    exists (patterns lower x1 x2 x3 ++ pre), post, (S i), y1, y2, y3.
    rewrite Heq, <- app_assoc. by repeat split.
Qed.

Lemma sentences_loop_windows sentences acc out t :
  sentences_loop word_tokenize pos_tag lower sentences acc = Some out →
  t ∈ out →
  (∃ post, out = acc ++ post ∧ t ∈ acc) ∨
  ∃ pre post sent tokens tagged i x1 x2 x3,
    out = pre ++ patterns lower x1 x2 x3 ++ post ∧
    t ∈ patterns lower x1 x2 x3 ∧
    sent ∈ sentences ∧
    word_tokenize sent = Some tokens ∧ pos_tag tokens = Some tagged ∧
    tagged !! i = Some x1 ∧ tagged !! S i = Some x2 ∧
    tagged !! S (S i) = Some x3.
Proof.
  revert acc. induction sentences as [|sent rest IH]; intros acc Hrun Ht.
  - injection Hrun as <-. left. exists []. by rewrite app_nil_r.
  - simpl in Hrun.
    destruct (word_tokenize sent) as [tokens|] eqn:Htok; [|done].
    simpl in Hrun.
    destruct (pos_tag tokens) as [tagged|] eqn:Htag.
    + destruct (IH _ Hrun Ht) as [(post & -> & Hin)|Hw].
      * apply elem_of_app in Hin as [Hin|Hin].
        -- left. exists (scan lower tagged ++ post).
           by rewrite app_assoc.
        -- right.
           destruct (scan_windows tagged t Hin)
             as (pre & post' & i & x1 & x2 & x3 & Heq & Hp & H1 & H2 & H3).
           exists (acc ++ pre), (post' ++ post), sent, tokens, tagged, i,
             x1, x2, x3.
           rewrite Heq, <- !app_assoc.
           repeat split; try done. left.
      * right.
        destruct Hw as (pre & post & s & tk & tg & i & x1 & x2 & x3 & Heq
                        & Hp & Hs & Hrest).
        exists pre, post, s, tk, tg, i, x1, x2, x3.
        split; [done|]. split; [done|]. split; [by right|done].
    + destruct (IH _ Hrun Ht) as [Hl|Hw]; [by left|right].
      destruct Hw as (pre & post & s & tk & tg & i & x1 & x2 & x3 & Heq
                      & Hp & Hs & Hrest).
      exists pre, post, s, tk, tg, i, x1, x2, x3.
      split; [done|]. split; [done|]. split; [by right|done].
Qed.

(** Every triple extracted with NLTK comes from the patterns on some
    window of the text, whose triples are a segment of the output. *)
Lemma extract_relations_windows text t :
  t ∈ extract_relations sent_tokenize word_tokenize pos_tag lower
        fallback true text →
  ∃ pre post x1 x2 x3,
    extract_relations sent_tokenize word_tokenize pos_tag lower
      fallback true text
    = pre ++ patterns lower x1 x2 x3 ++ post ∧
    t ∈ patterns lower x1 x2 x3 ∧ window_of text x1 x2 x3.
Proof.
  unfold extract_relations, _extract_with_nltk.
  destruct (sent_tokenize text) as [sentences|] eqn:Hs;
    [|by intros ?%elem_of_nil].
  simpl.
  destruct (sentences_loop _ _ _ _ _) as [out|] eqn:Hrun;
    [|by intros ?%elem_of_nil].
  simpl. intros Ht.
  destruct (sentences_loop_windows _ _ _ _ Hrun Ht)
    as [(_ & _ & Hin)|Hw]; [by apply elem_of_nil in Hin|].
  destruct Hw as (pre & post & s & tk & tg & i & x1 & x2 & x3 & Heq
                  & Hp & Hsent & Htok & Htag & H1 & H2 & H3).
  exists pre, post, x1, x2, x3. split; [done|]. split; [done|].
  by exists sentences, s, tk, tg, i.
Qed.
(** What a pattern emits. *)
Lemma patterns_elem w1 t1 w2 t2 w3 t3 t :
  t ∈ patterns lower (w1, t1) (w2, t2) (w3, t3) →
  t = Triple w1 (lower w2) w3 ∧
  startswith t1 "NN" = true ∧
  (startswith t3 "NN" = true ∨ startswith t3 "JJ" = true) ∧
  ((startswith t2 "VB" = true ∧ startswith t3 "NN" = true) ∨
   lower w2 ∈ RELATION_VERBS).
Proof.
  unfold patterns. intros Ht.
  repeat (apply elem_of_app in Ht as [Ht|Ht]);
    match type of Ht with
    | _ ∈ (if ?c then _ else _) => destruct c eqn:Hc
    end;
    try (by apply elem_of_nil in Ht);
    apply list_elem_of_singleton in Ht; subst t;
    repeat (apply andb_true_iff in Hc as [Hc ?]);
    (split; [done|]); (split; [done|]).
  - split; [by left|]. left. by split.
  - split.
    + match goal with
      | H : _ || _ = true |- _ => apply orb_true_iff in H as [?|?]
      end; [by right|by left].
    + right.
      match goal with
      | H : bool_decide _ = true |- _ => apply bool_decide_eq_true in H
      end.
      unfold RELATION_VERBS. set_solver.
  - split.
    + match goal with
      | H : _ || _ = true |- _ => apply orb_true_iff in H as [?|?]
      end; [by left|by right].
    + right.
      match goal with
      | H : bool_decide _ = true |- _ => by apply bool_decide_eq_true in H
      end.
Qed.

(** A window that emits a triple with a form of "to be" as relation
    emits it by the second and by the third pattern. *)
Lemma patterns_copula x1 x2 x3 t :
  t ∈ patterns lower x1 x2 x3 →
  t_relation t ∈ ["is"; "are"; "was"; "were"]%string →
  ∃ l1, patterns lower x1 x2 x3 = l1 ++ [t; t].
Proof.
  destruct x1 as [w1 t1], x2 as [w2 t2], x3 as [w3 t3]. intros Ht Hrel.
  destruct (patterns_elem _ _ _ _ _ _ _ Ht) as (-> & Hn & Ho & _).
  simpl in Hrel. unfold patterns. rewrite Hn. simpl.
  rewrite (bool_decide_eq_true_2 _ Hrel).
  assert (Hverb : lower w2 ∈ RELATION_VERBS)
    by (unfold RELATION_VERBS; set_solver).
  rewrite (bool_decide_eq_true_2 _ Hverb). simpl.
  replace (startswith t3 "JJ" || startswith t3 "NN") with true
    by (destruct Ho as [-> | ->]; by rewrite ?orb_true_r).
  replace (startswith t3 "NN" || startswith t3 "JJ") with true
    by (destruct Ho as [-> | ->]; by rewrite ?orb_true_r).
  by eexists.
Qed.

Lemma extract_relations_copula text t :
  t ∈ extract_relations sent_tokenize word_tokenize pos_tag lower
        fallback true text →
  t_relation t ∈ ["is"; "are"; "was"; "were"]%string →
  ∃ l1 l2,
    extract_relations sent_tokenize word_tokenize pos_tag lower
      fallback true text = l1 ++ t :: t :: l2.
Proof.
  intros Ht Hrel.
  destruct (extract_relations_windows text t Ht)
    as (pre & post & x1 & x2 & x3 & Heq & Hp & _).
  destruct (patterns_copula x1 x2 x3 t Hp Hrel) as [l1 Hl].
  exists (pre ++ l1), post. rewrite Heq, Hl, <- !app_assoc. done.
Qed.

(** X28.  Where an extracted triple comes from: three tagged words in a
    row in one sentence of the text, the first tagged as a noun, the
    third as a noun or an adjective, the middle one a verb before a noun
    or one of the listed relation verbs; subject and object are the
    outer words as written, the relation is the middle word in lower
    case. *)
Theorem extracted_triple_shape (text : string) (t : triple) :
  t ∈ extract_relations sent_tokenize word_tokenize pos_tag lower
        fallback true text →
  ∃ w1 t1 w2 t2 w3 t3,
    window_of text (w1, t1) (w2, t2) (w3, t3) ∧
    t = Triple w1 (lower w2) w3 ∧
    startswith t1 "NN" = true ∧
    (startswith t3 "NN" = true ∨ startswith t3 "JJ" = true) ∧
    ((startswith t2 "VB" = true ∧ startswith t3 "NN" = true) ∨
     lower w2 ∈ RELATION_VERBS).
Proof.
  intros Ht.
  destruct (extract_relations_windows text t Ht)
    as (pre & post & [w1 t1] & [w2 t2] & [w3 t3] & _ & Hp & Hw).
  exists w1, t1, w2, t2, w3, t3. split; [done|].
  by apply patterns_elem.
Qed.

(** X29.  Triples with a form of "to be" come at least twice: the second
    pattern is a special case of the third, so a triple whose relation is
    "is", "are", "was" or "were" stands in the output twice in a row. *)
Theorem copula_triples_repeat (text : string) (t : triple) :
  t ∈ extract_relations sent_tokenize word_tokenize pos_tag lower
        fallback true text →
  t_relation t ∈ ["is"; "are"; "was"; "were"]%string →
  ∃ l1 l2,
    extract_relations sent_tokenize word_tokenize pos_tag lower
      fallback true text = l1 ++ t :: t :: l2.
Proof. apply extract_relations_copula. Qed.

Variable embed_text : string → list R.

Lemma find_by_name_found nodes (x : string) n :
  n ∈ nodes → lower (n_name n) = x →
  ∃ m, find_by_name lower nodes x = Some m ∧ m ∈ nodes ∧
       lower (n_name m) = x.
Proof.
  intros Hn Hx. unfold find_by_name.
  destruct (filter _ nodes) as [|m l] eqn:Hf.
  - assert (Hin : n ∈ filter (λ n, lower (n_name n) = x) nodes)
      by by apply list_elem_of_filter.
    rewrite Hf in Hin. by apply elem_of_nil in Hin.
  - exists m. split; [done|].
    assert (Hin : m ∈ filter (λ n, lower (n_name n) = x) nodes)
      by (rewrite Hf; left).
    by apply list_elem_of_filter in Hin as [? ?].
Qed.

(** X30.  [create_node] stores such a relation twice: when every stored
    edge has an id, the text yields a triple with a form of "to be" as
    relation, and subject and object both name stored nodes (in lower
    case), two edges with different ids, both from a node named like the
    subject to a node named like the object and typed with the relation,
    are created one after the other. *)
Theorem create_node_repeats_copula_edges (fs : files) (name text : string)
    (metadata : gmap string jvalue) (t : triple) (s o : node) :
  has_ids (EDGES_FILE fs) →
  t ∈ extract_relations sent_tokenize word_tokenize pos_tag lower
        fallback true text →
  t_relation t ∈ ["is"; "are"; "was"; "were"]%string →
  s ∈ NODES_FILE fs → lower (n_name s) = lower (t_subject t) →
  o ∈ NODES_FILE fs → lower (n_name o) = lower (t_object t) →
  ∃ fs' new created l1 e1 e2 l2 s' o',
    create_node embed_text
      (extract_relations sent_tokenize word_tokenize pos_tag lower
         fallback true)
      lower fs name text metadata
      = Ok (fs', (new, created)) ∧
    created = l1 ++ e1 :: e2 :: l2 ∧
    er_id e1 ≠ er_id e2 ∧
    s' ∈ NODES_FILE fs' ∧ lower (n_name s') = lower (t_subject t) ∧
    o' ∈ NODES_FILE fs' ∧ lower (n_name o') = lower (t_object t) ∧
    edge_body e1
      = (n_id s', Some (t_relation t), n_id o', Some 1%R) ∧
    edge_body e2 = edge_body e1.
Proof.
  intros Hids Ht Hrel Hs Hsn Ho Hon.
  destruct (create_node_run embed_text
              (extract_relations sent_tokenize word_tokenize pos_tag lower
                 fallback true)
              lower fs name text metadata Hids)
    as (created & Hrun & Hbody & Hab).
  set (new := Node (py_max (n_id <$> NODES_FILE fs) + 1) name text metadata
                (embed_text text)) in *.
  set (nodes' := NODES_FILE fs ++ [new]) in *.
  destruct (find_by_name_found nodes' (lower (t_subject t)) s)
    as (s' & Hfs & Hs' & Hsn'); [apply elem_of_app; by left|done|].
  destruct (find_by_name_found nodes' (lower (t_object t)) o)
    as (o' & Hfo & Ho' & Hon'); [apply elem_of_app; by left|done|].
  assert (Hres : resolved lower nodes' t
                 = Some (n_id s', Some (t_relation t), n_id o', Some 1%R)).
  { unfold resolved. by rewrite Hfs, Hfo. }
  destruct (extract_relations_copula text t Ht Hrel) as (l1 & l2 & Hl).
  rewrite Hl, omap_app in Hbody. simpl in Hbody. rewrite Hres in Hbody.
  apply fmap_app_inv in Hbody as (c1 & c' & _ & Hc' & ->).
  symmetry in Hc'.
  apply fmap_cons_inv in Hc' as (e1 & c'' & He1 & Hc'' & ->).
  symmetry in Hc''.
  apply fmap_cons_inv in Hc'' as (e2 & c2 & He2 & _ & ->).
  destruct (Hab c1 e1 (e2 :: c2) eq_refl) as (i1 & Hi1 & _).
  destruct (Hab (c1 ++ [e1]) e2 c2) as (i2 & Hi2 & Hlt);
    [by rewrite <- app_assoc|].
  assert (i1 < i2).
  { apply (Hlt e1); [|done]. rewrite app_assoc. apply elem_of_app.
    right. left. }
  eexists _, new, _, c1, e1, e2, c2, s', o'. split; [exact Hrun|].
  split; [done|]. split; [rewrite Hi1, Hi2; intros [=]; lia|].
  simpl. split; [done|]. split; [done|]. split; [done|]. split; [done|].
  split; [done|]. congruence.
Qed.
End ExtractorFacts.

(** ** Example data for the endpoints *)

Definition ex_files : files :=
  Files ex_nodes
    [EdgeRec (Some 1) 1 2 (Some "related_to"%string) (Some 1%R);
     EdgeRec (Some 2) 2 3 (Some "related_to"%string) (Some 0.5%R)].

(** An edge file as utils/build_dataset.py writes it. *)
Definition ex_legacy_files : files :=
  Files ex_nodes [EdgeRec None 1 2 (Some "evolves_into"%string) None].

Definition ex_synced_files : files :=
  Files [Node 1 "a" "text a" ∅ [1%R]] [].

Definition ex_lower (s : string) : string := s.

Definition ex_extract (_ : string) : list triple :=
  [Triple "a" "uses" "b"].

Definition ex_sent_tokenize (s : string) : option (list string) :=
  Some [s].

Definition ex_word_tokenize (_ : string) : option (list string) :=
  Some ["a"; "is"; "b"]%string.

Definition ex_pos_tag (_ : list string) : option (list (string * string)) :=
  Some [("a", "NN"); ("is", "VBZ"); ("b", "NN")]%string.

Definition ex_fallback (_ : string) : option (list triple) := None.

Lemma ex_files_has_ids : has_ids (EDGES_FILE ex_files).
Proof. repeat (constructor; [by eexists|]). constructor. Defined.

Lemma ex_files_closed : closed ex_files.
Proof.
  intros e He. simpl in He.
  apply elem_of_cons in He as [->|He];
    [|apply elem_of_cons in He as [->|He]; [|by apply elem_of_nil in He]];
    simpl; split; set_solver.
Defined.

Lemma ex_legacy_no_ids : ¬ has_ids (EDGES_FILE ex_legacy_files).
Proof. intros H. apply Forall_cons in H as [[i Hi] _]. discriminate Hi. Defined.

Lemma ex_extract_run :
  extract_relations ex_sent_tokenize ex_word_tokenize ex_pos_tag ex_lower
    ex_fallback true "a is b"
  = [Triple "a" "is" "b"; Triple "a" "is" "b"; Triple "a" "is" "b"].
Proof. vm_compute. reflexivity. Defined.

Lemma create_node_read_back_witness :
  ∃ fs' new created,
    create_node ex_embed ex_extract ex_lower ex_files "d" "text d" ∅
      = Ok (fs', (new, created)) ∧
    new = Node (n_id new) "d" "text d" ∅ (ex_embed "text d") ∧
    (∀ n, n ∈ NODES_FILE ex_files → n_id n < n_id new) ∧
    NODES_FILE fs' = NODES_FILE ex_files ++ [new] ∧
    (NoDup (n_id <$> NODES_FILE ex_files) → NoDup (n_id <$> NODES_FILE fs')) ∧
    read_node fs' (n_id new)
      = Ok (new, filter (incident (n_id new)) (EDGES_FILE fs')).
Proof.
  apply (create_node_read_back ex_embed ex_extract ex_lower ex_files
           "d" "text d" ∅).
  exact ex_files_has_ids.
Defined.

(** Two nodes share the name "a": the edge starts at the first. *)
Definition ex_twin_files : files :=
  Files [Node 1 "a" "text a" ∅ [1%R];
         Node 2 "b" "text b" ∅ [1%R];
         Node 3 "a" "text a" ∅ [1%R]]
        [].

Lemma create_node_auto_edges_witness :
  ∃ fs' new created,
    create_node ex_embed ex_extract ex_lower ex_twin_files "d" "text d" ∅
      = Ok (fs', (new, created)) ∧
    derived ex_lower (NODES_FILE fs') (ex_extract "text d")
      ((λ e, (er_source e, er_type e, er_target e, er_weight e))
         <$> created) ∧
    (λ e, (er_source e, er_target e)) <$> created = [(1, 2)].
Proof.
  destruct (create_node_auto_edges ex_embed ex_extract ex_lower
              ex_twin_files "d" "text d" ∅)
    as (fs' & new & created & Hrun & _ & Hder & _); [constructor|].
  exists fs', new, created. split; [exact Hrun|]. split; [exact Hder|].
  assert (Hc :
    create_node ex_embed ex_extract ex_lower ex_twin_files "d" "text d" ∅
    = Ok (Files (NODES_FILE ex_twin_files
                   ++ [Node 4 "d" "text d" ∅ (ex_embed "text d")])
                [EdgeRec (Some 1) 1 2 (Some "uses"%string) (Some 1%R)],
          (Node 4 "d" "text d" ∅ (ex_embed "text d"),
           [EdgeRec (Some 1) 1 2 (Some "uses"%string) (Some 1%R)])))
    by reflexivity.
  rewrite Hc in Hrun. injection Hrun as <- <- <-. reflexivity.
Defined.

Lemma referential_integrity_kept_witness :
  ∃ fs', delete_node ex_files 2 = Ok fs' ∧ closed fs'.
Proof.
  destruct (referential_integrity_kept ex_embed ex_extract ex_lower ex_files
              ex_files_closed) as (_ & _ & Hdel & _).
  eexists. split; [apply delete_node_found; set_solver|].
  apply (Hdel 2). apply delete_node_found. set_solver.
Defined.

Lemma create_edge_unchecked_witness :
  ∃ fs' e,
    create_edge ex_files 1 99 "uses" 1%R = Ok (fs', e) ∧
    (closed fs' ↔
       1 ∈ (n_id <$> NODES_FILE ex_files) ∧
       99 ∈ (n_id <$> NODES_FILE ex_files)).
Proof.
  apply (create_edge_unchecked ex_files 1 99 "uses" 1%R).
  - exact ex_files_closed.
  - exact ex_files_has_ids.
Defined.

Lemma create_edge_round_trip_witness :
  ∃ fs' i,
    create_edge ex_files 3 1 "uses" 1%R
      = Ok (fs', EdgeRec (Some i) 3 1 (Some "uses"%string) (Some 1%R)) ∧
    read_edge fs' i
      = Ok (EdgeRec (Some i) 3 1 (Some "uses"%string) (Some 1%R)) ∧
    delete_edge fs' i = Ok ex_files.
Proof.
  destruct (create_edge_round_trip ex_files 3 1 "uses" 1%R
              ex_files_has_ids)
    as (fs' & i & Hrun & _ & _ & _ & Hread & _ & Hdel).
  exists fs', i. split; [exact Hrun|]. split; [exact Hread|exact Hdel].
Defined.

Lemma edge_without_id_breaks_crud_witness :
  create_edge ex_legacy_files 1 3 "uses" 1%R = KeyError ∧
  delete_edge ex_legacy_files 1 = KeyError ∧
  read_edge ex_legacy_files 1 ≠ HTTP404.
Proof.
  destruct (edge_without_id_breaks_crud ex_legacy_files ex_legacy_no_ids)
    as (Hc & Hd & Hr & _).
  split; [apply Hc|]. split; [apply Hd|apply Hr].
Defined.

Lemma update_edge_effect_witness :
  ∃ pre e post,
    EDGES_FILE ex_files = pre ++ e :: post ∧
    er_id e = Some 2 ∧
    read_edge
      (Files ex_nodes
         [EdgeRec (Some 1) 1 2 (Some "related_to"%string) (Some 1%R);
          EdgeRec (Some 2) 2 3 (Some "uses"%string) (Some 0.5%R)]) 2
    = Ok (EdgeRec (Some 2) 2 3 (Some "uses"%string) (Some 0.5%R)).
Proof.
  destruct (update_edge_effect ex_files
              (Files ex_nodes
                 [EdgeRec (Some 1) 1 2 (Some "related_to"%string) (Some 1%R);
                  EdgeRec (Some 2) 2 3 (Some "uses"%string) (Some 0.5%R)])
              2 (Some "uses"%string) None
              (EdgeRec (Some 2) 2 3 (Some "uses"%string) (Some 0.5%R)))
    as (pre & e & post & Heq & _ & _ & Hid & _ & _ & Hread).
  - reflexivity.
  - exists pre, e, post. split; [exact Heq|]. split; [exact Hid|exact Hread].
Defined.

Lemma ex_synced_embedded : embedded ex_embed ex_synced_files.
Proof. repeat constructor. Defined.

Lemma embeddings_follow_text_witness :
  ∃ fs' n,
    update_node ex_embed ex_synced_files 1 None (Some "new text"%string) None
      = Ok (fs', n) ∧
    embedded ex_embed fs'.
Proof.
  destruct (embeddings_follow_text ex_embed ex_extract ex_lower
              ex_synced_files ex_synced_embedded) as (_ & Hupd & _).
  eexists _, _. split; [reflexivity|].
  eapply (Hupd 1 None (Some "new text"%string) None). reflexivity.
Defined.

Lemma create_node_key_error_witness :
  create_node ex_embed ex_extract ex_lower ex_legacy_files "d" "text d" ∅
    = KeyError.
Proof.
  apply (create_node_key_error ex_embed ex_extract ex_lower ex_legacy_files
           "d" "text d" ∅ ex_legacy_no_ids).
  exists (Triple "a" "uses" "b"). split; [left|]. by eexists.
Defined.

Lemma created_edge_is_traversed_witness :
  ∃ fs' e,
    create_edge ex_files 3 1 "uses" 1%R = Ok (fs', e) ∧
    ∃ visited r,
      graph_search (build_ADJ (edge_of <$> EDGES_FILE fs')) 1 2
        (Some "uses"%string)
        = Visited 1 2 (Some "uses"%string) visited ∧
      r ∈ visited ∧ hit_id r = 3 ∧ hit_hop r = 1.
Proof.
  destruct (created_edge_is_traversed ex_files 3 1 "uses" 1%R 2
              (Some "uses"%string))
    as (fs' & e & Hrun & Hall).
  - exact ex_files_has_ids.
  - lia.
  - lia.
  - by right.
  - exists fs', e. split; [exact Hrun|]. apply Hall. right. by split.
Defined.

Lemma extracted_triple_shape_witness :
  ∃ w1 t1 w2 t2 w3 t3,
    window_of ex_sent_tokenize ex_word_tokenize ex_pos_tag "a is b"
      (w1, t1) (w2, t2) (w3, t3) ∧
    Triple "a" "is" "b" = Triple w1 (ex_lower w2) w3 ∧
    startswith t1 "NN" = true ∧
    (startswith t3 "NN" = true ∨ startswith t3 "JJ" = true) ∧
    ((startswith t2 "VB" = true ∧ startswith t3 "NN" = true) ∨
     ex_lower w2 ∈ RELATION_VERBS).
Proof.
  apply (extracted_triple_shape ex_sent_tokenize ex_word_tokenize ex_pos_tag
           ex_lower ex_fallback "a is b" (Triple "a" "is" "b")).
  rewrite ex_extract_run. left.
Defined.

Lemma copula_triples_repeat_witness :
  ∃ l1 l2,
    extract_relations ex_sent_tokenize ex_word_tokenize ex_pos_tag ex_lower
      ex_fallback true "a is b"
    = l1 ++ Triple "a" "is" "b" :: Triple "a" "is" "b" :: l2.
Proof.
  apply (copula_triples_repeat ex_sent_tokenize ex_word_tokenize ex_pos_tag
           ex_lower ex_fallback "a is b" (Triple "a" "is" "b")).
  - rewrite ex_extract_run. left.
  - simpl. left.
Defined.

Lemma create_node_repeats_copula_edges_witness :
  ∃ fs' new created l1 e1 e2 l2,
    create_node ex_embed
      (extract_relations ex_sent_tokenize ex_word_tokenize ex_pos_tag
         ex_lower ex_fallback true)
      ex_lower ex_files "d" "a is b" ∅
      = Ok (fs', (new, created)) ∧
    created = l1 ++ e1 :: e2 :: l2 ∧
    er_id e1 ≠ er_id e2 ∧ edge_body e2 = edge_body e1.
Proof.
  destruct (create_node_repeats_copula_edges ex_sent_tokenize
              ex_word_tokenize ex_pos_tag ex_lower ex_fallback ex_embed
              ex_files "d" "a is b" ∅ (Triple "a" "is" "b")
              (Node 1 "a" "text a" ∅ [1%R]) (Node 2 "b" "text b" ∅ [2%R]))
    as (fs' & new & created & l1 & e1 & e2 & l2 & s' & o' & Hrun & Hc & Hid
        & _ & _ & _ & _ & _ & Hb).
  - exact ex_files_has_ids.
  - rewrite ex_extract_run. left.
  - simpl. left.
  - left.
  - reflexivity.
  - right. left.
  - reflexivity.
  - exists fs', new, created, l1, e1, e2, l2.
    split; [exact Hrun|]. split; [exact Hc|]. split; [exact Hid|exact Hb].
Defined.
